(** * FPLAnalyser: a shallow embedding of the scoring and selection core of app.py

    The development follows [src/app.py] function by function.

    Modelling conventions.

    - Python [float] values are modelled in two ways.  The main development
      idealises them as exact rationals ([Q]): NaN, infinities and rounding
      are outside that model.  Module [Binary64] models the scoring, rating,
      transfer and chip functions once more over IEEE 754 binary64 (Rocq's
      primitive [float]), operation for operation as the interpreter
      evaluates them, so that rounding, infinities and NaN are part of the
      model.  Integers ([id], [team], [element_type], [now_cost],
      difficulties) are [Z].
    - A Python exception is modelled by [None] in the option monad; a
      function that can raise returns [option _].
    - Python dicts used as maps ([pos_counts], [pos_limits], [team_counts],
      [used_chips]) are [gmap]s, the set [team_player_ids] is a [gset].
    - [list.sort] / [sorted] are stable; they are modelled by a stable
      insertion sort.  For keys that are totally pre-ordered every stable
      sort returns the same list.
    - A list that the code sorts in place is threaded through explicitly:
      the function returns the new contents of the list next to its result. *)

From Stdlib Require Import ZArith QArith Qround Qminmax Lqa Lia Ascii Floats.
From stdpp Require Import base option list sorting gmap strings pretty.

Local Open Scope Z_scope.

(** A decimal float literal stands for the nearest binary64 value. *)
Set Warnings "-inexact-float".

(** ** Python values and numeric helpers *)

(** What [float(v)] can be applied to in [calculate_player_score]:
    - [PyNum q]   : an int, a float, or a string that [float] parses, of value [q];
    - [PyNone]    : [None] (JSON null); [float(None)] raises [TypeError];
    - [PyBadStr]  : a string that [float] rejects; raises [ValueError]. *)
Inductive pyval : Type :=
  | PyNum (q : Q)
  | PyNone
  | PyBadStr.

(** [float(v)] *)
Definition to_float (v : pyval) : option Q :=
  match v with
  | PyNum q => Some q
  | PyNone => None
  | PyBadStr => None
  end.

Definition Qltb (x y : Q) : bool := negb (Qle_bool y x).

(** Python's [min(a, b)]: [b] if [b < a], else [a]. *)
Definition py_min (a b : Q) : Q := if Qltb b a then b else a.

(** Python's [round(x)] with one argument: nearest integer, ties to even. *)
Definition py_round (x : Q) : Z :=
  let f := Qfloor x in
  let r := (x - inject_Z f)%Q in
  if Qltb r (1 # 2)%Q then f
  else if Qltb (1 # 2)%Q r then f + 1
  else if Z.even f then f else f + 1.

(** ** Data model *)

(** A player dict.  The keys read with [p['k']] are always present; the keys
    read with [p.get('k', default)] may be absent ([None]). *)
Record player : Type := {
  player_id : Z;                       (* p['id'] *)
  web_name : string;                   (* p['web_name'] *)
  team : Z;                            (* p['team'] *)
  element_type : Z;                    (* p['element_type'], 1:GKP 2:DEF 3:MID 4:FWD *)
  now_cost : Z;                        (* p['now_cost'], integer tenths *)
  form : option pyval;                 (* p.get('form', 0.0) *)
  points_per_game : option pyval       (* p.get('points_per_game', 0.0) *)
}.

Record fixture : Type := {
  event : option Z;                    (* fixture['event'], may be null *)
  team_h : Z;
  team_a : Z;
  team_h_difficulty : Z;
  team_a_difficulty : Z
}.

(** [{'player': p, 'score': score}] *)
Record scored : Type := {
  sp_player : player;
  sp_score : Q
}.

(** ** calculate_player_score (app.py 70-81) *)

(** [difficulty_modifiers.get(fixture_difficulty, 1.0)] *)
Definition difficulty_modifier (fixture_difficulty : Z) : Q :=
  match fixture_difficulty with
  | 1 => (12 # 10)%Q
  | 2 => (11 # 10)%Q
  | 3 => 1%Q
  | 4 => (9 # 10)%Q
  | 5 => (8 # 10)%Q
  | _ => 1%Q
  end.

Definition calculate_player_score (p : player) (fixture_difficulty : Z) : option Q :=
  f ← to_float (default (PyNum 0) (form p));
  g ← to_float (default (PyNum 0) (points_per_game p));
  let base_score := (f * (6 # 10) + g * (4 # 10))%Q in
  Some (base_score * difficulty_modifier fixture_difficulty)%Q.

(** ** rate_team (app.py 83-108) *)

(** The body of the [for p, d in ...] loop, on the accumulator [total_score]. *)
Definition rate_step (captain_id : Z) (total_score : Q) (pd : player * Z) : option Q :=
  player_score ← calculate_player_score pd.1 pd.2;
  if decide (player_id pd.1 = captain_id)
  then Some (total_score + player_score * 2)%Q
  else Some (total_score + player_score)%Q.

Fixpoint rate_loop (captain_id : Z) (total_score : Q) (l : list (player * Z)) : option Q :=
  match l with
  | [] => Some total_score
  | pd :: rest =>
      total_score' ← rate_step captain_id total_score pd;
      rate_loop captain_id total_score' rest
  end.

Definition max_possible_score : Q := (10 * 8 + 1 * 8 * 2)%Q.

Definition rate_team (starting_players_with_difficulty : list (player * Z))
    (captain_id : Z) : option Z :=
  match starting_players_with_difficulty with
  | [] => Some 0
  | _ =>
      total_score ← rate_loop captain_id 0%Q starting_players_with_difficulty;
      if Qeq_bool max_possible_score 0%Q then Some 0
      else
        let rating := py_min 100%Q ((total_score / max_possible_score) * 100)%Q in
        Some (py_round rating)
  end.

(** ** get_player_fixture_difficulty (app.py 110-121) *)

(** [gameweek_id] is [None] or an int; [not gameweek_id] holds for [None] and [0].
    [all_fixtures] is a list; the falsy values [None] and [[]] are both [[]]. *)
Fixpoint find_fixture_difficulty (player_team_id gw : Z) (l : list fixture) : Z :=
  match l with
  | [] => 3
  | fx :: rest =>
      if decide (event fx = Some gw) then
        if decide (team_h fx = player_team_id) then team_h_difficulty fx
        else if decide (team_a fx = player_team_id) then team_a_difficulty fx
        else find_fixture_difficulty player_team_id gw rest
      else find_fixture_difficulty player_team_id gw rest
  end.

Definition get_player_fixture_difficulty (player_team_id : Z)
    (gameweek_id : option Z) (all_fixtures : list fixture) : Z :=
  match all_fixtures, gameweek_id with
  | [], _ => 3
  | _, None => 3
  | _, Some 0 => 3
  | _, Some gw => find_fixture_difficulty player_team_id gw all_fixtures
  end.

(** ** Stable sorting *)

(** [list.sort(key=...)] and [sorted(..., key=...)], with or without
    [reverse=True], are stable: elements with equal keys keep their order.
    [insert_stable before x l] puts [x], which stood in front of all of [l],
    behind the leading elements that must come strictly before it. *)
Section StableSort.
Context {A : Type} (before : A → A → bool).

Fixpoint insert_stable (x : A) (l : list A) : list A :=
  match l with
  | [] => [x]
  | y :: ys => if before y x then y :: insert_stable x ys else x :: y :: ys
  end.

Definition sort_stable (l : list A) : list A := foldr insert_stable [] l.

End StableSort.

(** [l.sort(key=key)] *)
Definition sort_asc {A} (key : A → Q) (l : list A) : list A :=
  sort_stable (λ y x, Qltb (key y) (key x)) l.

(** [l.sort(key=key, reverse=True)] *)
Definition sort_desc {A} (key : A → Q) (l : list A) : list A :=
  sort_stable (λ y x, Qltb (key x) (key y)) l.

(** Ascending order of keys. *)
Definition key_le {A} (key : A → Q) (x y : A) : Prop := (key x <= key y)%Q.

(** ** suggest_replacements (app.py 123-169) *)

(** A suggestion dict.  The logo and face URLs and the [reason] text are
    presentation strings derived from the same two players and are left out;
    that is also why [all_teams] is not a parameter below. *)
Record suggestion : Type := {
  sg_out : string;                     (* 'out': player_to_replace['web_name'] *)
  sg_in : string;                      (* 'in': best_replacement['web_name'] *)
  score_gain : Q;                      (* 'score_gain' *)
  in_player_object : player            (* 'in_player_object' *)
}.

(** The inner [for p in all_elements] loop building [candidates]. *)
Fixpoint find_candidates (team_player_ids : gset Z) (all_fixtures : list fixture)
    (next_gameweek_id : option Z) (current_price position : Z)
    (player_to_replace_score : Q) (all_elements : list player)
    : option (list (player * Q)) :=
  match all_elements with
  | [] => Some []
  | p :: rest =>
      if decide (element_type p = position ∧ player_id p ∉ team_player_ids) then
        let candidate_difficulty :=
          get_player_fixture_difficulty (team p) next_gameweek_id all_fixtures in
        candidate_score ← calculate_player_score p candidate_difficulty;
        candidates ← find_candidates team_player_ids all_fixtures next_gameweek_id
                        current_price position player_to_replace_score rest;
        if bool_decide (now_cost p ≤ current_price)
           && Qltb player_to_replace_score candidate_score
        then Some ((p, candidate_score) :: candidates)
        else Some candidates
      else
        find_candidates team_player_ids all_fixtures next_gameweek_id
          current_price position player_to_replace_score rest
  end.

(** One iteration of the outer loop: the suggestion appended for
    [player_to_replace], if any. *)
Definition replacement_for (team_player_ids : gset Z) (all_elements : list player)
    (all_fixtures : list fixture) (next_gameweek_id : option Z)
    (pd : player * Z) : option (option suggestion) :=
  let player_to_replace := pd.1 in
  let difficulty_to_replace := pd.2 in
  let current_price := now_cost player_to_replace in
  let position := element_type player_to_replace in
  player_to_replace_score ← calculate_player_score player_to_replace difficulty_to_replace;
  candidates ← find_candidates team_player_ids all_fixtures next_gameweek_id
                  current_price position player_to_replace_score all_elements;
  match candidates with
  | [] => Some None
  | _ =>
      match sort_desc snd candidates with
      | (best_replacement, best_replacement_score) :: _ =>
          Some (Some {| sg_out := web_name player_to_replace;
                        sg_in := web_name best_replacement;
                        score_gain := (best_replacement_score - player_to_replace_score)%Q;
                        in_player_object := best_replacement |})
      | [] => None                     (* candidates[0] on an empty list *)
      end
  end.

(** The outer loop; [suggestions] collects the appended entries in order. *)
Fixpoint replacements_loop (team_player_ids : gset Z) (all_elements : list player)
    (all_fixtures : list fixture) (next_gameweek_id : option Z)
    (team_players : list (player * Z)) : option (list suggestion) :=
  match team_players with
  | [] => Some []
  | pd :: rest =>
      s ← replacement_for team_player_ids all_elements all_fixtures next_gameweek_id pd;
      suggestions ← replacements_loop team_player_ids all_elements all_fixtures
                      next_gameweek_id rest;
      Some (match s with Some x => x :: suggestions | None => suggestions end)
  end.

(** [lambda x: calculate_player_score(x[0], x[1])], the key of every sort and
    [max] over (player, difficulty) pairs. *)
Definition score_pair (x : player * Z) : option Q := calculate_player_score x.1 x.2.

(** [team_players_with_difficulty.sort(key=lambda x: calculate_player_score(x[0], x[1]))]:
    the keys are computed first (any of them may raise), then the list is
    reordered in place. *)
Definition sort_team_by_score (team_players_with_difficulty : list (player * Z))
    : option (list (player * Z)) :=
  keys ← mapM score_pair team_players_with_difficulty;
  Some ((sort_asc fst (zip keys team_players_with_difficulty)).*2).

(** Returns the contents of the argument list after the call together with
    the returned suggestions. *)
Definition suggest_replacements (team_players_with_difficulty : list (player * Z))
    (all_elements : list player) (all_fixtures : list fixture)
    (next_gameweek_id : option Z)
    : option (list (player * Z) * list suggestion) :=
  match team_players_with_difficulty with
  | [] => Some ([], [])
  | _ =>
      team_sorted ← sort_team_by_score team_players_with_difficulty;
      let team_player_ids : gset Z := list_to_set ((λ x : player * Z, player_id x.1) <$> team_sorted) in
      suggestions ← replacements_loop team_player_ids all_elements all_fixtures
                      next_gameweek_id team_sorted;
      Some (team_sorted, suggestions)
  end.

(** ** suggest_chips (app.py 171-216) *)

Inductive chip : Type := BenchBoost | TripleCaptain | Wildcard | FreeHit.

Global Instance chip_eq_dec : EqDecision chip.
Proof. solve_decision. Defined.

(** The ['chip'] text of a recommendation. *)
Definition chip_name (c : chip) : string :=
  match c with
  | BenchBoost => "Bench Boost"
  | TripleCaptain => "Triple Captain"
  | Wildcard => "Wildcard"
  | FreeHit => "Free Hit"
  end.

(** The key looked up in [used_chips]. *)
Definition chip_key (c : chip) : string :=
  match c with
  | BenchBoost => "benchBoost"
  | TripleCaptain => "tripleCaptain"
  | Wildcard => "wildcard"
  | FreeHit => "freeHit"
  end.

(** [used_chips.get(k)] as a truth value; the map holds the truthiness of
    each stored value. *)
Definition chip_used (used_chips : gmap string bool) (c : chip) : bool :=
  default false (used_chips !! chip_key c).

(** [sum(xs)]: starts from [0], adds left to right. *)
Definition py_sum (xs : list Q) : Q := foldl Qplus 0%Q xs.

(** [max(l, key=key)] on a non-empty list [best :: l]: the first maximal element. *)
Fixpoint py_max_by {A} (key : A → Q) (best : A) (l : list A) : A :=
  match l with
  | [] => best
  | x :: rest => py_max_by key (if Qltb (key best) (key x) then x else best) rest
  end.

(** 1. Bench Boost: the entries this block appends. *)
Definition bench_boost_chip (bench_players_with_difficulty : list (player * Z))
    (used_chips : gmap string bool) : option (list chip) :=
  if negb (chip_used used_chips BenchBoost)
     && bool_decide (bench_players_with_difficulty ≠ [])
  then
    bench_scores ← mapM score_pair bench_players_with_difficulty;
    let total_bench_score := py_sum bench_scores in
    Some (if Qltb 15 total_bench_score then [BenchBoost] else [])
  else Some [].

(** 2. Triple Captain.  [max] computes the key of every starter, then the
    score of the winner is computed once more. *)
Definition triple_captain_chip (starting_players_with_difficulty : list (player * Z))
    (used_chips : gmap string bool) : option (list chip) :=
  if negb (chip_used used_chips TripleCaptain)
     && bool_decide (starting_players_with_difficulty ≠ [])
  then
    keys ← mapM score_pair starting_players_with_difficulty;
    match zip keys starting_players_with_difficulty with
    | [] => None                       (* max() of an empty sequence *)
    | first :: others =>
        let captain_candidate := (py_max_by fst first others).2 in
        captain_score ← score_pair captain_candidate;
        Some (if Qltb (85 # 10) captain_score then [TripleCaptain] else [])
    end
  else Some [].

(** 3. Wildcard *)
Definition wildcard_chip (other_suggestions : list suggestion)
    (used_chips : gmap string bool) : list chip :=
  if negb (chip_used used_chips Wildcard)
     && bool_decide (5 ≤ length other_suggestions)%nat
  then [Wildcard] else [].

(** 4. Free Hit: [other_suggestions and other_suggestions[0].get('score_gain', 0) > 3.0];
    every suggestion carries a ['score_gain']. *)
Definition free_hit_chip (other_suggestions : list suggestion)
    (used_chips : gmap string bool) : list chip :=
  if negb (chip_used used_chips FreeHit)
     && match other_suggestions with
        | [] => false
        | s :: _ => Qltb 3 (score_gain s)
        end
  then [FreeHit] else [].

Definition suggest_chips (starting_players_with_difficulty bench_players_with_difficulty
      : list (player * Z))
    (other_suggestions : list suggestion) (used_chips : gmap string bool)
    : option (list chip) :=
  c1 ← bench_boost_chip bench_players_with_difficulty used_chips;
  c2 ← triple_captain_chip starting_players_with_difficulty used_chips;
  Some (c1 ++ c2 ++ wildcard_chip other_suggestions used_chips
           ++ free_hit_chip other_suggestions used_chips).

(** ** suggest_wildcard_team, squad construction (app.py 218-255) *)

(** [all_players_with_value]: every pool player with its score, in pool order. *)
Definition score_pool (all_elements : list player) (all_fixtures : list fixture)
    (next_gameweek_id : option Z) : option (list scored) :=
  mapM (λ p,
          let difficulty := get_player_fixture_difficulty (team p) next_gameweek_id all_fixtures in
          score ← calculate_player_score p difficulty;
          Some {| sp_player := p; sp_score := score |})
       all_elements.

(** The mutable locals of the greedy loop. *)
Record wc_state : Type := {
  wildcard_squad : list scored;
  budget : Q;
  pos_counts : gmap Z nat;
  team_counts : gmap Z nat
}.

Definition pos_limits : gmap Z nat := {[ 1 := 2%nat; 2 := 5%nat; 3 := 5%nat; 4 := 3%nat ]}.
Definition team_limit : nat := 3.

Definition wc_init : wc_state :=
  {| wildcard_squad := [];
     budget := 100;
     pos_counts := {[ 1 := 0%nat; 2 := 0%nat; 3 := 0%nat; 4 := 0%nat ]};
     team_counts := ∅ |}.

(** [player['now_cost'] / 10.0] *)
Definition price_of (p : player) : Q := (inject_Z (now_cost p) / 10)%Q.

(** The loop body after the [break] test.  [pos_counts[pos]] and
    [pos_limits[pos]] raise [KeyError] for a position outside 1..4. *)
Definition wc_step (st : wc_state) (p_data : scored) : option wc_state :=
  let player := sp_player p_data in
  let pos := element_type player in
  let price := price_of player in
  let team_id := team player in
  if decide (team_limit ≤ default 0%nat (team_counts st !! team_id))%nat then Some st
  else
    count ← pos_counts st !! pos;
    limit ← pos_limits !! pos;
    if bool_decide (count < limit)%nat && Qle_bool price (budget st) then
      Some {| wildcard_squad := wildcard_squad st ++ [p_data];
              budget := (budget st - price)%Q;
              pos_counts := <[ pos := (count + 1)%nat ]> (pos_counts st);
              team_counts := <[ team_id := (default 0%nat (team_counts st !! team_id) + 1)%nat ]>
                               (team_counts st) |}
    else Some st.

(** [for p_data in all_players_with_value: if len(wildcard_squad) == 15: break; ...] *)
Fixpoint wc_loop (st : wc_state) (l : list scored) : option wc_state :=
  match l with
  | [] => Some st
  | p_data :: rest =>
      if decide (length (wildcard_squad st) = 15%nat) then Some st
      else st' ← wc_step st p_data; wc_loop st' rest
  end.

(** [all_players_with_value] after [sort(key=lambda x: x['score'], reverse=True)]. *)
Definition wildcard_ranking (all_elements : list player) (all_fixtures : list fixture)
    (next_gameweek_id : option Z) : option (list scored) :=
  all_players_with_value ← score_pool all_elements all_fixtures next_gameweek_id;
  Some (sort_desc sp_score all_players_with_value).

(** Lines 220-255: the state of the locals when the greedy loop ends. *)
Definition build_wildcard_squad (all_elements : list player) (all_fixtures : list fixture)
    (next_gameweek_id : option Z) : option wc_state :=
  ranking ← wildcard_ranking all_elements all_fixtures next_gameweek_id;
  wc_loop wc_init ranking.

(** ** Lineup formatting (app.py 257-297 and 430-461) *)

Inductive role : Type := Captain | ViceCaptain | Starter | Sub.

Global Instance role_eq_dec : EqDecision role.
Proof. solve_decision. Defined.

(** [sorted([p for p in squad if p['player']['element_type'] == pos],
            key=lambda x: x['score'], reverse=True)] *)
Definition by_position (pos : Z) (squad : list scored) : list scored :=
  sort_desc sp_score (filter (λ p, element_type (sp_player p) = pos) squad).

Definition starter_role (i : nat) : role :=
  let role0 := Starter in
  let role1 := if decide (i = 0%nat) then Captain else role0 in
  if decide (i = 1%nat) then ViceCaptain else role1.

(** Sort the XI by score, tag it by rank, then append the bench as subs. *)
Definition assign_roles (starting_xi bench : list scored) : list (player * role) :=
  imap (λ i p_data, (sp_player p_data, starter_role i)) (sort_desc sp_score starting_xi)
  ++ ((λ p_data, (sp_player p_data, Sub)) <$> bench).

(** Lines 257-297 of [suggest_wildcard_team]. *)
Definition wildcard_lineup (squad : list scored) : list (player * role) :=
  let gkp := by_position 1 squad in
  let defs := by_position 2 squad in
  let mids := by_position 3 squad in
  let fwds := by_position 4 squad in
  let starting_xi0 := take 1 gkp in            (* if gkp: starting_xi.append(gkp.pop(0)) *)
  let bench0 := take 1 (drop 1 gkp) in         (* if gkp: bench.append(gkp.pop(0)) *)
  let outfield_pool := sort_desc sp_score (defs ++ mids ++ fwds) in
  let starting_xi1 := starting_xi0 ++ take 3 outfield_pool in
  let num_starters_needed := (11 - length starting_xi1)%nat in
  let starting_xi := starting_xi1 ++ take num_starters_needed (drop 3 outfield_pool) in
  let bench := bench0 ++ drop (3 + num_starters_needed) outfield_pool in
  assign_roles starting_xi bench.

Definition suggest_wildcard_team (all_elements : list player) (all_fixtures : list fixture)
    (next_gameweek_id : option Z) : option (list (player * role)) :=
  st ← build_wildcard_squad all_elements all_fixtures next_gameweek_id;
  Some (wildcard_lineup (wildcard_squad st)).

(** Lines 430-461 of [analyze_team]: the lineup after the free transfer. *)
Definition ft_lineup (new_squad_with_scores : list scored) : list (player * role) :=
  let gkp := by_position 1 new_squad_with_scores in
  let defs := by_position 2 new_squad_with_scores in
  let mids := by_position 3 new_squad_with_scores in
  let fwds := by_position 4 new_squad_with_scores in
  let starting_xi0 := take 1 gkp ++ take 3 defs ++ take 2 mids ++ take 1 fwds in
  let outfield_pool := sort_desc sp_score (drop 3 defs ++ drop 2 mids ++ drop 1 fwds) in
  let starting_xi := starting_xi0 ++ take 4 outfield_pool in
  let bench := drop 1 gkp ++ sort_desc sp_score (drop 4 outfield_pool) in
  assign_roles starting_xi bench.

(** Entries of a formatted lineup by role. *)
Definition count_role (r : role) (lineup : list (player * role)) : nat :=
  length (filter (λ e, e.2 = r) lineup).

Definition count_starters (lineup : list (player * role)) : nat :=
  length (filter (λ e, e.2 ≠ Sub) lineup).

(** ** The two halves of the lineup formatters *)

(** [outfield_pool] of [suggest_wildcard_team]. *)
Definition wildcard_outfield_pool (squad : list scored) : list scored :=
  sort_desc sp_score (by_position 2 squad ++ by_position 3 squad ++ by_position 4 squad).

(** [starting_xi] of [suggest_wildcard_team] before its final sort. *)
Definition wildcard_starting_xi (squad : list scored) : list scored :=
  let starting_xi1 := take 1 (by_position 1 squad) ++ take 3 (wildcard_outfield_pool squad) in
  starting_xi1
  ++ take (11 - length starting_xi1) (drop 3 (wildcard_outfield_pool squad)).

(** [bench] of [suggest_wildcard_team]. *)
Definition wildcard_bench (squad : list scored) : list scored :=
  let starting_xi1 := take 1 (by_position 1 squad) ++ take 3 (wildcard_outfield_pool squad) in
  take 1 (drop 1 (by_position 1 squad))
  ++ drop (3 + (11 - length starting_xi1)) (wildcard_outfield_pool squad).

(** [outfield_pool] of [analyze_team] after its sort. *)
Definition ft_outfield_pool (squad : list scored) : list scored :=
  sort_desc sp_score (drop 3 (by_position 2 squad) ++ drop 2 (by_position 3 squad)
                      ++ drop 1 (by_position 4 squad)).

(** [starting_xi] of [analyze_team] before its final sort. *)
Definition ft_starting_xi (squad : list scored) : list scored :=
  (take 1 (by_position 1 squad) ++ take 3 (by_position 2 squad)
   ++ take 2 (by_position 3 squad) ++ take 1 (by_position 4 squad))
  ++ take 4 (ft_outfield_pool squad).

(** [bench] of [analyze_team]. *)
Definition ft_bench (squad : list scored) : list scored :=
  drop 1 (by_position 1 squad) ++ sort_desc sp_score (drop 4 (ft_outfield_pool squad)).

(** ** get_club_logo_url (app.py 48-55) *)

(** A team dict, reduced to the two keys the function reads. *)
Record club : Type := {
  club_id : Z;                         (* team['id'] *)
  club_code : Z                        (* team['code'] *)
}.

Definition badge_url (team_code : Z) : string :=
  "https://resources.premierleague.com/premierleague/badges/70/t"
  +:+ pretty team_code +:+ ".png".

Fixpoint get_club_logo_url (team_id : Z) (teams_data : list club) : string :=
  match teams_data with
  | [] => ""
  | t :: rest =>
      if decide (club_id t = team_id) then badge_url (club_code t)
      else get_club_logo_url team_id rest
  end.

(** ** get_player_face_url (app.py 57-68) *)

Definition placeholder_url : string :=
  "https://upload.wikimedia.org/wikipedia/commons/8/89/Portrait_Placeholder.png".

(** [s.replace('.jpg', '')]: every non-overlapping occurrence, left to right. *)
Fixpoint remove_jpg (s : string) : string :=
  match s with
  | String "."%char (String "j"%char (String "p"%char (String "g"%char rest))) =>
      remove_jpg rest
  | String c rest => String c (remove_jpg rest)
  | EmptyString => EmptyString
  end.

Definition is_digit (c : ascii) : bool :=
  let n := nat_of_ascii c in (48 <=? n)%nat && (n <=? 57)%nat.

Fixpoint all_digits (s : string) : bool :=
  match s with
  | EmptyString => true
  | String c rest => is_digit c && all_digits rest
  end.

(** [s.isdigit()] on a string of ASCII characters: non-empty, digits only. *)
Definition py_isdigit (s : string) : bool :=
  match s with
  | EmptyString => false
  | _ => all_digits s
  end.

Definition face_url (photo_id : string) : string :=
  "https://resources.premierleague.com/premierleague/photos/players/40x40/p"
  +:+ photo_id +:+ ".png".

(** The function reads nothing but the ['photo'] entry of the player.  The
    argument is that entry: [None] when the player is falsy, has no ['photo']
    key or holds a falsy non-string there, [Some s] for a string [s]. *)
Definition get_player_face_url (photo : option string) : string :=
  match photo with
  | None => placeholder_url
  | Some EmptyString => placeholder_url
  | Some s =>
      let photo_id := remove_jpg s in
      if py_isdigit photo_id then face_url photo_id else placeholder_url
  end.

(** ** analyze_team (app.py 343-521) *)

(** An entry of [all_fpl_data['events']], reduced to the two keys read. *)
Record gameweek : Type := {
  is_next : bool;                      (* truthiness of event.get('is_next') *)
  gameweek_id : option Z               (* event.get('id') *)
}.

(** Lines 380-384: the id of the first event flagged [is_next]. *)
Fixpoint find_next_gameweek (events : list gameweek) : option Z :=
  match events with
  | [] => None
  | ev :: rest => if is_next ev then gameweek_id ev else find_next_gameweek rest
  end.

(** Line 364: [{p['id']: p for p in elements}]; a later entry replaces an
    earlier one with the same id. *)
Definition build_player_map (elements : list player) : gmap Z player :=
  foldl (λ m p, <[ player_id p := p ]> m) ∅ elements.

(** [[player_map[pid] for pid in ids if pid in player_map]] *)
Definition resolve_ids (player_map : gmap Z player) (ids : list Z) : list player :=
  omap (λ pid, player_map !! pid) ids.

(** Lines 401-406: rank the suggestions by score gain and split off the top one. *)
Definition rank_suggestions (suggestions : list suggestion)
    : list suggestion * list suggestion :=
  let suggestions := sort_desc score_gain suggestions in
  (take 1 suggestions, drop 1 suggestions).

(** Lines 414-421: the squad after the free transfer.  [all_players_with_difficulty]
    is the list as [suggest_replacements] left it. *)
Definition post_transfer_squad (free_transfers : list suggestion)
    (all_players_with_difficulty : list (player * Z)) : list player :=
  let out_player_names : gset string := list_to_set (sg_out <$> free_transfers) in
  let players_in := in_player_object <$> free_transfers in
  let current_squad_players := all_players_with_difficulty.*1 in
  let players_kept := filter (λ p, web_name p ∉ out_player_names) current_squad_players in
  players_kept ++ players_in.

(** Lines 412-461: [suggested_lineup_ft]. *)
Definition suggested_lineup_after_transfer (free_transfers : list suggestion)
    (all_players_with_difficulty : list (player * Z))
    (all_fixtures : list fixture) (next_gameweek_id : option Z)
    : option (list (player * role)) :=
  match free_transfers with
  | [] => Some []
  | _ =>
      new_squad_with_scores ←
        score_pool (post_transfer_squad free_transfers all_players_with_difficulty)
                   all_fixtures next_gameweek_id;
      Some (ft_lineup new_squad_with_scores)
  end.

(** The two 400 answers of the squad validation. *)
Inductive analysis_error : Type :=
  | SquadSizeError (provided : nat)    (* 'Analysis requires a full squad of 15 players...' *)
  | StartingSizeError (provided : nat). (* 'Analysis requires a starting XI of 11 players...' *)

(** The computed part of the 200 answer.  The two lineups keep the player
    records; the listings [identified_team] and [gameweek_fixtures] and the
    final projection of the lineups to name, form, price and points only
    re-present data and are left out. *)
Record analysis : Type := {
  team_rating : Z;
  free_transfers : list suggestion;
  other_suggestions : list suggestion;
  chip_suggestions : list chip;
  suggested_lineup_ft : list (player * role);
  suggested_lineup_wc : list (player * role)
}.

(** [analyze_team] from line 363 on, with the request fields and the fetched
    data as arguments; [all_fixtures] is [[]] when the fixtures could not be
    fetched.  [None] is an uncaught exception, [inl] a 400 answer. *)
Definition analyze_team (starting_ids bench_ids : list Z) (captain_id : Z)
    (used_chips : gmap string bool) (elements : list player)
    (events : list gameweek) (all_fixtures : list fixture)
    : option (analysis_error + analysis) :=
  let all_ids := starting_ids ++ bench_ids in
  let player_map := build_player_map elements in
  let starting_players := resolve_ids player_map starting_ids in
  let all_players := resolve_ids player_map all_ids in
  if decide (length all_players ≠ 15%nat) then
    Some (inl (SquadSizeError (length all_players)))
  else if decide (length starting_players ≠ 11%nat) then
    Some (inl (StartingSizeError (length starting_players)))
  else
    let next_gameweek_id := find_next_gameweek events in
    let with_difficulty (p : player) :=
      (p, get_player_fixture_difficulty (team p) next_gameweek_id all_fixtures) in
    let starting_players_with_difficulty := with_difficulty <$> starting_players in
    let all_players_with_difficulty := with_difficulty <$> all_players in
    let bench_players := filter (λ p, player_id p ∉ starting_ids) all_players in
    let bench_players_with_difficulty := with_difficulty <$> bench_players in
    rating ← rate_team starting_players_with_difficulty captain_id;
    sorted_and_suggestions ←
      suggest_replacements all_players_with_difficulty elements all_fixtures next_gameweek_id;
    let ranked := rank_suggestions sorted_and_suggestions.2 in
    chips ← suggest_chips starting_players_with_difficulty bench_players_with_difficulty
              ranked.2 used_chips;
    lineup_ft ← suggested_lineup_after_transfer ranked.1 sorted_and_suggestions.1
                  all_fixtures next_gameweek_id;
    lineup_wc ← (if decide (Wildcard ∈ chips)
                 then suggest_wildcard_team elements all_fixtures next_gameweek_id
                 else Some []);
    Some (inr {| team_rating := rating;
                 free_transfers := ranked.1;
                 other_suggestions := ranked.2;
                 chip_suggestions := chips;
                 suggested_lineup_ft := lineup_ft;
                 suggested_lineup_wc := lineup_wc |}).

(** ** Specification-side definitions *)

(** A starter's contribution to the rating as the specification words it:
    its score, doubled when the starter is the captain. *)
Definition weighted_score (captain_id : Z) (pd : player * Z) : option Q :=
  s ← calculate_player_score pd.1 pd.2;
  Some (if decide (player_id pd.1 = captain_id) then 2 * s else s)%Q.

Definition Qsum (xs : list Q) : Q := foldr Qplus 0%Q xs.

(** [round(min(100, 100 * total / 96.0))], [0] for an empty list. *)
Definition rate_team_spec (starters : list (player * Z)) (captain_id : Z) : option Z :=
  match starters with
  | [] => Some 0
  | _ =>
      ws ← mapM (weighted_score captain_id) starters;
      Some (py_round (Qmin 100 (100 * Qsum ws / 96)))
  end.

(** The value the specification gives to a [form] / [points_per_game]
    entry: its number, and the neutral [0.0] when it is absent or non-numeric. *)
Definition coerce (v : option pyval) : Q :=
  match v with
  | Some (PyNum q) => q
  | _ => 0%Q
  end.

(** The entry is absent or [float] accepts it. *)
Definition numeric_or_absent (v : option pyval) : Prop :=
  match v with
  | Some PyNone | Some PyBadStr => False
  | _ => True
  end.

(** A player record on which scoring cannot raise. *)
Definition numeric_player (p : player) : Prop :=
  numeric_or_absent (form p) ∧ numeric_or_absent (points_per_game p).

(** A position for which the wildcard builder has a quota. *)
Definition known_position (p : player) : Prop := is_Some (pos_limits !! element_type p).

(** [base] of the specification, in the operand order of the code. *)
Definition base_score_spec (p : player) : Q :=
  (coerce (form p) * (6 # 10) + coerce (points_per_game p) * (4 # 10))%Q.

(** [(0.6 * form + 0.4 * points_per_game) * modifier] *)
Definition score_spec (p : player) (d : Z) : Q :=
  (((6 # 10) * coerce (form p) + (4 # 10) * coerce (points_per_game p))
   * difficulty_modifier d)%Q.

(** The score of a pool player against the next gameweek's fixture. *)
Definition candidate_score (all_fixtures : list fixture) (next_gameweek_id : option Z)
    (c : player) : option Q :=
  calculate_player_score c (get_player_fixture_difficulty (team c) next_gameweek_id all_fixtures).

(** The test the inner loop of [suggest_replacements] applies to a pool
    player [c] of score [sc], in terms of the loop's locals. *)
Definition is_candidate (team_player_ids : gset Z) (all_fixtures : list fixture)
    (next_gameweek_id : option Z) (current_price position : Z)
    (player_to_replace_score : Q) (c : player) (sc : Q) : Prop :=
  element_type c = position ∧ (player_id c ∉ team_player_ids) ∧
  now_cost c ≤ current_price ∧
  candidate_score all_fixtures next_gameweek_id c = Some sc ∧
  (player_to_replace_score < sc)%Q.

(** [c], of score [sc], qualifies as a replacement for the owned player [P]
    of score [sP]: same position, not owned, not dearer, strictly better. *)
Definition qualifies (owned : list (player * Z)) (all_fixtures : list fixture)
    (next_gameweek_id : option Z) (P : player) (sP : Q) (c : player) (sc : Q) : Prop :=
  element_type c = element_type P ∧
  (player_id c ∉ (λ x : player * Z, player_id x.1) <$> owned) ∧
  now_cost c ≤ now_cost P ∧
  candidate_score all_fixtures next_gameweek_id c = Some sc ∧
  (sP < sc)%Q.

(** Squad measures used by the wildcard and lineup properties. *)
Definition count_pos (pos : Z) (squad : list scored) : nat :=
  length (filter (λ p, element_type (sp_player p) = pos) squad).

Definition count_team (t : Z) (squad : list scored) : nat :=
  length (filter (λ p, team (sp_player p) = t) squad).

Definition total_price (squad : list scored) : Q :=
  Qsum ((λ p, price_of (sp_player p)) <$> squad).

(** The loop invariant of the greedy scan: the budget is what is left of
    100.0, it is not negative, and the two counters agree with the squad and
    respect the quotas. *)
Definition wc_inv (st : wc_state) : Prop :=
  (0 <= budget st)%Q ∧
  (budget st == 100 - total_price (wildcard_squad st))%Q ∧
  (∀ pos, pos_counts st !! pos
          = (λ _, count_pos pos (wildcard_squad st)) <$> (pos_limits !! pos)) ∧
  (∀ pos, (count_pos pos (wildcard_squad st) ≤ default 0 (pos_limits !! pos))%nat) ∧
  (∀ t, default 0%nat (team_counts st !! t) = count_team t (wildcard_squad st)) ∧
  (∀ t, (count_team t (wildcard_squad st) ≤ team_limit)%nat) ∧
  Forall (λ p, is_Some (pos_limits !! element_type (sp_player p))) (wildcard_squad st).

(** The shape the specification's Squad has: 11 starters, one of them
    Captain and one Vice-Captain, and 4 bench entries. *)
Definition well_formed_lineup (lineup : list (player * role)) : Prop :=
  count_starters lineup = 11%nat ∧ count_role Sub lineup = 4%nat ∧
  count_role Captain lineup = 1%nat ∧ count_role ViceCaptain lineup = 1%nat.

(** Club [t] plays in fixture [fx] of gameweek [gw]. *)
Definition plays_in (t gw : Z) (fx : fixture) : Prop :=
  event fx = Some gw ∧ (team_h fx = t ∨ team_a fx = t).

(** How many of the submitted ids belong to a pool player. *)
Definition known_ids (elements : list player) (ids : list Z) : nat :=
  length (filter (λ i, i ∈ player_id <$> elements) ids).

(** Players of a position in a list of player records. *)
Definition count_position (pos : Z) (players : list player) : nat :=
  length (filter (λ p, element_type p = pos) players).

(** ** Concrete inputs used in examples *)

Definition mk_player (i : Z) (name : string) (club pos cost : Z) (f g : Q) : player :=
  {| player_id := i; web_name := name; team := club; element_type := pos;
     now_cost := cost; form := Some (PyNum f); points_per_game := Some (PyNum g) |}.

(** Keeper A of the specification's scenario: form 5.0, points per game 4.0. *)
Definition keeper_A : player := mk_player 1 "A" 1 1 50 5 4.

(** A world-class starter: form 8, points per game 8, score 8.0 at difficulty 3. *)
Definition star_player : player := mk_player 7 "Star" 2 3 125 8 8.

(** A player without any points: form 0, points per game 0. *)
Definition idle_player : player := mk_player 2 "Idle" 1 2 40 0 0.


(** A player whose [form] entry is a string that [float] rejects. *)
Definition bad_form_player : player :=
  {| player_id := 4; web_name := "Bad"; team := 1; element_type := 4;
     now_cost := 60; form := Some PyBadStr; points_per_game := Some (PyNum 4) |}.

(** Two defenders that outscore [idle_player] at the same price, and one
    that outscores it but costs more. *)
Definition defender_B : player := mk_player 11 "B" 3 2 40 5 5.
Definition defender_C : player := mk_player 12 "C" 4 2 38 5 5.
Definition defender_D : player := mk_player 13 "D" 5 2 60 9 9.

Definition small_pool : list player :=
  [keeper_A; idle_player; defender_D; defender_B; defender_C].

(** A bench whose scores at neutral difficulty are 5.0, 4.0, 3.0 and 4.0. *)
Definition bench4 : list (player * Z) :=
  [(mk_player 21 "S1" 6 1 40 5 5, 3); (mk_player 22 "S2" 7 2 40 4 4, 3);
   (mk_player 23 "S3" 8 3 45 3 3, 3); (mk_player 24 "S4" 9 4 45 4 4, 3)].

(** Six further suggestions, the first with a score gain of 1.0. *)
Definition six_suggestions : list suggestion :=
  replicate 6 {| sg_out := "Idle"; sg_in := "B"; score_gain := 1;
                 in_player_object := defender_B |}.

(** Fifteen players in the shape 2/5/5/3, three per club, 5.0 each. *)
Definition full_pool : list player :=
  imap (λ i pos, mk_player (100 + Z.of_nat i) "P" (Z.of_nat i `mod` 5 + 1) pos 50 5 5)
       [1; 1; 2; 2; 2; 2; 2; 3; 3; 3; 3; 3; 4; 4; 4].

(** [full_pool] with every price doubled to 10.0: only ten are affordable. *)
Definition pricey_pool : list player :=
  imap (λ i pos, mk_player (100 + Z.of_nat i) "P" (Z.of_nat i `mod` 5 + 1) pos 100 5 5)
       [1; 1; 2; 2; 2; 2; 2; 3; 3; 3; 3; 3; 4; 4; 4].

(** Fifteen scored players in the shape 3/2/7/3. *)
Definition odd_squad : list scored :=
  imap (λ i pos, {| sp_player := mk_player (200 + Z.of_nat i) "O" (Z.of_nat i + 1) pos 50 5 5;
                    sp_score := 5 |})
       [1; 1; 1; 2; 2; 3; 3; 3; 3; 3; 3; 3; 4; 4; 4].

(** Fifteen scored players in the shape 2/5/5/3. *)
Definition full_squad : list scored :=
  imap (λ i pos, {| sp_player := mk_player (300 + Z.of_nat i) "F" (Z.of_nat i + 1) pos 50 5 5;
                    sp_score := 5 |})
       [1; 1; 2; 2; 2; 2; 2; 3; 3; 3; 3; 3; 4; 4; 4].

(** A submitted squad of 15 with distinct names, a pool that also holds one
    better midfielder at the same price, and the squad's ids. *)
Definition named_squad : list player :=
  imap (λ i pos, mk_player (100 + Z.of_nat i) ("P" +:+ pretty i)
                           (Z.of_nat i `mod` 5 + 1) pos 50 5 5)
       [1; 1; 2; 2; 2; 2; 2; 3; 3; 3; 3; 3; 4; 4; 4].

Definition league : list player := named_squad ++ [mk_player 200 "U" 9 3 50 7 7].

Definition demo_starting_ids : list Z := [100; 102; 103; 104; 105; 106; 107; 108; 109; 110; 112].
Definition demo_bench_ids : list Z := [101; 111; 113; 114].

(** [league] with a better player in every position at the squad's price. *)
Definition league_wc : list player :=
  named_squad ++ [mk_player 201 "G" 6 1 50 7 7; mk_player 202 "D" 7 2 50 7 7;
                  mk_player 203 "M" 8 3 50 7 7; mk_player 204 "F" 9 4 50 7 7].

(** ** The scoring functions in binary64 arithmetic *)

(** CPython's [float] is IEEE 754 binary64, and every [*], [+], [-] and [/]
    on it rounds to nearest, ties to even.  Rocq's primitive [float] is the
    same format with the same operations, so the functions below compute
    bit for bit what the interpreter computes.  A decimal literal such as
    [0.6] denotes, here as in Python, the binary64 value nearest to it.

    Rounding is visible wherever the code compares two computed scores or a
    score with a threshold: form 0.2 and points per game 0.1 give the score
    0.16, form 0.0 and points per game 0.4 give 0.16000000000000003, although
    both are 0.16 in exact arithmetic. *)

(** The order of the non-NaN values, read off the sign, the exponent and the
    mantissa: [SFcompare] is the lexicographic comparison of these keys. *)
Definition sf_key (x : spec_float) : Z * Z * Z :=
  match x with
  | S754_infinity true => (-2, 0, 0)
  | S754_infinity false => (2, 0, 0)
  | S754_zero _ => (0, 0, 0)
  | S754_nan => (0, 0, 0)
  | S754_finite false m e => (1, e, Z.pos m)
  | S754_finite true m e => (-1, - e, Z.neg m)
  end.

Definition lex_compare (a b : Z * Z * Z) : comparison :=
  match a.1.1 ?= b.1.1 with
  | Eq => match a.1.2 ?= b.1.2 with
          | Eq => a.2 ?= b.2
          | r => r
          end
  | r => r
  end.

Definition lex_lt (a b : Z * Z * Z) : Prop :=
  a.1.1 < b.1.1 ∨ (a.1.1 = b.1.1 ∧ (a.1.2 < b.1.2 ∨ (a.1.2 = b.1.2 ∧ a.2 < b.2))).

Module Binary64.

(** What [float(v)] is applied to in [calculate_player_score]:
    - [PyNum x]  : an int, a float, or a string that [float] parses; [x] is
                   the binary64 value that [float(v)] returns (it may be an
                   infinity or NaN, which [float] parses too);
    - [PyNone]   : [None] (JSON null); [float(None)] raises [TypeError];
    - [PyBadStr] : a string that [float] rejects; raises [ValueError]. *)
Inductive pyval : Type :=
  | PyNum (x : float)
  | PyNone
  | PyBadStr.

(** [float(v)] *)
Definition to_float (v : pyval) : option float :=
  match v with
  | PyNum x => Some x
  | PyNone => None
  | PyBadStr => None
  end.

(** A player dict.  The keys read with [p['k']] are always present; the keys
    read with [p.get('k', default)] may be absent ([None]). *)
Record player : Type := {
  player_id : Z;                       (* p['id'] *)
  web_name : string;                   (* p['web_name'] *)
  team : Z;                            (* p['team'] *)
  element_type : Z;                    (* p['element_type'] *)
  now_cost : Z;                        (* p['now_cost'], integer tenths *)
  photo : option string;               (* the ['photo'] entry, as [get_player_face_url] reads it *)
  form : option pyval;                 (* p.get('form', 0.0) *)
  points_per_game : option pyval       (* p.get('points_per_game', 0.0) *)
}.

(** *** calculate_player_score (app.py 70-81) *)

(** [difficulty_modifiers.get(fixture_difficulty, 1.0)] *)
Definition difficulty_modifier (fixture_difficulty : Z) : float :=
  match fixture_difficulty with
  | 1 => 1.2
  | 2 => 1.1
  | 3 => 1.0
  | 4 => 0.9
  | 5 => 0.8
  | _ => 1.0
  end%float.

Definition calculate_player_score (p : player) (fixture_difficulty : Z) : option float :=
  f ← to_float (default (PyNum 0) (form p));
  g ← to_float (default (PyNum 0) (points_per_game p));
  let base_score := (f * 0.6 + g * 0.4)%float in
  Some (base_score * difficulty_modifier fixture_difficulty)%float.

(** *** rate_team (app.py 83-108) *)

(** [m / 2^k] for [k > 0], rounded to the nearest integer, ties to even. *)
Definition round_half_even (m k : Z) : Z :=
  let q := Z.shiftr m k in
  let r := m - Z.shiftl q k in
  let half := Z.shiftl 1 (k - 1) in
  if r <? half then q
  else if half <? r then q + 1
  else if Z.even q then q else q + 1.

(** [round(x)] for a float [x]: the nearest integer of the exact value
    [±m·2^e], ties to even; [OverflowError] for an infinity and [ValueError]
    for NaN. *)
Definition py_round (x : float) : option Z :=
  match Prim2SF x with
  | S754_zero _ => Some 0
  | S754_finite s m e =>
      let a := if 0 <=? e then Z.shiftl (Z.pos m) e
               else round_half_even (Z.pos m) (- e) in
      Some (if s then - a else a)
  | S754_infinity _ => None
  | S754_nan => None
  end.

(** The body of the [for p, d in ...] loop, on the accumulator [total_score]. *)
Definition rate_step (captain_id : Z) (total_score : float) (pd : player * Z)
    : option float :=
  player_score ← calculate_player_score pd.1 pd.2;
  if decide (player_id pd.1 = captain_id)
  then Some (total_score + player_score * 2)%float
  else Some (total_score + player_score)%float.

Fixpoint rate_loop (captain_id : Z) (total_score : float) (l : list (player * Z))
    : option float :=
  match l with
  | [] => Some total_score
  | pd :: rest =>
      total_score' ← rate_step captain_id total_score pd;
      rate_loop captain_id total_score' rest
  end.

Definition max_possible_score : float := (10 * 8.0 + 1 * 8.0 * 2)%float.

(** [round(min(100, x))]: [min] returns its second argument [x] when
    [x < 100] and the int [100] otherwise (also for NaN). *)
Definition round_min_100 (x : float) : option Z :=
  if (x <? 100)%float then py_round x else Some 100.

(** [total_score] starts as the int [0]; the first [+=] adds a float to it. *)
Definition rate_team (starting_players_with_difficulty : list (player * Z))
    (captain_id : Z) : option Z :=
  match starting_players_with_difficulty with
  | [] => Some 0
  | _ =>
      total_score ← rate_loop captain_id 0%float starting_players_with_difficulty;
      if (max_possible_score =? 0)%float then Some 0
      else round_min_100 ((total_score / max_possible_score) * 100)%float
  end.

(** *** Sorting by a float key *)

(** [l.sort(key=key)]: the stable sort compares keys with [<] only. *)
Definition sort_asc {A} (key : A → float) (l : list A) : list A :=
  sort_stable (λ y x, (key y <? key x)%float) l.

(** [l.sort(key=key, reverse=True)] *)
Definition sort_desc {A} (key : A → float) (l : list A) : list A :=
  sort_stable (λ y x, (key x <? key y)%float) l.

(** *** suggest_replacements (app.py 123-169) *)

(** A suggestion dict without its [reason] text. *)
Record suggestion : Type := {
  sg_out : string;                     (* 'out' *)
  out_club_logo_url : string;          (* 'out_club_logo_url' *)
  out_face_url : string;               (* 'out_face_url' *)
  sg_in : string;                      (* 'in' *)
  in_club_logo_url : string;           (* 'in_club_logo_url' *)
  in_face_url : string;                (* 'in_face_url' *)
  score_gain : float;                  (* 'score_gain' *)
  in_player_object : player            (* 'in_player_object' *)
}.

(** The inner [for p in all_elements] loop building [candidates]. *)
Fixpoint find_candidates (team_player_ids : gset Z) (all_fixtures : list fixture)
    (next_gameweek_id : option Z) (current_price position : Z)
    (player_to_replace_score : float) (all_elements : list player)
    : option (list (player * float)) :=
  match all_elements with
  | [] => Some []
  | p :: rest =>
      if decide (element_type p = position ∧ player_id p ∉ team_player_ids) then
        let candidate_difficulty :=
          get_player_fixture_difficulty (team p) next_gameweek_id all_fixtures in
        candidate_score ← calculate_player_score p candidate_difficulty;
        candidates ← find_candidates team_player_ids all_fixtures next_gameweek_id
                        current_price position player_to_replace_score rest;
        if bool_decide (now_cost p ≤ current_price)
           && (player_to_replace_score <? candidate_score)%float
        then Some ((p, candidate_score) :: candidates)
        else Some candidates
      else
        find_candidates team_player_ids all_fixtures next_gameweek_id
          current_price position player_to_replace_score rest
  end.

(** One iteration of the outer loop: the suggestion appended for
    [player_to_replace], if any. *)
Definition replacement_for (team_player_ids : gset Z) (all_elements : list player)
    (all_teams : list club) (all_fixtures : list fixture) (next_gameweek_id : option Z)
    (pd : player * Z) : option (option suggestion) :=
  let player_to_replace := pd.1 in
  let difficulty_to_replace := pd.2 in
  let current_price := now_cost player_to_replace in
  let position := element_type player_to_replace in
  player_to_replace_score ← calculate_player_score player_to_replace difficulty_to_replace;
  candidates ← find_candidates team_player_ids all_fixtures next_gameweek_id
                  current_price position player_to_replace_score all_elements;
  match candidates with
  | [] => Some None
  | _ =>
      match sort_desc snd candidates with
      | (best_replacement, best_replacement_score) :: _ =>
          Some (Some
            {| sg_out := web_name player_to_replace;
               out_club_logo_url := get_club_logo_url (team player_to_replace) all_teams;
               out_face_url := get_player_face_url (photo player_to_replace);
               sg_in := web_name best_replacement;
               in_club_logo_url := get_club_logo_url (team best_replacement) all_teams;
               in_face_url := get_player_face_url (photo best_replacement);
               score_gain := (best_replacement_score - player_to_replace_score)%float;
               in_player_object := best_replacement |})
      | [] => None                     (* candidates[0] on an empty list *)
      end
  end.

(** The outer loop; [suggestions] collects the appended entries in order. *)
Fixpoint replacements_loop (team_player_ids : gset Z) (all_elements : list player)
    (all_teams : list club) (all_fixtures : list fixture) (next_gameweek_id : option Z)
    (team_players : list (player * Z)) : option (list suggestion) :=
  match team_players with
  | [] => Some []
  | pd :: rest =>
      s ← replacement_for team_player_ids all_elements all_teams all_fixtures
            next_gameweek_id pd;
      suggestions ← replacements_loop team_player_ids all_elements all_teams all_fixtures
                      next_gameweek_id rest;
      Some (match s with Some x => x :: suggestions | None => suggestions end)
  end.

(** [lambda x: calculate_player_score(x[0], x[1])] *)
Definition score_pair (x : player * Z) : option float := calculate_player_score x.1 x.2.

(** [team_players_with_difficulty.sort(key=lambda x: calculate_player_score(x[0], x[1]))]:
    the keys are computed first (any of them may raise), then the list is
    reordered in place.  The insertion sort stands for the interpreter's
    merge sort; the two agree whenever no key is NaN. *)
Definition sort_team_by_score (team_players_with_difficulty : list (player * Z))
    : option (list (player * Z)) :=
  keys ← mapM score_pair team_players_with_difficulty;
  Some ((sort_asc fst (zip keys team_players_with_difficulty)).*2).

(** Returns the contents of the argument list after the call together with
    the returned suggestions. *)
Definition suggest_replacements (team_players_with_difficulty : list (player * Z))
    (all_elements : list player) (all_teams : list club) (all_fixtures : list fixture)
    (next_gameweek_id : option Z)
    : option (list (player * Z) * list suggestion) :=
  match team_players_with_difficulty with
  | [] => Some ([], [])
  | _ =>
      team_sorted ← sort_team_by_score team_players_with_difficulty;
      let team_player_ids : gset Z :=
        list_to_set ((λ x : player * Z, player_id x.1) <$> team_sorted) in
      suggestions ← replacements_loop team_player_ids all_elements all_teams all_fixtures
                      next_gameweek_id team_sorted;
      Some (team_sorted, suggestions)
  end.

(** *** suggest_chips (app.py 171-216) *)

(** The plain sum: start from [0], add left to right. *)
Definition sum_left (xs : list float) : float := foldl PrimFloat.add 0%float xs.

(** [max(l, key=key)] on a non-empty list [best :: l]: an element replaces
    the current best when its key is greater. *)
Fixpoint py_max_by {A} (key : A → float) (best : A) (l : list A) : A :=
  match l with
  | [] => best
  | x :: rest => py_max_by key (if (key best <? key x)%float then x else best) rest
  end.

Section Chips.

(** The builtin [sum].  On floats its result depends on the interpreter:
    CPython up to 3.11 returns [sum_left], CPython from 3.12 on carries a
    compensation term and can differ from it in the last bit.  The advisor
    is modelled over the builtin as it is. *)
Context (py_sum : list float → float).

(** 1. Bench Boost: the entries this block appends. *)
Definition bench_boost_chip (bench_players_with_difficulty : list (player * Z))
    (used_chips : gmap string bool) : option (list chip) :=
  if negb (chip_used used_chips BenchBoost)
     && bool_decide (bench_players_with_difficulty ≠ [])
  then
    bench_scores ← mapM score_pair bench_players_with_difficulty;
    let total_bench_score := py_sum bench_scores in
    Some (if (15 <? total_bench_score)%float then [BenchBoost] else [])
  else Some [].

(** 2. Triple Captain.  [max] computes the key of every starter, then the
    score of the winner is computed once more. *)
Definition triple_captain_chip (starting_players_with_difficulty : list (player * Z))
    (used_chips : gmap string bool) : option (list chip) :=
  if negb (chip_used used_chips TripleCaptain)
     && bool_decide (starting_players_with_difficulty ≠ [])
  then
    keys ← mapM score_pair starting_players_with_difficulty;
    match zip keys starting_players_with_difficulty with
    | [] => None                       (* max() of an empty sequence *)
    | first :: others =>
        let captain_candidate := (py_max_by fst first others).2 in
        captain_score ← score_pair captain_candidate;
        Some (if (8.5 <? captain_score)%float then [TripleCaptain] else [])
    end
  else Some [].

(** 3. Wildcard *)
Definition wildcard_chip (other_suggestions : list suggestion)
    (used_chips : gmap string bool) : list chip :=
  if negb (chip_used used_chips Wildcard)
     && bool_decide (5 ≤ length other_suggestions)%nat
  then [Wildcard] else [].

(** 4. Free Hit: [other_suggestions and other_suggestions[0].get('score_gain', 0) > 3.0];
    every suggestion carries a ['score_gain']. *)
Definition free_hit_chip (other_suggestions : list suggestion)
    (used_chips : gmap string bool) : list chip :=
  if negb (chip_used used_chips FreeHit)
     && match other_suggestions with
        | [] => false
        | s :: _ => (3.0 <? score_gain s)%float
        end
  then [FreeHit] else [].

Definition suggest_chips (starting_players_with_difficulty bench_players_with_difficulty
      : list (player * Z))
    (other_suggestions : list suggestion) (used_chips : gmap string bool)
    : option (list chip) :=
  c1 ← bench_boost_chip bench_players_with_difficulty used_chips;
  c2 ← triple_captain_chip starting_players_with_difficulty used_chips;
  Some (c1 ++ c2 ++ wildcard_chip other_suggestions used_chips
           ++ free_hit_chip other_suggestions used_chips).

End Chips.

(** *** Specification-side definitions *)

(** A starter's contribution to the rating as the specification words it:
    its score, doubled when the starter is the captain. *)
Definition weighted_score (captain_id : Z) (pd : player * Z) : option float :=
  s ← calculate_player_score pd.1 pd.2;
  Some (if decide (player_id pd.1 = captain_id) then (s * 2)%float else s).

(** The rating with the operations in the order of the code:
    [round(min(100, (total / 96.0) * 100))], [0] for an empty list. *)
Definition rate_team_spec (starters : list (player * Z)) (captain_id : Z) : option Z :=
  match starters with
  | [] => Some 0
  | _ =>
      ws ← mapM (weighted_score captain_id) starters;
      round_min_100 ((sum_left ws / 96) * 100)%float
  end.

(** The rating as the specification writes the formula:
    [round(min(100, 100 * total / 96.0))]. *)
Definition rate_team_as_written (starters : list (player * Z)) (captain_id : Z)
    : option Z :=
  match starters with
  | [] => Some 0
  | _ =>
      ws ← mapM (weighted_score captain_id) starters;
      round_min_100 (100 * sum_left ws / 96)%float
  end.

(** The score of a pool player against the next gameweek's fixture. *)
Definition candidate_score (all_fixtures : list fixture) (next_gameweek_id : option Z)
    (c : player) : option float :=
  calculate_player_score c (get_player_fixture_difficulty (team c) next_gameweek_id all_fixtures).

(** The test the inner loop of [suggest_replacements] applies to a pool
    player [c] of score [sc], in terms of the loop's locals. *)
Definition is_candidate (team_player_ids : gset Z) (all_fixtures : list fixture)
    (next_gameweek_id : option Z) (current_price position : Z)
    (player_to_replace_score : float) (c : player) (sc : float) : Prop :=
  element_type c = position ∧ (player_id c ∉ team_player_ids) ∧
  now_cost c ≤ current_price ∧
  candidate_score all_fixtures next_gameweek_id c = Some sc ∧
  (player_to_replace_score <? sc)%float = true.

(** [c], of score [sc], qualifies as a replacement for the owned player [P]
    of score [sP]: same position, not owned, not dearer, strictly better. *)
Definition qualifies (owned : list (player * Z)) (all_fixtures : list fixture)
    (next_gameweek_id : option Z) (P : player) (sP : float) (c : player) (sc : float)
    : Prop :=
  element_type c = element_type P ∧
  (player_id c ∉ (λ x : player * Z, player_id x.1) <$> owned) ∧
  now_cost c ≤ now_cost P ∧
  candidate_score all_fixtures next_gameweek_id c = Some sc ∧
  (sP <? sc)%float = true.

(** The entry is absent or [float] accepts it. *)
Definition numeric_or_absent (v : option pyval) : Prop :=
  match v with
  | Some PyNone | Some PyBadStr => False
  | _ => True
  end.

(** A player record on which scoring cannot raise. *)
Definition numeric_player (p : player) : Prop :=
  numeric_or_absent (form p) ∧ numeric_or_absent (points_per_game p).

(** Ascending order of float keys. *)
Definition key_le {A} (key : A → float) (x y : A) : Prop := (key x <=? key y)%float = true.

(** No key is NaN. *)
Definition ordered (keys : list float) : Prop := Forall (λ k, is_nan k = false) keys.

(** *** Concrete inputs used in examples *)

Definition mk_player (i : Z) (name : string) (club pos cost : Z) (f g : float) : player :=
  {| player_id := i; web_name := name; team := club; element_type := pos;
     now_cost := cost; photo := None;
     form := Some (PyNum f); points_per_game := Some (PyNum g) |}.

(** Keeper A: form 5.0, points per game 4.0. *)
Definition keeper_A : player := mk_player 1 "A" 1 1 50 5.0 4.0.

(** A world-class starter: form 8.0, points per game 8.0, score 8.0 at difficulty 3. *)
Definition star_player : player := mk_player 7 "Star" 2 3 125 8.0 8.0.

(** A player without any points. *)
Definition idle_player : player := mk_player 2 "Idle" 1 2 40 0.0 0.0.

(** A midfielder with form 0.0 and 5.4 points per game: score 2.16. *)
Definition mid_player : player := mk_player 9 "Mid" 1 3 50 0.0 5.4.

(** Two defenders whose scores are both 0.16 in exact arithmetic; in
    binary64 the first scores 0.16000000000000003 and the second 0.16. *)
Definition level_A : player := mk_player 21 "LA" 1 2 40 0.0 0.4.
Definition level_B : player := mk_player 22 "LB" 2 2 40 0.2 0.1.

(** Two defenders that outscore [idle_player] at no higher price, and one
    that outscores it but costs more. *)
Definition defender_B : player := mk_player 11 "B" 3 2 40 5.0 5.0.
Definition defender_C : player := mk_player 12 "C" 4 2 38 5.0 5.0.
Definition defender_D : player := mk_player 13 "D" 5 2 60 9.0 9.0.

Definition small_pool : list player := [defender_D; defender_B; defender_C].

(** The suggestion the engine makes for [idle_player] from [small_pool]. *)
Definition idle_for_B : suggestion :=
  {| sg_out := "Idle"; out_club_logo_url := ""; out_face_url := placeholder_url;
     sg_in := "B"; in_club_logo_url := ""; in_face_url := placeholder_url;
     score_gain := 5.0; in_player_object := defender_B |}.

(** A bench whose scores at neutral difficulty are 5.0, 4.0, 3.0 and 4.0. *)
Definition bench4 : list (player * Z) :=
  [(mk_player 31 "S1" 6 1 40 5.0 5.0, 3); (mk_player 32 "S2" 7 2 40 4.0 4.0, 3);
   (mk_player 33 "S3" 8 3 45 3.0 3.0, 3); (mk_player 34 "S4" 9 4 45 4.0 4.0, 3)].

(** A bench of two whose scores, 6.9 and 8.1 in exact arithmetic, are
    6.9 and 8.100000000000001 in binary64. *)
Definition bench2 : list (player * Z) :=
  [(mk_player 35 "T1" 6 2 40 7.5 6.0, 3); (mk_player 36 "T2" 7 3 40 9.5 6.0, 3)].

(** Six further suggestions, the first with a score gain of 1.0. *)
Definition six_suggestions : list suggestion :=
  replicate 6 {| sg_out := "Idle"; out_club_logo_url := ""; out_face_url := placeholder_url;
                 sg_in := "B"; in_club_logo_url := ""; in_face_url := placeholder_url;
                 score_gain := 1.0; in_player_object := defender_B |}.

End Binary64.

(** * Properties *)

(** ** Rational helpers *)

Lemma Qltb_lt (x y : Q) : Qltb x y = true ↔ (x < y)%Q.
Proof.
  unfold Qltb. rewrite negb_true_iff, <- not_true_iff_false, Qle_bool_iff.
  split; [apply Qnot_le_lt | apply Qlt_not_le].
Qed.

Lemma Qltb_ge (x y : Q) : Qltb x y = false ↔ (y <= x)%Q.
Proof.
  unfold Qltb. rewrite negb_false_iff. apply Qle_bool_iff.
Qed.

Global Instance Qltb_comp : Proper (Qeq ==> Qeq ==> eq) Qltb.
Proof. intros x x' Hx y y' Hy. unfold Qltb. by rewrite Hx, Hy. Qed.

Global Instance py_round_comp : Proper (Qeq ==> eq) py_round.
Proof.
  intros x y Hxy. unfold py_round.
  rewrite (Qfloor_comp _ _ Hxy).
  assert (Hr : (x - inject_Z (Qfloor y) == y - inject_Z (Qfloor y))%Q) by (by rewrite Hxy).
  by rewrite !Hr.
Qed.

Lemma py_min_Qmin (a b : Q) : (py_min a b == Qmin a b)%Q.
Proof.
  unfold py_min. destruct (Qltb b a) eqn:E.
  - apply Qltb_lt in E. symmetry. apply Q.min_r. by apply Qlt_le_weak.
  - apply Qltb_ge in E. symmetry. by apply Q.min_l.
Qed.

Lemma py_round_bounds (x : Q) :
  (inject_Z (py_round x) - (1 # 2) <= x)%Q ∧ (x <= inject_Z (py_round x) + (1 # 2))%Q.
Proof.
  unfold py_round. cbv zeta.
  pose proof (Qfloor_le x) as Hlo. pose proof (Qlt_floor x) as Hhi.
  rewrite inject_Z_plus in Hhi. change (inject_Z 1) with 1%Q in Hhi.
  destruct (Qltb _ (1 # 2)) eqn:E1; [apply Qltb_lt in E1 | apply Qltb_ge in E1].
  { revert Hlo Hhi E1. generalize (inject_Z (Qfloor x)). intros; split; lra. }
  destruct (Qltb (1 # 2) _) eqn:E2; [apply Qltb_lt in E2 | apply Qltb_ge in E2].
  { rewrite inject_Z_plus. change (inject_Z 1) with 1%Q.
    revert Hlo Hhi E1 E2. generalize (inject_Z (Qfloor x)). intros; split; lra. }
  destruct (Z.even _); [| rewrite inject_Z_plus; change (inject_Z 1) with 1%Q];
    revert Hlo Hhi E1 E2; generalize (inject_Z (Qfloor x)); intros; split; lra.
Qed.

(** [round] is monotone and fixes the integers. *)
Lemma py_round_Z (z : Z) : py_round (inject_Z z) = z.
Proof.
  unfold py_round. rewrite Qfloor_Z.
  assert (H : Qltb (inject_Z z - inject_Z z) (1 # 2) = true).
  { apply Qltb_lt. generalize (inject_Z z). intros; lra. }
  by rewrite H.
Qed.



(** ** calculate_player_score *)

Lemma difficulty_modifier_pos (d : Z) : (0 < difficulty_modifier d)%Q.
Proof.
  unfold difficulty_modifier.
  destruct d as [|[[[]|[]|]|[[]|[]|]|]|]; reflexivity.
Qed.

Lemma calculate_player_score_Some (p : player) (d : Z) (s : Q) :
  calculate_player_score p d = Some s ↔
  ∃ f g, to_float (default (PyNum 0) (form p)) = Some f ∧
         to_float (default (PyNum 0) (points_per_game p)) = Some g ∧
         s = ((f * (6 # 10) + g * (4 # 10)) * difficulty_modifier d)%Q.
Proof.
  unfold calculate_player_score. split.
  - intros H. destruct (to_float (default _ (form p))) as [f|]; [|done].
    destruct (to_float (default _ (points_per_game p))) as [g|]; [|done].
    simpl in H. injection H as <-. by exists f, g.
  - intros (f & g & -> & -> & ->). done.
Qed.

Lemma coerce_to_float (v : option pyval) (q : Q) :
  to_float (default (PyNum 0) v) = Some q → coerce v = q.
Proof. destruct v as [[]|]; simpl; congruence. Qed.

Lemma calculate_player_score_base (p : player) (d : Z) (s : Q) :
  calculate_player_score p d = Some s → s = (base_score_spec p * difficulty_modifier d)%Q.
Proof.
  intros (f & g & Hf & Hg & ->)%calculate_player_score_Some.
  unfold base_score_spec. by rewrite (coerce_to_float _ _ Hf), (coerce_to_float _ _ Hg).
Qed.

Lemma base_score_spec_formula (p : player) :
  (base_score_spec p == (6 # 10) * coerce (form p) + (4 # 10) * coerce (points_per_game p))%Q.
Proof. unfold base_score_spec. ring. Qed.

Example score_keeper_A :
  (∃ s, calculate_player_score keeper_A 3 = Some s ∧ (s == 46 # 10)%Q) ∧
  (∃ s, calculate_player_score keeper_A 1 = Some s ∧ (s == 552 # 100)%Q).
Proof. split; eexists; split; reflexivity. Qed.

Example py_round_ties :
  py_round (5 # 2) = 2 ∧ py_round (7 # 2) = 4 ∧ py_round (-5 # 2) = -2 ∧
  py_round (50 # 3) = 17 ∧ py_round (-50 # 3) = -17.
Proof. repeat split; reflexivity. Qed.

Example fixture_difficulty_lookup :
  let fx := {| event := Some 7; team_h := 1; team_a := 2;
               team_h_difficulty := 2; team_a_difficulty := 4 |} in
  get_player_fixture_difficulty 1 (Some 7) [fx] = 2 ∧
  get_player_fixture_difficulty 2 (Some 7) [fx] = 4 ∧
  get_player_fixture_difficulty 3 (Some 7) [fx] = 3 ∧
  get_player_fixture_difficulty 1 (Some 8) [fx] = 3 ∧
  get_player_fixture_difficulty 1 None [fx] = 3 ∧
  get_player_fixture_difficulty 1 (Some 7) [] = 3.
Proof. repeat split; reflexivity. Qed.

(** A present entry that [float] rejects makes the call raise. *)
Lemma calculate_player_score_raises (p : player) (d : Z) :
  ¬ (numeric_or_absent (form p) ∧ numeric_or_absent (points_per_game p)) →
  calculate_player_score p d = None.
Proof.
  intros H. unfold calculate_player_score.
  destruct (form p) as [[]|], (points_per_game p) as [[]|]; simpl in *; tauto.
Qed.

(** C8 (as stated, refuted): on a player whose [form] is a non-numeric string
    [calculate_player_score] raises instead of returning the formula's value
    with [form] read as [0.0]. *)
Lemma calculate_player_score_bad_form_raises :
  calculate_player_score bad_form_player 3 = None ∧
  ¬ (∃ s, calculate_player_score bad_form_player 3 = Some s
          ∧ (s == score_spec bad_form_player 3)%Q).
Proof. split; [reflexivity | intros (s & H & _); discriminate H]. Qed.

(** C8 (amended): for every player whose [form] and [points_per_game] are each
    absent or numeric, and every difficulty value, [calculate_player_score]
    returns [(0.6 * form + 0.4 * points_per_game) * modifier], an absent entry
    counting as [0.0]; in particular it does not raise. *)
Theorem calculate_player_score_formula (p : player) (d : Z) :
  numeric_or_absent (form p) →
  numeric_or_absent (points_per_game p) →
  ∃ s, calculate_player_score p d = Some s ∧ (s == score_spec p d)%Q.
Proof.
  intros Hf Hg. unfold calculate_player_score, score_spec.
  destruct (form p) as [[f| |]|], (points_per_game p) as [[g| |]|];
    simpl in *; try tauto; eexists; (split; [reflexivity | ring]).
Qed.

Lemma calculate_player_score_formula_witness :
  ∃ s, calculate_player_score keeper_A 1 = Some s ∧ (s == score_spec keeper_A 1)%Q.
Proof. apply (calculate_player_score_formula keeper_A 1); exact I. Defined.

Lemma difficulty_modifier_decreasing (d d' : Z) :
  1 ≤ d → d < d' → d' ≤ 5 → (difficulty_modifier d' < difficulty_modifier d)%Q.
Proof.
  intros H1 H2 H3.
  assert (Hd : d = 1 ∨ d = 2 ∨ d = 3 ∨ d = 4) by lia.
  assert (Hd' : d' = 2 ∨ d' = 3 ∨ d' = 4 ∨ d' = 5) by lia.
  destruct Hd as [->|[->|[->| ->]]], Hd' as [->|[->|[->| ->]]];
    first [lia | reflexivity].
Qed.

(** C7 (as stated, refuted): for a player with form 0 and points per game 0
    the score is the same at difficulty 1 and at difficulty 2, so it does not
    strictly decrease. *)
Lemma score_not_strictly_decreasing_at_zero :
  ∃ s1 s2, calculate_player_score idle_player 1 = Some s1 ∧
           calculate_player_score idle_player 2 = Some s2 ∧
           ¬ (s2 < s1)%Q.
Proof.
  eexists _, _. split; [reflexivity|]. split; [reflexivity|].
  apply Qle_not_lt. vm_compute. discriminate.
Qed.

(** C7 (amended): [calculate_player_score] is deterministic; at a fixed
    difficulty it is monotonically non-decreasing in form and in points per
    game; and for a player whose base score [0.6 * form + 0.4 * points_per_game]
    is positive it strictly decreases as the difficulty goes 1, 2, 3, 4, 5. *)
Theorem calculate_player_score_monotone :
  (∀ p d s s', calculate_player_score p d = Some s →
               calculate_player_score p d = Some s' → s = s') ∧
  (∀ p p' d s s',
     calculate_player_score p d = Some s →
     calculate_player_score p' d = Some s' →
     (coerce (form p) <= coerce (form p'))%Q →
     (coerce (points_per_game p) <= coerce (points_per_game p'))%Q →
     (s <= s')%Q) ∧
  (∀ p d d' s s',
     calculate_player_score p d = Some s →
     calculate_player_score p d' = Some s' →
     (0 < (6 # 10) * coerce (form p) + (4 # 10) * coerce (points_per_game p))%Q →
     1 ≤ d → d < d' → d' ≤ 5 →
     (s' < s)%Q).
Proof.
  split; [|split].
  - congruence.
  - intros p p' d s s' ->%calculate_player_score_base ->%calculate_player_score_base Hf Hg.
    apply Qmult_le_compat_r; [|apply Qlt_le_weak, difficulty_modifier_pos].
    unfold base_score_spec. lra.
  - intros p d d' s s' ->%calculate_player_score_base ->%calculate_player_score_base
      Hpos H1 H2 H3.
    rewrite <- base_score_spec_formula in Hpos.
    apply Qmult_lt_l; [done|]. by apply difficulty_modifier_decreasing.
Qed.

Lemma calculate_player_score_monotone_witness :
  (∃ s s', calculate_player_score idle_player 3 = Some s ∧
           calculate_player_score keeper_A 3 = Some s' ∧ (s <= s')%Q) ∧
  (∃ s s', calculate_player_score keeper_A 1 = Some s ∧
           calculate_player_score keeper_A 5 = Some s' ∧ (s' < s)%Q).
Proof.
  destruct calculate_player_score_monotone as (_ & Hmono & Hdecr).
  split; eexists _, _; (split; [reflexivity|]); (split; [reflexivity|]).
  - apply (Hmono idle_player keeper_A 3); [reflexivity | reflexivity | | ];
      vm_compute; discriminate.
  - apply (Hdecr keeper_A 1 5); [reflexivity | reflexivity | reflexivity | lia | lia | lia].
Defined.

(** ** rate_team *)

Lemma mapM_cons_Some {A B} (f : A → option B) (x : A) (l : list A) (ys : list B) :
  mapM f (x :: l) = Some ys ↔ ∃ y k, f x = Some y ∧ mapM f l = Some k ∧ ys = y :: k.
Proof.
  rewrite mapM_Some. split.
  - intros H. inversion H as [|? y ? k Hy Hk]; subst.
    exists y, k. by rewrite mapM_Some.
  - intros (y & k & Hy & Hk & ->). constructor; [done|]. by apply mapM_Some.
Qed.

(** The accumulating loop computes the captain-weighted sum, and raises
    exactly when one of the scores does. *)
Lemma rate_loop_spec (captain_id : Z) (l : list (player * Z)) (acc : Q) :
  match mapM (weighted_score captain_id) l with
  | Some ws => ∃ t, rate_loop captain_id acc l = Some t ∧ (t == acc + Qsum ws)%Q
  | None => rate_loop captain_id acc l = None
  end.
Proof.
  revert acc. induction l as [|pd l IH]; intros acc.
  - simpl. exists acc. split; [done | simpl; ring].
  - change (mapM (weighted_score captain_id) (pd :: l))
      with (y ← weighted_score captain_id pd;
            k ← mapM (weighted_score captain_id) l; Some (y :: k)).
    simpl. unfold rate_step, weighted_score.
    destruct (calculate_player_score pd.1 pd.2) as [s|]; simpl; [|done].
    destruct (decide (player_id pd.1 = captain_id)); simpl.
    + specialize (IH (acc + s * 2)%Q).
      destruct (mapM _ l) as [ws|]; simpl; [|done].
      destruct IH as (t & -> & Ht). exists t. split; [done|]. rewrite Ht. simpl. ring.
    + specialize (IH (acc + s)%Q).
      destruct (mapM _ l) as [ws|]; simpl; [|done].
      destruct IH as (t & -> & Ht). exists t. split; [done|]. rewrite Ht. simpl. ring.
Qed.

Lemma rate_team_eq_spec (l : list (player * Z)) (captain_id : Z) :
  rate_team l captain_id = rate_team_spec l captain_id.
Proof.
  destruct l as [|pd l]; [done|].
  unfold rate_team, rate_team_spec.
  pose proof (rate_loop_spec captain_id (pd :: l) 0) as H.
  destruct (mapM _ (pd :: l)) as [ws|]; [|by rewrite H].
  destruct H as (t & -> & Ht). simpl. f_equal. apply py_round_comp.
  rewrite py_min_Qmin, Ht.
  apply Q.min_compat; [reflexivity|]. unfold max_possible_score. field.
Qed.

(** The weights are the scores, some of them doubled. *)
Lemma weighted_of_scores (captain_id : Z) (l : list (player * Z)) (ss : list Q) :
  mapM score_pair l = Some ss →
  ∃ ws, mapM (weighted_score captain_id) l = Some ws ∧
        Forall2 (λ s w, w = s ∨ w = (2 * s)%Q) ss ws.
Proof.
  revert ss. induction l as [|pd l IH]; intros ss.
  - intros [= <-]. by exists [].
  - intros (s & k & Hs & Hk & ->)%mapM_cons_Some.
    destruct (IH _ Hk) as (ws & Hws & HF).
    unfold score_pair in Hs.
    exists ((if decide (player_id pd.1 = captain_id) then 2 * s else s)%Q :: ws). split.
    + apply mapM_cons_Some. eexists _, ws. split; [|done].
      unfold weighted_score. by rewrite Hs.
    + constructor; [|done]. destruct (decide _); auto.
Qed.





(** ** The stable sort *)

Section StableSortFacts.
Context {A : Type} (before : A → A → bool).

Lemma insert_stable_Permutation (x : A) (l : list A) :
  insert_stable before x l ≡ₚ x :: l.
Proof.
  induction l as [|y ys IH]; simpl; [done|].
  destruct (before y x); [|done]. rewrite IH. apply Permutation_swap.
Qed.

Lemma sort_stable_Permutation (l : list A) : sort_stable before l ≡ₚ l.
Proof.
  induction l as [|x l IH]; simpl; [done|].
  rewrite insert_stable_Permutation. by constructor.
Qed.

Lemma sort_stable_length (l : list A) : length (sort_stable before l) = length l.
Proof. apply Permutation_length, sort_stable_Permutation. Qed.

Lemma sort_stable_nil_inv (l : list A) : sort_stable before l = [] → l = [].
Proof.
  intros H. apply length_zero_iff_nil. by rewrite <- sort_stable_length, H.
Qed.

End StableSortFacts.

Section SortByKey.
Context {A : Type} (key : A → Q).

Lemma insert_asc_Sorted (x : A) (l : list A) :
  Sorted (key_le key) l → Sorted (key_le key) (insert_stable (λ y x, Qltb (key y) (key x)) x l).
Proof.
  induction 1 as [|y ys Hys IH Hhd]; simpl; [by repeat constructor|].
  destruct (Qltb (key y) (key x)) eqn:E.
  - apply Qltb_lt in E. constructor; [done|].
    destruct Hhd as [|z zs Hz]; simpl.
    + constructor. by apply Qlt_le_weak.
    + destruct (Qltb (key z) (key x)); constructor; [done | by apply Qlt_le_weak].
  - apply Qltb_ge in E. constructor; [by constructor | by constructor].
Qed.

Lemma sort_asc_Sorted (l : list A) : Sorted (key_le key) (sort_asc key l).
Proof.
  unfold sort_asc. induction l as [|x l IH]; simpl; [constructor|].
  by apply insert_asc_Sorted.
Qed.

(** Stability on sorted input: an ascending list is left as it is. *)
Lemma sort_asc_sorted_id (l : list A) : Sorted (key_le key) l → sort_asc key l = l.
Proof.
  unfold sort_asc. induction 1 as [|x l Hl IH Hhd]; simpl; [done|].
  rewrite IH. destruct Hhd as [|y ys Hy]; simpl; [done|].
  unfold key_le in Hy. apply Qltb_ge in Hy. by rewrite Hy.
Qed.

(** The head of a descending stable sort is the first element of maximal
    key: everything in front of it is strictly smaller, everything behind it
    is at most as large. *)
Lemma sort_desc_head (l : list A) (c : A) (rest : list A) :
  sort_desc key l = c :: rest →
  ∃ l1 l2, l = l1 ++ c :: l2 ∧
           Forall (λ x, key x < key c)%Q l1 ∧
           Forall (λ x, key x <= key c)%Q l2.
Proof.
  unfold sort_desc. revert c rest. induction l as [|x l IH]; intros c rest; simpl; [done|].
  destruct (sort_stable _ l) as [|y ys] eqn:Hs; simpl.
  - apply sort_stable_nil_inv in Hs as ->. intros [= <- <-]. by exists [], [].
  - destruct (IH y ys eq_refl) as (l1 & l2 & -> & H1 & H2).
    destruct (Qltb (key x) (key y)) eqn:E.
    + apply Qltb_lt in E. intros [= <- <-].
      exists (x :: l1), l2. split; [done|]. split; [by constructor | done].
    + apply Qltb_ge in E. intros [= <- <-].
      exists [], (l1 ++ y :: l2). split; [done|]. split; [constructor|].
      apply Forall_app. split.
      * eapply Forall_impl; [exact H1|]. simpl. intros z Hz.
        apply Qlt_le_weak. by eapply Qlt_le_trans.
      * constructor; [done|].
        eapply Forall_impl; [exact H2|]. simpl. intros z Hz. by eapply Qle_trans.
Qed.

End SortByKey.

(** ** Sorting a list by a key that is computed first *)

Section Decorated.
Context {A : Type} (f : A → option Q).

Lemma zip_keys (l : list A) (keys : list Q) :
  mapM f l = Some keys →
  Forall (λ kx : Q * A, f kx.2 = Some kx.1) (zip keys l) ∧
  (zip keys l).*2 = l ∧ (zip keys l).*1 = keys.
Proof.
  rewrite mapM_Some. induction 1 as [|x k l keys Hx _ (IH1 & IH2 & IH3)]; csimpl; [done|].
  split; [by constructor|]. by rewrite IH2, IH3.
Qed.

Lemma mapM_decorated (dl : list (Q * A)) :
  Forall (λ kx : Q * A, f kx.2 = Some kx.1) dl → mapM f (dl.*2) = Some (dl.*1).
Proof.
  intros H. apply mapM_Some. induction H; simpl; by constructor.
Qed.

Lemma Sorted_keys (dl : list (Q * A)) :
  Sorted (key_le fst) dl ↔ Sorted Qle (dl.*1).
Proof.
  induction dl as [|x dl IH]; simpl; [split; constructor|].
  split; intros H; inversion H as [|? ? Hs Hhd]; subst; (constructor; [by apply IH|]);
    destruct dl; simpl in *; constructor; by inversion Hhd.
Qed.

End Decorated.

(** ** suggest_replacements: what happens to the argument list *)

(** Entries decorated with the score of their second component are
    determined by those components. *)
Lemma zip_unique (dl dl' : list (Q * (player * Z))) :
  dl ≡ₚ dl' →
  Forall (λ kx : Q * (player * Z), score_pair kx.2 = Some kx.1) dl' →
  dl.*2 = dl'.*2 → dl = dl'.
Proof.
  intros HP HF'.
  assert (HF : Forall (λ kx : Q * (player * Z), score_pair kx.2 = Some kx.1) dl)
    by (by rewrite HP).
  clear HP. revert dl' HF'.
  induction dl as [|[k x] dl IH]; intros [|[k' x'] dl'] HF' Heq; try done.
  csimpl in *. injection Heq as <- Heq.
  inversion HF as [|? ? Hk HF1]; subst. inversion HF' as [|? ? Hk' HF1']; subst.
  simpl in *. rewrite Hk in Hk'. injection Hk' as <-. f_equal. by apply IH.
Qed.

Lemma sort_team_by_score_spec (team team' : list (player * Z)) :
  sort_team_by_score team = Some team' →
  team' ≡ₚ team ∧
  (∃ keys', mapM score_pair team' = Some keys' ∧ Sorted Qle keys') ∧
  (∀ keys, mapM score_pair team = Some keys → (team' = team ↔ Sorted Qle keys)).
Proof.
  unfold sort_team_by_score.
  destruct (mapM score_pair team) as [keys|] eqn:Hk; simpl; [|done].
  intros [= <-]. destruct (zip_keys _ _ _ Hk) as (HF & H2 & H1).
  pose proof (sort_stable_Permutation
    (λ y x : Q * (player * Z), Qltb y.1 x.1) (zip keys team)) as HP.
  fold (sort_asc fst (zip keys team)) in HP.
  split; [|split].
  - rewrite <- H2 at 2. by apply fmap_Permutation.
  - exists ((sort_asc fst (zip keys team)).*1). split.
    + apply mapM_decorated. by rewrite HP.
    + apply Sorted_keys, sort_asc_Sorted.
  - intros ? [= <-]. split.
    + intros Heq. rewrite <- H1. apply Sorted_keys.
      rewrite <- H2 in Heq at 2.
      assert (Hz : sort_asc fst (zip keys team) = zip keys team).
      { apply (zip_unique _ _ HP HF Heq). }
      rewrite <- Hz. apply sort_asc_Sorted.
    + intros Hs. rewrite sort_asc_sorted_id; [done|].
      apply Sorted_keys. by rewrite H1.
Qed.

Lemma suggest_replacements_inv team pool fixtures gw team' suggestions :
  suggest_replacements team pool fixtures gw = Some (team', suggestions) →
  (team = [] ∧ team' = [] ∧ suggestions = []) ∨
  (sort_team_by_score team = Some team' ∧
   replacements_loop (list_to_set ((λ x : player * Z, player_id x.1) <$> team'))
     pool fixtures gw team' = Some suggestions).
Proof.
  unfold suggest_replacements. destruct team as [|pd team].
  - intros [= <- <-]. by left.
  - destruct (sort_team_by_score (pd :: team)) as [ts|] eqn:Hs; simpl; [|done].
    destruct (replacements_loop _ _ _ _ ts) as [ss|] eqn:Hl; simpl; [|done].
    intros [= <- <-]. by right.
Qed.

(** ** suggest_replacements: the suggestions *)

Section Candidates.
Context (ids : gset Z) (fixtures : list fixture) (gw : option Z).
Context (price pos : Z) (sP : Q).

Local Abbreviation is_candidate := (is_candidate ids fixtures gw price pos sP).

Lemma find_candidates_cons (p : player) (rest : list player) (cands : list (player * Q)) :
  find_candidates ids fixtures gw price pos sP (p :: rest) = Some cands →
  ∃ cands', find_candidates ids fixtures gw price pos sP rest = Some cands' ∧
    ((∃ sp, is_candidate p sp ∧ cands = (p, sp) :: cands') ∨
     ((∀ sp, ¬ is_candidate p sp) ∧ cands = cands')).
Proof.
  unfold is_candidate, candidate_score. simpl. intros H.
  destruct (decide (element_type p = pos ∧ player_id p ∉ ids)) as [[Hpos Hid]|Hn].
  - destruct (calculate_player_score p _) as [sp|] eqn:Hsp; simpl in H; [|done].
    destruct (find_candidates _ _ _ _ _ _ rest) as [cands'|]; simpl in H; [|done].
    exists cands'. split; [done|].
    destruct (bool_decide (now_cost p ≤ price)) eqn:Hc; simpl in H.
    + destruct (Qltb sP sp) eqn:Hlt; injection H as <-.
      * left. exists sp. apply bool_decide_eq_true in Hc. apply Qltb_lt in Hlt. done.
      * right. split; [|done]. intros sp' (_ & _ & _ & [= <-] & Hlt').
        apply Qltb_ge in Hlt. by apply Qlt_not_le in Hlt'.
    + injection H as <-. right. split; [|done]. intros sp' (_ & _ & Hle & _).
      apply bool_decide_eq_false in Hc. done.
  - exists cands. split; [done|]. right. split; [|done].
    intros sp (? & ? & _). apply Hn. done.
Qed.

Lemma find_candidates_complete (pool : list player) (cands : list (player * Q)) :
  find_candidates ids fixtures gw price pos sP pool = Some cands →
  ∀ c sc, c ∈ pool → is_candidate c sc → (c, sc) ∈ cands.
Proof.
  revert cands. induction pool as [|p rest IH]; intros cands H c sc Hin Hc.
  - by apply elem_of_nil in Hin.
  - apply find_candidates_cons in H as (cands' & Hrest & Hp).
    apply elem_of_cons in Hin as [-> | Hin].
    + destruct Hp as [(sp & Hsp & ->) | (Hno & _)]; [|by destruct (Hno sc)].
      destruct Hc as (_ & _ & _ & Hs & _), Hsp as (_ & _ & _ & Hs' & _).
      rewrite Hs in Hs'. injection Hs' as <-. apply elem_of_cons; by left.
    + specialize (IH _ Hrest c sc Hin Hc).
      destruct Hp as [(sp & _ & ->) | (_ & ->)]; [apply elem_of_cons; by right | done].
Qed.

(** A position in the candidate list corresponds to a position in the pool:
    qualifying players in front of it in the pool are in front of it in the
    list, and likewise behind it. *)
Lemma find_candidates_split (pool : list player) (cands k1 k2 : list (player * Q))
    (C : player) (sC : Q) :
  find_candidates ids fixtures gw price pos sP pool = Some cands →
  cands = k1 ++ (C, sC) :: k2 →
  ∃ l1 l2, pool = l1 ++ C :: l2 ∧ is_candidate C sC ∧
    (∀ c sc, c ∈ l1 → is_candidate c sc → (c, sc) ∈ k1) ∧
    (∀ c sc, c ∈ l2 → is_candidate c sc → (c, sc) ∈ k2).
Proof.
  revert cands k1. induction pool as [|p rest IH]; intros cands k1 H Hk.
  - injection H as <-. by destruct k1.
  - apply find_candidates_cons in H as (cands' & Hrest & Hp).
    destruct Hp as [(sp & Hsp & ->) | (Hno & ->)].
    + destruct k1 as [|[p' sp'] k1']; simpl in Hk.
      * injection Hk as <- <- <-. exists [], rest. split; [done|]. split; [done|].
        split; [by intros c sc ?%elem_of_nil|].
        intros c sc Hin Hc. by eapply find_candidates_complete.
      * injection Hk as <- <- ->.
        destruct (IH _ _ Hrest eq_refl) as (l1 & l2 & -> & HC & H1 & H2).
        exists (p :: l1), l2. split; [done|]. split; [done|]. split; [|done].
        intros c sc [-> | Hin]%elem_of_cons Hc.
        -- destruct Hc as (_ & _ & _ & Hs & _), Hsp as (_ & _ & _ & Hs' & _).
           rewrite Hs in Hs'. injection Hs' as <-. apply elem_of_cons; by left.
        -- apply elem_of_cons. right. by apply H1.
    + destruct (IH _ _ Hrest Hk) as (l1 & l2 & -> & HC & H1 & H2).
      exists (p :: l1), l2. split; [done|]. split; [done|]. split; [|done].
      intros c sc [-> | Hin]%elem_of_cons Hc; [by destruct (Hno sc) | by apply H1].
Qed.

(** The candidate picked for the owned player is the first best one of the pool. *)
Lemma best_candidate_spec (pool : list player) (cands rest : list (player * Q))
    (C : player) (sC : Q) :
  find_candidates ids fixtures gw price pos sP pool = Some cands →
  sort_desc snd cands = (C, sC) :: rest →
  ∃ l1 l2, pool = l1 ++ C :: l2 ∧ is_candidate C sC ∧
    (∀ c sc, c ∈ l1 → is_candidate c sc → (sc < sC)%Q) ∧
    (∀ c sc, c ∈ l2 → is_candidate c sc → (sc <= sC)%Q).
Proof.
  intros Hf (k1 & k2 & Hk & F1 & F2)%sort_desc_head.
  destruct (find_candidates_split _ _ _ _ _ _ Hf Hk) as (l1 & l2 & -> & HC & H1 & H2).
  exists l1, l2. split; [done|]. split; [done|]. split.
  - intros c sc Hin Hc. rewrite Forall_forall in F1. apply (F1 _ (H1 _ _ Hin Hc)).
  - intros c sc Hin Hc. rewrite Forall_forall in F2. apply (F2 _ (H2 _ _ Hin Hc)).
Qed.

End Candidates.

Lemma replacement_for_Some ids pool fixtures gw (pd : player * Z) (s : suggestion) :
  replacement_for ids pool fixtures gw pd = Some (Some s) →
  ∃ sP C sC l1 l2,
    calculate_player_score pd.1 pd.2 = Some sP ∧
    sg_out s = web_name pd.1 ∧ in_player_object s = C ∧ sg_in s = web_name C ∧
    score_gain s = (sC - sP)%Q ∧
    pool = l1 ++ C :: l2 ∧
    is_candidate ids fixtures gw (now_cost pd.1) (element_type pd.1) sP C sC ∧
    (∀ c sc, c ∈ l1 →
       is_candidate ids fixtures gw (now_cost pd.1) (element_type pd.1) sP c sc → (sc < sC)%Q) ∧
    (∀ c sc, c ∈ l2 →
       is_candidate ids fixtures gw (now_cost pd.1) (element_type pd.1) sP c sc → (sc <= sC)%Q).
Proof.
  unfold replacement_for. cbv zeta.
  destruct (calculate_player_score pd.1 pd.2) as [sP|]; simpl; [|done].
  destruct (find_candidates _ _ _ _ _ _ pool) as [cands|] eqn:Hf; simpl; [|done].
  destruct cands as [|c0 cands0]; [done|].
  destruct (sort_desc snd (c0 :: cands0)) as [|[C sC] rest] eqn:Hs; [done|].
  intros [= <-]. simpl.
  destruct (best_candidate_spec _ _ _ _ _ _ _ _ _ _ _ Hf Hs) as (l1 & l2 & Hp & HC & H1 & H2).
  by exists sP, C, sC, l1, l2.
Qed.

Lemma replacements_loop_elem ids pool fixtures gw team suggestions (s : suggestion) :
  replacements_loop ids pool fixtures gw team = Some suggestions →
  s ∈ suggestions →
  ∃ pd, pd ∈ team ∧ replacement_for ids pool fixtures gw pd = Some (Some s).
Proof.
  revert suggestions. induction team as [|pd team IH]; intros suggestions; simpl.
  - intros [= <-] Hin. by apply elem_of_nil in Hin.
  - destruct (replacement_for ids pool fixtures gw pd) as [o|] eqn:Hr; simpl; [|done].
    destruct (replacements_loop ids pool fixtures gw team) as [ss|]; simpl; [|done].
    intros [= <-] Hin.
    assert (Hcase : o = Some s ∨ s ∈ ss).
    { destruct o as [x|]; [|by right]. apply elem_of_cons in Hin as [->|]; auto. }
    destruct Hcase as [-> | Hss].
    + exists pd. split; [apply elem_of_cons; by left | done].
    + destruct (IH _ eq_refl Hss) as (pd' & Hin' & Hr').
      exists pd'. split; [apply elem_of_cons; by right | done].
Qed.

(** Of two equally good candidates the one met first in the pool is chosen,
    and a better but dearer one is passed over. *)
Example suggest_replacements_tie_break :
  ∃ team' s,
    suggest_replacements [(keeper_A, 3); (idle_player, 3)] small_pool [] None
      = Some (team', [s]) ∧
    sg_out s = "Idle" ∧ in_player_object s = defender_B.
Proof. eexists _, _. split; [reflexivity|]. split; reflexivity. Qed.

(** ** suggest_chips *)







Lemma wildcard_chip_spec other_suggestions used_chips :
  ∃ b : bool,
    wildcard_chip other_suggestions used_chips = (if b then [Wildcard] else []) ∧
    (b = true ↔ chip_used used_chips Wildcard = false ∧
                (5 ≤ length other_suggestions)%nat).
Proof.
  eexists. split; [reflexivity|].
  by rewrite andb_true_iff, negb_true_iff, bool_decide_eq_true.
Qed.

(** The specification's scenarios: a bench scoring 5.0 + 4.0 + 3.0 + 4.0 = 16.0
    triggers the Bench Boost, and a used wildcard is not recommended although
    there are six other suggestions. *)
Example suggest_chips_scenarios :
  suggest_chips [(star_player, 3)] bench4 [] ∅ = Some [BenchBoost] ∧
  suggest_chips [(star_player, 3)] [] six_suggestions {[ "wildcard" := true ]} = Some [] ∧
  suggest_chips [(star_player, 3)] [] six_suggestions ∅ = Some [Wildcard].
Proof. repeat split; vm_compute; reflexivity. Qed.

(** ** The wildcard squad *)

Lemma Qsum_app (xs ys : list Q) : (Qsum (xs ++ ys) == Qsum xs + Qsum ys)%Q.
Proof. induction xs as [|x xs IH]; simpl; [ring | rewrite IH; ring]. Qed.

Lemma total_price_snoc (squad : list scored) (p : scored) :
  (total_price (squad ++ [p]) == total_price squad + price_of (sp_player p))%Q.
Proof. unfold total_price. rewrite fmap_app, Qsum_app. simpl. ring. Qed.

Lemma count_pos_snoc (pos : Z) (squad : list scored) (p : scored) :
  count_pos pos (squad ++ [p])
  = (count_pos pos squad + (if decide (element_type (sp_player p) = pos) then 1 else 0))%nat.
Proof.
  unfold count_pos. rewrite filter_app, length_app. f_equal.
  destruct (decide (element_type (sp_player p) = pos)) as [H|H].
  - by rewrite filter_cons_True.
  - by rewrite filter_cons_False.
Qed.

Lemma count_team_snoc (t : Z) (squad : list scored) (p : scored) :
  count_team t (squad ++ [p])
  = (count_team t squad + (if decide (team (sp_player p) = t) then 1 else 0))%nat.
Proof.
  unfold count_team. rewrite filter_app, length_app. f_equal.
  destruct (decide (team (sp_player p) = t)) as [H|H].
  - by rewrite filter_cons_True.
  - by rewrite filter_cons_False.
Qed.

Lemma wc_inv_init : wc_inv wc_init.
Proof.
  unfold wc_inv. simpl. split; [done|]. split; [reflexivity|].
  split; [|split; [intros; apply Nat.le_0_l|]].
  - intros pos.
    change ({[1 := 0%nat; 2 := 0%nat; 3 := 0%nat; 4 := 0%nat]} : gmap Z nat)
      with ((λ _ : nat, 0%nat) <$> pos_limits).
    by rewrite lookup_fmap.
  - split; [intros t; by rewrite lookup_empty|]. split; [intros; apply Nat.le_0_l | constructor].
Qed.

(** What one iteration does: it leaves the state alone or admits the player. *)
Lemma wc_step_cases (st st' : wc_state) (p : scored) :
  wc_step st p = Some st' →
  st' = st ∨
  ∃ count limit,
    pos_counts st !! element_type (sp_player p) = Some count ∧
    pos_limits !! element_type (sp_player p) = Some limit ∧
    (count < limit)%nat ∧
    (default 0 (team_counts st !! team (sp_player p)) < team_limit)%nat ∧
    (price_of (sp_player p) <= budget st)%Q ∧
    st' = {| wildcard_squad := wildcard_squad st ++ [p];
             budget := (budget st - price_of (sp_player p))%Q;
             pos_counts := <[ element_type (sp_player p) := (count + 1)%nat ]> (pos_counts st);
             team_counts := <[ team (sp_player p) :=
                                (default 0 (team_counts st !! team (sp_player p)) + 1)%nat ]>
                              (team_counts st) |}.
Proof.
  unfold wc_step. cbv zeta.
  destruct (decide (team_limit ≤ _)%nat) as [|Hteam]; [intros [= <-]; by left|].
  destruct (pos_counts st !! _) as [count|] eqn:Hc; simpl; [|done].
  destruct (pos_limits !! _) as [limit|] eqn:Hl; simpl; [|done].
  destruct (bool_decide (count < limit)%nat) eqn:Hlt; simpl; [|intros [= <-]; by left].
  destruct (Qle_bool _ _) eqn:Hb; [|intros [= <-]; by left].
  intros [= <-]. right. exists count, limit.
  apply bool_decide_eq_true in Hlt. apply Qle_bool_iff in Hb.
  repeat split; try done. lia.
Qed.

Lemma wc_step_inv (st st' : wc_state) (p : scored) :
  wc_inv st → wc_step st p = Some st' → wc_inv st'.
Proof.
  intros (Hb0 & Hb & Hpc & Hpl & Htc & Htl & Hpos) Hstep.
  apply wc_step_cases in Hstep
    as [-> | (count & limit & Hc & Hl & Hlt & Hteam & Hprice & ->)]; [done|].
  assert (Hvalid : is_Some (pos_limits !! element_type (sp_player p))) by (by rewrite Hl).
  pose proof (count_pos_snoc) as Hcp. pose proof (count_team_snoc) as Hct.
  specialize (λ x, Hcp x (wildcard_squad st) p).
  specialize (λ x, Hct x (wildcard_squad st) p).
  revert Hc Hl Hteam Hcp Hct.
  generalize (element_type (sp_player p)) (team (sp_player p)).
  intros pos tm Hc Hl Hteam Hcp Hct.
  assert (Hcount : count = count_pos pos (wildcard_squad st)).
  { specialize (Hpc pos). rewrite Hc, Hl in Hpc. simpl in Hpc. congruence. }
  unfold wc_inv. simpl. split; [|split; [|split; [|split; [|split; [|split]]]]].
  - revert Hprice. generalize (price_of (sp_player p)) (budget st). intros; lra.
  - rewrite total_price_snoc, Hb. ring.
  - intros pos'. rewrite Hcp.
    destruct (decide (pos = pos')) as [<-|Hne].
    + rewrite lookup_insert_eq, Hl. simpl. by rewrite Hcount.
    + rewrite lookup_insert_ne by done. rewrite Hpc, Nat.add_0_r. done.
  - intros pos'. rewrite Hcp.
    destruct (decide (pos = pos')) as [<-|Hne].
    + rewrite Hl. simpl. lia.
    + rewrite Nat.add_0_r. apply Hpl.
  - intros t. rewrite Hct.
    destruct (decide (tm = t)) as [<-|Hne].
    + rewrite lookup_insert_eq. simpl. by rewrite Htc.
    + rewrite lookup_insert_ne by done. rewrite Htc. lia.
  - intros t. rewrite Hct.
    destruct (decide (tm = t)) as [<-|Hne].
    + rewrite <- Htc. lia.
    + rewrite Nat.add_0_r. apply Htl.
  - apply Forall_app. split; [done|]. constructor; [|constructor]. done.
Qed.

Lemma wc_loop_inv (l : list scored) (st st' : wc_state) :
  wc_inv st → wc_loop st l = Some st' → wc_inv st'.
Proof.
  revert st. induction l as [|p l IH]; intros st Hinv; simpl.
  - by intros [= <-].
  - destruct (decide (length (wildcard_squad st) = 15%nat)); [by intros [= <-]|].
    destruct (wc_step st p) as [st1|] eqn:Hstep; simpl; [|done].
    apply IH. by eapply wc_step_inv.
Qed.

(** A squad whose positions are all among the four quota keys is counted
    completely by the four position counts. *)
Lemma length_by_position (squad : list scored) :
  Forall (λ p, is_Some (pos_limits !! element_type (sp_player p))) squad →
  length squad
  = (count_pos 1 squad + count_pos 2 squad + count_pos 3 squad + count_pos 4 squad)%nat.
Proof.
  induction 1 as [|p squad Hp _ IH]; [done|].
  change (p :: squad) with ([p] ++ squad).
  unfold count_pos in *. rewrite !filter_app, !length_app, IH.
  assert (Hcase : element_type (sp_player p) = 1 ∨ element_type (sp_player p) = 2 ∨
                  element_type (sp_player p) = 3 ∨ element_type (sp_player p) = 4).
  { destruct (decide (element_type (sp_player p) = 1)); [by left|].
    destruct (decide (element_type (sp_player p) = 2)); [by right; left|].
    destruct (decide (element_type (sp_player p) = 3)); [by right; right; left|].
    destruct (decide (element_type (sp_player p) = 4)); [by right; right; right|].
    exfalso. revert Hp. unfold pos_limits.
    rewrite !lookup_insert_ne, lookup_singleton_ne by done. by intros [? ?]. }
  destruct Hcase as [H|[H|[H|H]]];
    repeat (first [rewrite filter_cons_True by done
                  | rewrite filter_cons_False by (rewrite H; done)]);
    simpl; lia.
Qed.

(** Running the loop on a prefix of the ranking gives a state the full run
    passes through. *)
Lemma wc_loop_app (st : wc_state) (l1 l2 : list scored) :
  wc_loop st (l1 ++ l2) = st1 ← wc_loop st l1; wc_loop st1 l2.
Proof.
  revert st. induction l1 as [|p l1 IH]; intros st; simpl; [done|].
  destruct (decide (length (wildcard_squad st) = 15%nat)) as [Hfull|]; simpl.
  - destruct l2; simpl; [done|]. by rewrite decide_True.
  - destruct (wc_step st p); simpl; [apply IH | done].
Qed.

Lemma wc_inv_limits (st : wc_state) :
  wc_inv st →
  (total_price (wildcard_squad st) <= 100)%Q ∧
  (∀ t, count_team t (wildcard_squad st) ≤ 3)%nat ∧
  (count_pos 1 (wildcard_squad st) ≤ 2)%nat ∧
  (count_pos 2 (wildcard_squad st) ≤ 5)%nat ∧
  (count_pos 3 (wildcard_squad st) ≤ 5)%nat ∧
  (count_pos 4 (wildcard_squad st) ≤ 3)%nat.
Proof.
  intros (Hb0 & Hb & _ & Hpl & _ & Htl & _).
  split; [|split; [exact Htl|]].
  - revert Hb0 Hb. generalize (total_price (wildcard_squad st)) (budget st). intros; lra.
  - repeat split; [apply (Hpl 1) | apply (Hpl 2) | apply (Hpl 3) | apply (Hpl 4)].
Qed.

Lemma build_wildcard_squad_inv pool fixtures gw st :
  build_wildcard_squad pool fixtures gw = Some st → wc_inv st.
Proof.
  unfold build_wildcard_squad.
  destruct (wildcard_ranking pool fixtures gw) as [ranking|]; simpl; [|done].
  apply wc_loop_inv, wc_inv_init.
Qed.

(** C10: whatever squad the wildcard builder ends with, full or not, its
    total price is at most 100.0, no club has more than 3 players in it and
    the position counts do not exceed 2/5/5/3; and after any number of steps
    of the greedy scan the remaining budget is not negative. *)
Theorem wildcard_squad_within_limits pool fixtures gw st :
  build_wildcard_squad pool fixtures gw = Some st →
  (total_price (wildcard_squad st) <= 100)%Q ∧
  (∀ t, count_team t (wildcard_squad st) ≤ 3)%nat ∧
  (count_pos 1 (wildcard_squad st) ≤ 2)%nat ∧
  (count_pos 2 (wildcard_squad st) ≤ 5)%nat ∧
  (count_pos 3 (wildcard_squad st) ≤ 5)%nat ∧
  (count_pos 4 (wildcard_squad st) ≤ 3)%nat ∧
  (∀ ranking k st_k,
     wildcard_ranking pool fixtures gw = Some ranking →
     wc_loop wc_init (take k ranking) = Some st_k →
     (0 <= budget st_k)%Q ∧
     (budget st_k == 100 - total_price (wildcard_squad st_k))%Q).
Proof.
  intros Hbuild.
  destruct (wc_inv_limits st (build_wildcard_squad_inv _ _ _ _ Hbuild))
    as (H1 & H2 & H3 & H4 & H5 & H6).
  do 6 (split; [done|]).
  intros ranking k st_k _ Hk.
  destruct (wc_loop_inv _ _ _ wc_inv_init Hk) as (Hb0 & Hb & _). done.
Qed.

Lemma wildcard_squad_within_limits_witness :
  ∃ st, build_wildcard_squad small_pool [] None = Some st ∧
        length (wildcard_squad st) = 5%nat ∧
        (total_price (wildcard_squad st) <= 100)%Q ∧
        (∀ t, count_team t (wildcard_squad st) ≤ 3)%nat.
Proof.
  destruct (build_wildcard_squad small_pool [] None) as [st|] eqn:H;
    [|vm_compute in H; discriminate H].
  exists st. split; [reflexivity|].
  destruct (wildcard_squad_within_limits small_pool [] None st H) as (H1 & H2 & _).
  split; [|split; [exact H1 | exact H2]].
  vm_compute in H. injection H as <-. reflexivity.
Defined.

(** C1: when the wildcard builder fills all 15 places, the squad's total
    price is at most 100.0, no club has more than 3 players in it, and it
    holds exactly 2 keepers, 5 defenders, 5 midfielders and 3 forwards. *)
Theorem wildcard_full_squad pool fixtures gw st :
  build_wildcard_squad pool fixtures gw = Some st →
  length (wildcard_squad st) = 15%nat →
  (total_price (wildcard_squad st) <= 100)%Q ∧
  (∀ t, count_team t (wildcard_squad st) ≤ 3)%nat ∧
  count_pos 1 (wildcard_squad st) = 2%nat ∧
  count_pos 2 (wildcard_squad st) = 5%nat ∧
  count_pos 3 (wildcard_squad st) = 5%nat ∧
  count_pos 4 (wildcard_squad st) = 3%nat.
Proof.
  intros Hbuild Hlen. pose proof (build_wildcard_squad_inv _ _ _ _ Hbuild) as Hinv.
  destruct (wc_inv_limits st Hinv) as (H1 & H2 & H3 & H4 & H5 & H6).
  destruct Hinv as (_ & _ & _ & _ & _ & _ & Hpos).
  rewrite (length_by_position _ Hpos) in Hlen.
  split; [done|]. split; [done|]. lia.
Qed.

Lemma wildcard_full_squad_witness :
  ∃ st, build_wildcard_squad full_pool [] None = Some st ∧
        (total_price (wildcard_squad st) <= 100)%Q ∧
        (∀ t, count_team t (wildcard_squad st) ≤ 3)%nat ∧
        count_pos 1 (wildcard_squad st) = 2%nat ∧
        count_pos 2 (wildcard_squad st) = 5%nat ∧
        count_pos 3 (wildcard_squad st) = 5%nat ∧
        count_pos 4 (wildcard_squad st) = 3%nat.
Proof.
  destruct (build_wildcard_squad full_pool [] None) as [st|] eqn:H;
    [|vm_compute in H; discriminate H].
  exists st. split; [reflexivity|].
  apply (wildcard_full_squad full_pool [] None st H).
  vm_compute in H. injection H as <-. reflexivity.
Defined.

(** ** Lineup formatting *)

Lemma by_position_length (pos : Z) (squad : list scored) :
  length (by_position pos squad) = count_pos pos squad.
Proof. unfold by_position, sort_desc. by rewrite sort_stable_length. Qed.

Lemma sort_desc_length {A} (key : A → Q) (l : list A) :
  length (sort_desc key l) = length l.
Proof. apply sort_stable_length. Qed.

(** From rank 2 on every member of the XI is a plain starter. *)
Lemma starter_roles_tail (k : nat) (l : list scored) :
  (2 ≤ k)%nat →
  Forall (λ e : player * role, e.2 = Starter)
         (imap (λ i p_data, (sp_player p_data, starter_role (k + i))) l).
Proof.
  revert k. induction l as [|x l IH]; intros k Hk; [constructor|].
  rewrite imap_cons. constructor.
  - simpl. unfold starter_role. rewrite !decide_False by lia. done.
  - erewrite imap_ext; [apply (IH (S k)); lia|].
    intros i y _. simpl. by rewrite Nat.add_succ_r.
Qed.

Lemma count_role_app (r : role) (l1 l2 : list (player * role)) :
  count_role r (l1 ++ l2) = (count_role r l1 + count_role r l2)%nat.
Proof. unfold count_role. by rewrite filter_app, length_app. Qed.

Lemma count_starters_app (l1 l2 : list (player * role)) :
  count_starters (l1 ++ l2) = (count_starters l1 + count_starters l2)%nat.
Proof. unfold count_starters. by rewrite filter_app, length_app. Qed.

Lemma count_role_uniform (r r' : role) (l : list (player * role)) :
  Forall (λ e, e.2 = r') l →
  count_role r l = if decide (r' = r) then length l else 0%nat.
Proof.
  unfold count_role. induction 1 as [|e l He _ IH]; [by destruct (decide _)|].
  destruct (decide (r' = r)) as [<-|Hne].
  - rewrite filter_cons_True by done. simpl. by rewrite IH.
  - rewrite filter_cons_False by congruence. done.
Qed.

Lemma count_starters_uniform (r' : role) (l : list (player * role)) :
  Forall (λ e, e.2 = r') l →
  count_starters l = if decide (r' = Sub) then 0%nat else length l.
Proof.
  unfold count_starters. induction 1 as [|e l He _ IH]; [by destruct (decide _)|].
  destruct (decide (r' = Sub)) as [->|Hne].
  - rewrite filter_cons_False by (intros H; by apply H). done.
  - rewrite filter_cons_True by congruence. simpl. by rewrite IH.
Qed.

(** Role counts of a formatted lineup in terms of the sizes of XI and bench. *)
Lemma assign_roles_counts (starting_xi bench : list scored) :
  let lineup := assign_roles starting_xi bench in
  count_starters lineup = length starting_xi ∧
  count_role Sub lineup = length bench ∧
  count_role Captain lineup = Nat.min 1 (length starting_xi) ∧
  count_role ViceCaptain lineup = Nat.min 1 (length starting_xi - 1).
Proof.
  unfold assign_roles. cbv zeta.
  rewrite count_starters_app, !count_role_app.
  assert (Hbench : Forall (λ e : player * role, e.2 = Sub)
                     ((λ p_data, (sp_player p_data, Sub)) <$> bench)).
  { apply Forall_fmap. by apply Forall_true. }
  rewrite (count_starters_uniform Sub _ Hbench), !(count_role_uniform _ Sub _ Hbench).
  rewrite length_fmap. simpl.
  rewrite <- (sort_desc_length sp_score starting_xi).
  destruct (sort_desc sp_score starting_xi) as [|a [|b rest]]; [done | done |].
  rewrite !imap_cons.
  pose proof (starter_roles_tail 2 rest (le_n 2)) as Htail.
  change (imap ((λ i p_data, (sp_player p_data, starter_role i)) ∘ S ∘ S) rest)
    with (imap (λ i p_data, (sp_player p_data, starter_role (2 + i))) rest).
  set (tl := imap (λ i p_data, (sp_player p_data, starter_role (2 + i))) rest) in *.
  assert (Hlen : length tl = length rest) by apply length_imap.
  change (?x :: ?y :: tl) with ([x] ++ [y] ++ tl).
  rewrite !count_starters_app, !count_role_app.
  rewrite (count_starters_uniform Starter _ Htail), !(count_role_uniform _ Starter _ Htail).
  rewrite Hlen. cbn.
  change (starter_role 0) with Captain. change (starter_role 1) with ViceCaptain.
  repeat case_decide; try congruence; simpl; lia.
Qed.

Lemma wildcard_lineup_counts (squad : list scored) :
  (count_pos 1 squad ≤ 2)%nat →
  (count_pos 1 squad + count_pos 2 squad + count_pos 3 squad + count_pos 4 squad = 15)%nat →
  well_formed_lineup (wildcard_lineup squad).
Proof.
  intros Hg Hsum. unfold wildcard_lineup. cbv zeta.
  match goal with |- well_formed_lineup (assign_roles ?xi ?bench) =>
    pose proof (assign_roles_counts xi bench) as (H1 & H2 & H3 & H4);
    assert (Hxi : length xi = 11%nat ∧ length bench = 4%nat)
  end.
  { repeat (progress rewrite ?length_app, ?length_take, ?length_drop,
                             ?sort_desc_length, ?by_position_length).
    lia. }
  destruct Hxi as [Hxi Hbench]. unfold well_formed_lineup.
  rewrite H1, H2, H3, H4, Hxi, Hbench. done.
Qed.

Lemma ft_lineup_counts (squad : list scored) :
  (1 ≤ count_pos 1 squad ≤ 5)%nat →
  (3 ≤ count_pos 2 squad)%nat → (2 ≤ count_pos 3 squad)%nat → (1 ≤ count_pos 4 squad)%nat →
  (count_pos 1 squad + count_pos 2 squad + count_pos 3 squad + count_pos 4 squad = 15)%nat →
  well_formed_lineup (ft_lineup squad).
Proof.
  intros Hg Hd Hm Hf Hsum. unfold ft_lineup. cbv zeta.
  match goal with |- well_formed_lineup (assign_roles ?xi ?bench) =>
    pose proof (assign_roles_counts xi bench) as (H1 & H2 & H3 & H4);
    assert (Hxi : length xi = 11%nat ∧ length bench = 4%nat)
  end.
  { repeat (progress rewrite ?length_app, ?length_take, ?length_drop,
                             ?sort_desc_length, ?by_position_length).
    lia. }
  destruct Hxi as [Hxi Hbench]. unfold well_formed_lineup.
  rewrite H1, H2, H3, H4, Hxi, Hbench. done.
Qed.

(** A full squad of the wildcard builder is formatted into a well-formed lineup. *)
Lemma suggest_wildcard_team_full pool fixtures gw st :
  build_wildcard_squad pool fixtures gw = Some st →
  length (wildcard_squad st) = 15%nat →
  suggest_wildcard_team pool fixtures gw = Some (wildcard_lineup (wildcard_squad st)) ∧
  well_formed_lineup (wildcard_lineup (wildcard_squad st)).
Proof.
  intros Hbuild Hlen. unfold suggest_wildcard_team. rewrite Hbuild. split; [done|].
  pose proof (build_wildcard_squad_inv _ _ _ _ Hbuild) as Hinv.
  destruct (wc_inv_limits st Hinv) as (_ & _ & Hg & _).
  destruct Hinv as (_ & _ & _ & _ & _ & _ & Hpos).
  rewrite (length_by_position _ Hpos) in Hlen.
  by apply wildcard_lineup_counts.
Qed.

(** C4 (as stated, refuted): a pool of fifteen eligible players priced 10.0
    each lets the wildcard builder afford only ten, and its lineup has 9
    starters and 1 bench entry; and the post-transfer formatter turns a
    fifteen-player squad of shape 3/2/7/3 into 10 starters and 5 bench
    entries. *)
Lemma lineup_not_always_11_4 :
  (length pricey_pool = 15%nat ∧
   ∃ lineup, suggest_wildcard_team pricey_pool [] None = Some lineup ∧
             count_starters lineup = 9%nat ∧ count_role Sub lineup = 1%nat) ∧
  (length odd_squad = 15%nat ∧
   count_starters (ft_lineup odd_squad) = 10%nat ∧
   count_role Sub (ft_lineup odd_squad) = 5%nat ∧
   count_role Sub (wildcard_lineup odd_squad) = 3%nat).
Proof.
  split.
  - split; [reflexivity|]. eexists. split; [vm_compute; reflexivity|].
    split; vm_compute; reflexivity.
  - repeat split; vm_compute; reflexivity.
Qed.

(** C4 (amended): for a pool that holds exactly 15 players in the four
    positions, the wildcard formatter, given at most 2 keepers (as in every
    full squad of the wildcard builder), and the post-transfer formatter,
    given 1 to 5 keepers, at least 3 defenders, 2 midfielders and 1 forward,
    output exactly 11 starters and 4 bench entries, with exactly one Captain
    and exactly one Vice-Captain, both among the starters. *)
Theorem lineup_well_formed (squad : list scored) :
  (count_pos 1 squad + count_pos 2 squad + count_pos 3 squad + count_pos 4 squad = 15)%nat →
  ((count_pos 1 squad ≤ 2)%nat → well_formed_lineup (wildcard_lineup squad)) ∧
  ((1 ≤ count_pos 1 squad ≤ 5)%nat → (3 ≤ count_pos 2 squad)%nat →
   (2 ≤ count_pos 3 squad)%nat → (1 ≤ count_pos 4 squad)%nat →
   well_formed_lineup (ft_lineup squad)).
Proof.
  intros Hsum. split.
  - intros Hg. by apply wildcard_lineup_counts.
  - intros Hg Hd Hm Hf. by apply ft_lineup_counts.
Qed.

Lemma lineup_well_formed_witness :
  well_formed_lineup (wildcard_lineup full_squad) ∧ well_formed_lineup (ft_lineup full_squad).
Proof.
  destruct (lineup_well_formed full_squad eq_refl) as [Hwc Hft].
  split; [apply Hwc | apply Hft]; vm_compute; lia.
Defined.

(** ** The functions return on well-formed data *)

Lemma calculate_player_score_numeric (p : player) (d : Z) :
  numeric_player p →
  calculate_player_score p d = Some (base_score_spec p * difficulty_modifier d)%Q.
Proof.
  intros [Hf Hg]. unfold calculate_player_score, base_score_spec.
  destruct (form p) as [[f| |]|], (points_per_game p) as [[g| |]|]; simpl in *; tauto.
Qed.

Lemma score_pool_total pool fixtures gw :
  Forall numeric_player pool →
  ∃ sp, score_pool pool fixtures gw = Some sp ∧ sp_player <$> sp = pool.
Proof.
  unfold score_pool. induction 1 as [|p pool Hp _ (sp & Hsp & Hpl)]; [by exists []|].
  eexists ({| sp_player := p |} :: sp). split.
  - apply mapM_cons_Some. eexists _, sp. split; [|done].
    by rewrite (calculate_player_score_numeric _ _ Hp).
  - csimpl. by rewrite Hpl.
Qed.

Lemma wc_step_total (st : wc_state) (p : scored) :
  wc_inv st → known_position (sp_player p) → is_Some (wc_step st p).
Proof.
  intros (_ & _ & Hpc & _) [limit Hl]. unfold wc_step. cbv zeta.
  destruct (decide _); [done|].
  rewrite Hpc, Hl. simpl. by destruct (_ && _).
Qed.

Lemma wc_loop_total (l : list scored) (st : wc_state) :
  wc_inv st → Forall (λ p, known_position (sp_player p)) l → is_Some (wc_loop st l).
Proof.
  intros Hinv Hl. revert st Hinv. induction Hl as [|p l Hp _ IH]; intros st Hinv; simpl; [done|].
  destruct (decide _); [done|].
  destruct (wc_step_total st p Hinv Hp) as [st1 Hst1]. rewrite Hst1. simpl.
  apply IH. by eapply wc_step_inv.
Qed.

(** The wildcard builder returns a squad whenever every pool player has
    numeric statistics and one of the four positions. *)
Lemma build_wildcard_squad_total pool fixtures gw :
  Forall numeric_player pool → Forall known_position pool →
  is_Some (build_wildcard_squad pool fixtures gw).
Proof.
  intros Hnum Hpos. unfold build_wildcard_squad, wildcard_ranking.
  destruct (score_pool_total pool fixtures gw Hnum) as (sp & -> & Hsp). simpl.
  apply wc_loop_total; [apply wc_inv_init|].
  unfold sort_desc. rewrite sort_stable_Permutation.
  rewrite <- Hsp, Forall_fmap in Hpos. exact Hpos.
Qed.

Lemma find_candidates_total ids fixtures gw price pos sP pool :
  Forall numeric_player pool →
  is_Some (find_candidates ids fixtures gw price pos sP pool).
Proof.
  induction 1 as [|p pool Hp _ [cands IH]]; simpl; [done|].
  destruct (decide _); [|by rewrite IH].
  rewrite (calculate_player_score_numeric _ _ Hp), IH. simpl. by destruct (_ && _).
Qed.

Lemma replacement_for_total ids pool fixtures gw (pd : player * Z) :
  numeric_player pd.1 → Forall numeric_player pool →
  is_Some (replacement_for ids pool fixtures gw pd).
Proof.
  intros Hp Hpool. unfold replacement_for. cbv zeta.
  rewrite (calculate_player_score_numeric _ _ Hp). simpl.
  destruct (find_candidates_total ids fixtures gw (now_cost pd.1) (element_type pd.1)
              (base_score_spec pd.1 * difficulty_modifier pd.2)%Q pool Hpool) as [cands ->].
  simpl. destruct cands as [|c cands]; [done|].
  destruct (sort_desc snd (c :: cands)) as [|[b sb] rest] eqn:Hs; [|done].
  by apply sort_stable_nil_inv in Hs.
Qed.

Lemma replacements_loop_total ids pool fixtures gw (team : list (player * Z)) :
  Forall (λ pd, numeric_player pd.1) team → Forall numeric_player pool →
  is_Some (replacements_loop ids pool fixtures gw team).
Proof.
  intros Hteam Hpool. induction Hteam as [|pd team Hpd _ [ss IH]]; simpl; [done|].
  destruct (replacement_for_total ids pool fixtures gw pd Hpd Hpool) as [o ->].
  rewrite IH. done.
Qed.

(** The transfer engine returns whenever the statistics of the squad and of
    the pool are numeric. *)
Lemma suggest_replacements_total team pool fixtures gw :
  Forall (λ pd : player * Z, numeric_player pd.1) team → Forall numeric_player pool →
  is_Some (suggest_replacements team pool fixtures gw).
Proof.
  intros Hteam Hpool. unfold suggest_replacements.
  destruct team as [|pd team]; [done|].
  assert (Hkeys : is_Some (mapM score_pair (pd :: team))).
  { apply mapM_is_Some. eapply Forall_impl; [exact Hteam|].
    intros x Hx. unfold score_pair. simpl.
    by rewrite (calculate_player_score_numeric _ _ Hx). }
  destruct (sort_team_by_score (pd :: team)) as [ts|] eqn:Hs; simpl.
  - destruct (sort_team_by_score_spec _ _ Hs) as (Hperm & _).
    rewrite <- Hperm in Hteam.
    destruct (replacements_loop_total
                (list_to_set ((λ x : player * Z, player_id x.1) <$> ts))
                pool fixtures gw ts Hteam Hpool) as [ss ->].
    done.
  - unfold sort_team_by_score in Hs.
    destruct Hkeys as [keys Hkeys]. by rewrite Hkeys in Hs.
Qed.

(** * Further properties of the code *)

(** ** get_player_fixture_difficulty *)

Lemma find_fixture_difficulty_none (t gw : Z) (l : list fixture) :
  Forall (λ fx, ¬ plays_in t gw fx) l → find_fixture_difficulty t gw l = 3.
Proof.
  induction 1 as [|fx l Hfx _ IH]; simpl; [done|].
  unfold plays_in in Hfx. repeat case_decide; tauto.
Qed.

Lemma find_fixture_difficulty_first (t gw : Z) (l1 l2 : list fixture) (fx : fixture) :
  Forall (λ fx, ¬ plays_in t gw fx) l1 → plays_in t gw fx →
  find_fixture_difficulty t gw (l1 ++ fx :: l2)
  = if decide (team_h fx = t) then team_h_difficulty fx else team_a_difficulty fx.
Proof.
  intros Hl1 [Hev Hside]. induction Hl1 as [|fx' l1 Hfx' _ IH]; simpl.
  - rewrite decide_True by done. repeat case_decide; tauto.
  - unfold plays_in in Hfx'. repeat case_decide; tauto.
Qed.

(** X1: when no fixture of the target gameweek involves the club -- in
    particular when the fixture list is empty or the gameweek id is missing or
    0 -- the resolver answers the neutral difficulty 3. *)
Theorem fixture_difficulty_neutral (t : Z) (gameweek_id : option Z) (fixtures : list fixture) :
  (∀ gw, gameweek_id = Some gw → gw ≠ 0 → Forall (λ fx, ¬ plays_in t gw fx) fixtures) →
  get_player_fixture_difficulty t gameweek_id fixtures = 3.
Proof.
  intros H. unfold get_player_fixture_difficulty.
  destruct fixtures as [|fx l]; [done|]. destruct gameweek_id as [gw|]; [|done].
  destruct (decide (gw = 0)) as [->|Hgw]; [done|].
  rewrite (find_fixture_difficulty_none t gw (fx :: l)) by (by apply H).
  by destruct gw.
Qed.

Lemma fixture_difficulty_neutral_witness :
  get_player_fixture_difficulty 5 (Some 7)
    [{| event := Some 7; team_h := 1; team_a := 2;
        team_h_difficulty := 2; team_a_difficulty := 4 |};
     {| event := Some 8; team_h := 5; team_a := 2;
        team_h_difficulty := 2; team_a_difficulty := 4 |}] = 3.
Proof.
  apply fixture_difficulty_neutral. intros gw [= <-] _.
  repeat constructor; unfold plays_in; simpl; intros [? ?]; (congruence || lia).
Defined.

(** X2: otherwise the answer is taken from the first fixture of the target
    gameweek in which the club plays, in list order, and from its home side
    when the club is the home team. *)
Theorem fixture_difficulty_first_match (t gw : Z) (l1 l2 : list fixture) (fx : fixture) :
  gw ≠ 0 →
  Forall (λ fx, ¬ plays_in t gw fx) l1 →
  plays_in t gw fx →
  get_player_fixture_difficulty t (Some gw) (l1 ++ fx :: l2)
  = if decide (team_h fx = t) then team_h_difficulty fx else team_a_difficulty fx.
Proof.
  intros Hgw Hl1 Hfx. unfold get_player_fixture_difficulty.
  rewrite <- (find_fixture_difficulty_first t gw l1 l2 fx Hl1 Hfx).
  destruct (l1 ++ fx :: l2) eqn:E; [by destruct l1|]. by destruct gw.
Qed.

Lemma fixture_difficulty_first_match_witness :
  get_player_fixture_difficulty 2 (Some 7)
    ([{| event := Some 6; team_h := 2; team_a := 3;
         team_h_difficulty := 5; team_a_difficulty := 1 |}]
     ++ {| event := Some 7; team_h := 1; team_a := 2;
           team_h_difficulty := 2; team_a_difficulty := 4 |}
     :: [{| event := Some 7; team_h := 2; team_a := 9;
            team_h_difficulty := 1; team_a_difficulty := 5 |}]) = 4.
Proof.
  apply (fixture_difficulty_first_match 2 7).
  - lia.
  - repeat constructor. unfold plays_in. simpl. intros [? ?]. congruence.
  - unfold plays_in. simpl. split; [done | by right].
Defined.

(** ** calculate_player_score *)

(** X3: a difficulty value outside 1..5 is scored like the neutral difficulty 3. *)
Theorem score_unrecognised_difficulty (p : player) (d : Z) :
  d < 1 ∨ 5 < d → calculate_player_score p d = calculate_player_score p 3.
Proof.
  intros Hd. unfold calculate_player_score.
  assert (Hm : difficulty_modifier d = difficulty_modifier 3).
  { unfold difficulty_modifier. revert Hd.
    destruct d as [|q|q]; [done| |done].
    destruct q as [[[q|q|]|[q|q|]|]|[[q|q|]|[q|q|]|]|]; intros Hd; try done; lia. }
  by rewrite Hm.
Qed.

Lemma score_unrecognised_difficulty_witness :
  calculate_player_score keeper_A 0 = calculate_player_score keeper_A 3 ∧
  calculate_player_score keeper_A 6 = calculate_player_score keeper_A 3.
Proof. split; apply score_unrecognised_difficulty; lia. Defined.

(** ** rate_team *)

Lemma py_round_mono (x y : Q) : (x <= y)%Q → py_round x ≤ py_round y.
Proof.
  intros Hxy. destruct (Z_le_gt_dec (py_round x) (py_round y)) as [|Hgt]; [done|].
  exfalso.
  destruct (py_round_bounds x) as [Hx _]. destruct (py_round_bounds y) as [_ Hy].
  assert (Hz : (inject_Z (py_round y) + 1 <= inject_Z (py_round x))%Q).
  { change 1%Q with (inject_Z 1). rewrite <- inject_Z_plus, <- Zle_Qle. lia. }
  assert (Heq : (x == y)%Q).
  { revert Hx Hy Hz Hxy. generalize (inject_Z (py_round x)) (inject_Z (py_round y)).
    intros; lra. }
  rewrite (py_round_comp _ _ Heq) in Hgt. lia.
Qed.

(** X4: the rating is exactly 100 as soon as the captain-weighted total
    reaches the reference maximum 96. *)
Theorem rate_team_saturates (l : list (player * Z)) (captain_id : Z) (ws : list Q) :
  l ≠ [] →
  mapM (weighted_score captain_id) l = Some ws →
  (96 <= Qsum ws)%Q →
  rate_team l captain_id = Some 100.
Proof.
  intros Hl Hws Hsum. rewrite rate_team_eq_spec. unfold rate_team_spec.
  destruct l; [done|]. rewrite Hws. simpl. f_equal.
  transitivity (py_round (inject_Z 100)); [|apply py_round_Z]. apply py_round_comp.
  apply Q.min_l. change (inject_Z 100) with 100%Q.
  revert Hsum. generalize (Qsum ws). intros q Hq.
  apply Qle_shift_div_l; [done | lra].
Qed.

Lemma rate_team_saturates_witness :
  rate_team (replicate 11 (star_player, 1)) 7 = Some 100.
Proof.
  apply (rate_team_saturates _ _
           (default [] (mapM (weighted_score 7) (replicate 11 (star_player, 1))))).
  - done.
  - reflexivity.
  - vm_compute. discriminate.
Defined.

Lemma weighted_no_captain (c0 : Z) (l : list (player * Z)) (ss : list Q) :
  Forall (λ pd : player * Z, player_id pd.1 ≠ c0) l →
  mapM score_pair l = Some ss → mapM (weighted_score c0) l = Some ss.
Proof.
  intros Hl. revert ss. induction Hl as [|pd l Hpd _ IH]; intros ss; [done|].
  intros (s & k & Hs & Hk & ->)%mapM_cons_Some.
  apply mapM_cons_Some. exists s, k. split; [|by split; [apply IH|]].
  unfold weighted_score. unfold score_pair in Hs. rewrite Hs. simpl.
  by rewrite decide_False.
Qed.

Lemma Qsum_weighted_le (ss ws : list Q) :
  Forall2 (λ s w, w = s ∨ w = (2 * s)%Q) ss ws →
  Forall (λ s, 0 <= s)%Q ss → (Qsum ss <= Qsum ws)%Q.
Proof.
  induction 1 as [|s w ss ws Hw _ IH]; intros Hss; [simpl; lra|].
  inversion Hss as [|? ? Hs Hss']; subst. specialize (IH Hss').
  simpl. destruct Hw as [-> | ->]; lra.
Qed.

(** X5: when no starter's score is negative, naming any captain never gives
    a lower rating than a captain id that matches no starter. *)
Theorem captain_never_lowers_rating (l : list (player * Z)) (c c0 : Z) (ss : list Q) :
  mapM score_pair l = Some ss →
  Forall (λ s, 0 <= s)%Q ss →
  Forall (λ pd : player * Z, player_id pd.1 ≠ c0) l →
  ∃ r0 r, rate_team l c0 = Some r0 ∧ rate_team l c = Some r ∧ r0 ≤ r.
Proof.
  intros Hss Hnn Hc0. rewrite !rate_team_eq_spec. unfold rate_team_spec.
  destruct l as [|pd l]; [by exists 0, 0|].
  rewrite (weighted_no_captain c0 _ _ Hc0 Hss).
  destruct (weighted_of_scores c _ _ Hss) as (ws & -> & HF). simpl.
  eexists _, _. split; [done|]. split; [done|].
  apply py_round_mono, Q.min_le_compat_l.
  pose proof (Qsum_weighted_le _ _ HF Hnn) as Hle.
  revert Hle. generalize (Qsum ss) (Qsum ws). intros a b Hab.
  unfold Qdiv. apply Qmult_le_compat_r; [lra | done].
Qed.

Lemma captain_never_lowers_rating_witness :
  ∃ r0 r, rate_team [(star_player, 3); (keeper_A, 1)] 99 = Some r0 ∧
          rate_team [(star_player, 3); (keeper_A, 1)] 7 = Some r ∧ r0 ≤ r.
Proof.
  apply (captain_never_lowers_rating _ 7 99
           (default [] (mapM score_pair [(star_player, 3); (keeper_A, 1)]))).
  - reflexivity.
  - repeat constructor; vm_compute; discriminate.
  - repeat constructor; simpl; lia.
Defined.

(** ** suggest_replacements: coverage and order *)

Lemma replacements_loop_omap ids pool fixtures gw team suggestions :
  replacements_loop ids pool fixtures gw team = Some suggestions →
  ∃ os, mapM (replacement_for ids pool fixtures gw) team = Some os ∧
        suggestions = omap (λ o, o) os.
Proof.
  revert suggestions. induction team as [|pd team IH]; intros suggestions; simpl.
  - intros [= <-]. by exists [].
  - destruct (replacement_for ids pool fixtures gw pd) as [o|] eqn:Hr; simpl; [|done].
    destruct (replacements_loop ids pool fixtures gw team) as [ss|]; simpl; [|done].
    intros [= <-]. destruct (IH _ eq_refl) as (os & Hos & ->).
    exists (o :: os). split; [by rewrite Hos|].
    by destruct o.
Qed.

Lemma replacement_for_None ids pool fixtures gw (pd : player * Z) :
  replacement_for ids pool fixtures gw pd = Some None →
  ∃ sP, calculate_player_score pd.1 pd.2 = Some sP ∧
        find_candidates ids fixtures gw (now_cost pd.1) (element_type pd.1) sP pool = Some [].
Proof.
  unfold replacement_for. cbv zeta.
  destruct (calculate_player_score pd.1 pd.2) as [sP|]; simpl; [|done].
  destruct (find_candidates _ _ _ _ _ _ pool) as [[|c cands]|] eqn:Hf; [| |done].
  - intros _. by exists sP.
  - cbn [mbind option_bind]. by destruct (sort_desc snd (c :: cands)) as [|[? ?] ?].
Qed.

(** X6: every owned player for whom the pool holds a qualifying candidate
    gets a suggestion, and that suggestion gains at least as much as the
    candidate would. *)
Theorem suggest_replacements_complete team pool fixtures gw team' suggestions
    (P : player) (d : Z) (sP : Q) (c : player) (sc : Q) :
  suggest_replacements team pool fixtures gw = Some (team', suggestions) →
  (P, d) ∈ team →
  calculate_player_score P d = Some sP →
  c ∈ pool →
  qualifies team fixtures gw P sP c sc →
  ∃ s, s ∈ suggestions ∧ sg_out s = web_name P ∧ (sc - sP <= score_gain s)%Q.
Proof.
  intros [(-> & _) | (Hsort & Hloop)]%suggest_replacements_inv HP HsP Hc Hq;
    [by apply elem_of_nil in HP|].
  destruct (sort_team_by_score_spec _ _ Hsort) as (Hperm & _).
  rewrite <- Hperm in HP.
  assert (Hcand : is_candidate
            (list_to_set ((λ x : player * Z, player_id x.1) <$> team'))
            fixtures gw (now_cost P) (element_type P) sP c sc).
  { unfold qualifies in Hq. unfold is_candidate.
    rewrite elem_of_list_to_set, Hperm. tauto. }
  destruct (replacements_loop_omap _ _ _ _ _ _ Hloop) as (os & Hos & ->).
  apply mapM_Some in Hos.
  apply list_elem_of_lookup in HP as [i Hi].
  destruct (Forall2_lookup_l _ _ _ _ _ Hos Hi) as (o & Ho & Hr).
  destruct o as [s|].
  - destruct (replacement_for_Some _ _ _ _ _ _ Hr)
      as (sP' & C & sC & l1 & l2 & HsP' & Hout & _ & _ & Hgain & -> & HC & H1 & H2).
    simpl in *. rewrite HsP in HsP'. injection HsP' as <-.
    exists s. split; [|split; [done|]].
    + apply list_elem_of_omap. exists (Some s). split; [|done].
      apply list_elem_of_lookup. by exists i.
    + rewrite Hgain.
      assert (Hle : (sc <= sC)%Q).
      { apply elem_of_app in Hc as [Hc | [-> | Hc]%elem_of_cons].
        - apply Qlt_le_weak. by apply (H1 c sc).
        - destruct Hcand as (_ & _ & _ & Hs1 & _), HC as (_ & _ & _ & Hs2 & _).
          rewrite Hs1 in Hs2. injection Hs2 as <-. apply Qle_refl.
        - by apply (H2 c sc). }
      lra.
  - destruct (replacement_for_None _ _ _ _ _ Hr) as (sP' & HsP' & Hf).
    simpl in *. rewrite HsP in HsP'. injection HsP' as <-.
    pose proof (find_candidates_complete _ _ _ _ _ _ _ _ Hf c sc Hc Hcand) as Hin.
    by apply elem_of_nil in Hin.
Qed.

Lemma suggest_replacements_complete_witness :
  ∃ s, s ∈ [{| sg_out := "Idle"; sg_in := "B";
               score_gain := (5 * (6 # 10) + 5 * (4 # 10)) * 1 - (0 * (6 # 10) + 0 * (4 # 10)) * 1;
               in_player_object := defender_B |}] ∧
       sg_out s = web_name idle_player ∧
       ((5 * (6 # 10) + 5 * (4 # 10)) * 1 - (0 * (6 # 10) + 0 * (4 # 10)) * 1 <= score_gain s)%Q.
Proof.
  apply (suggest_replacements_complete
           [(keeper_A, 3); (idle_player, 3)] small_pool [] None
           [(idle_player, 3); (keeper_A, 3)] _ idle_player 3 _ defender_C).
  - reflexivity.
  - apply list_elem_of_further, list_elem_of_here.
  - reflexivity.
  - do 4 apply list_elem_of_further. apply list_elem_of_here.
  - unfold qualifies. simpl. split; [done|]. split.
    + rewrite !elem_of_cons, elem_of_nil. intros [?|[?|?]]; done.
    + split; [lia|]. split; [reflexivity|]. vm_compute. reflexivity.
Defined.

Lemma omap_out_sublist ids pool fixtures gw (team : list (player * Z))
    (os : list (option suggestion)) :
  Forall2 (λ pd o, replacement_for ids pool fixtures gw pd = Some o) team os →
  (sg_out <$> omap (λ o, o) os) `sublist_of` ((λ pd : player * Z, web_name pd.1) <$> team) ∧
  Forall (λ s, 0 < score_gain s)%Q (omap (λ o, o) os).
Proof.
  induction 1 as [|pd o team os Hr _ [IH1 IH2]]; [by split; [constructor|]|].
  destruct o as [s|]; csimpl.
  - destruct (replacement_for_Some _ _ _ _ _ _ Hr)
      as (sP & C & sC & l1 & l2 & _ & Hout & _ & _ & Hgain & _ & HC & _).
    rewrite Hout. split; [by constructor|]. constructor; [|done].
    rewrite Hgain. destruct HC as (_ & _ & _ & _ & Hlt). lra.
  - split; [by constructor | done].
Qed.

(** X7: the engine emits at most one suggestion per owned player, in the
    order in which it leaves the squad list (weakest owner first), and every
    suggestion has a strictly positive score gain. *)
Theorem suggest_replacements_order team pool fixtures gw team' suggestions :
  suggest_replacements team pool fixtures gw = Some (team', suggestions) →
  (sg_out <$> suggestions) `sublist_of` ((λ pd : player * Z, web_name pd.1) <$> team') ∧
  (length suggestions ≤ length team)%nat ∧
  Forall (λ s, 0 < score_gain s)%Q suggestions.
Proof.
  intros [(-> & -> & ->) | (Hsort & Hloop)]%suggest_replacements_inv.
  { split; [constructor|]. split; [done | constructor]. }
  destruct (sort_team_by_score_spec _ _ Hsort) as (Hperm & _).
  destruct (replacements_loop_omap _ _ _ _ _ _ Hloop) as (os & Hos & ->).
  apply mapM_Some in Hos.
  destruct (omap_out_sublist _ _ _ _ _ _ Hos) as [Hsub Hpos].
  split; [done|]. split; [|done].
  apply sublist_length in Hsub. rewrite !length_fmap in Hsub.
  by rewrite <- (Permutation_length Hperm).
Qed.

Lemma suggest_replacements_order_witness :
  ["Idle"] `sublist_of` ["Idle"; "A"].
Proof.
  apply (suggest_replacements_order
           [(keeper_A, 3); (idle_player, 3)] small_pool [] None
           [(idle_player, 3); (keeper_A, 3)]
           [{| sg_out := "Idle"; sg_in := "B";
               score_gain := (5 * (6 # 10) + 5 * (4 # 10)) * 1 - (0 * (6 # 10) + 0 * (4 # 10)) * 1;
               in_player_object := defender_B |}]).
  reflexivity.
Defined.

(** ** suggest_chips: order and robustness *)

Lemma bench_boost_chip_shape bench used_chips c1 :
  bench_boost_chip bench used_chips = Some c1 → c1 `sublist_of` [BenchBoost].
Proof.
  unfold bench_boost_chip. destruct (_ && _); [|by intros [= <-]; constructor; constructor].
  destruct (mapM score_pair bench) as [bs|]; simpl; [|done].
  intros [= <-]. destruct (Qltb _ _); repeat constructor.
Qed.

Lemma triple_captain_chip_shape starters used_chips c2 :
  triple_captain_chip starters used_chips = Some c2 → c2 `sublist_of` [TripleCaptain].
Proof.
  unfold triple_captain_chip. destruct (_ && _); [|by intros [= <-]; constructor; constructor].
  destruct (mapM score_pair starters) as [ks|]; simpl; [|done].
  destruct (zip ks starters) as [|first others]; [done|].
  destruct (score_pair _) as [cs|]; simpl; [|done].
  intros [= <-]. destruct (Qltb _ _); repeat constructor.
Qed.

(** X8: the recommendations always come in the order Bench Boost, Triple
    Captain, Wildcard, Free Hit. *)
Theorem suggest_chips_order starters bench other_suggestions used_chips chips :
  suggest_chips starters bench other_suggestions used_chips = Some chips →
  chips `sublist_of` [BenchBoost; TripleCaptain; Wildcard; FreeHit].
Proof.
  unfold suggest_chips.
  destruct (bench_boost_chip bench used_chips) as [c1|] eqn:H1; simpl; [|done].
  destruct (triple_captain_chip starters used_chips) as [c2|] eqn:H2; simpl; [|done].
  intros [= <-].
  apply (sublist_app _ [BenchBoost] _ [TripleCaptain; Wildcard; FreeHit]);
    [by eapply bench_boost_chip_shape|].
  apply (sublist_app _ [TripleCaptain] _ [Wildcard; FreeHit]);
    [by eapply triple_captain_chip_shape|].
  apply (sublist_app _ [Wildcard] _ [FreeHit]).
  - unfold wildcard_chip. destruct (_ && _); repeat constructor.
  - unfold free_hit_chip. destruct (_ && _); repeat constructor.
Qed.

Lemma suggest_chips_order_witness :
  [BenchBoost; Wildcard] `sublist_of` [BenchBoost; TripleCaptain; Wildcard; FreeHit].
Proof.
  apply (suggest_chips_order [(star_player, 3)] bench4 six_suggestions ∅).
  vm_compute. reflexivity.
Defined.

(** X9: when Bench Boost is used or the bench is empty, and Triple Captain
    is used or there are no starters, the advisor scores nobody: it returns
    even on records whose statistics are not numeric, and recommends nothing
    but Wildcard and Free Hit. *)
Theorem suggest_chips_without_scoring starters bench other_suggestions used_chips :
  chip_used used_chips BenchBoost = true ∨ bench = [] →
  chip_used used_chips TripleCaptain = true ∨ starters = [] →
  suggest_chips starters bench other_suggestions used_chips
  = Some (wildcard_chip other_suggestions used_chips
          ++ free_hit_chip other_suggestions used_chips).
Proof.
  intros Hb Hs. unfold suggest_chips.
  assert (H1 : bench_boost_chip bench used_chips = Some []).
  { unfold bench_boost_chip. destruct Hb as [-> | ->]; [done|].
    by destruct (chip_used used_chips BenchBoost). }
  assert (H2 : triple_captain_chip starters used_chips = Some []).
  { unfold triple_captain_chip. destruct Hs as [-> | ->]; [done|].
    by destruct (chip_used used_chips TripleCaptain). }
  by rewrite H1, H2.
Qed.

Lemma suggest_chips_without_scoring_witness :
  suggest_chips [(bad_form_player, 3)] [(bad_form_player, 3)] six_suggestions
    {[ "benchBoost" := true; "tripleCaptain" := true ]} = Some [Wildcard].
Proof.
  etransitivity.
  - apply (suggest_chips_without_scoring [(bad_form_player, 3)] [(bad_form_player, 3)]
             six_suggestions {[ "benchBoost" := true; "tripleCaptain" := true ]});
      left; reflexivity.
  - vm_compute. reflexivity.
Defined.

(** ** The wildcard squad: order and maximality *)

Section SortDesc.
Context {A : Type} (key : A → Q).

Lemma insert_desc_Sorted (x : A) (l : list A) :
  Sorted (flip (key_le key)) l →
  Sorted (flip (key_le key)) (insert_stable (λ y x, Qltb (key x) (key y)) x l).
Proof.
  induction 1 as [|y ys Hys IH Hhd]; simpl; [by repeat constructor|].
  destruct (Qltb (key x) (key y)) eqn:E.
  - apply Qltb_lt in E. constructor; [done|].
    destruct Hhd as [|z zs Hz]; simpl.
    + constructor. by apply Qlt_le_weak.
    + destruct (Qltb (key x) (key z)); constructor; [done | by apply Qlt_le_weak].
  - apply Qltb_ge in E. constructor; [by constructor | by constructor].
Qed.

Lemma sort_desc_Sorted (l : list A) : Sorted (flip (key_le key)) (sort_desc key l).
Proof.
  unfold sort_desc. induction l as [|x l IH]; simpl; [constructor|].
  by apply insert_desc_Sorted.
Qed.

Global Instance key_ge_trans : Transitive (flip (key_le key)).
Proof. intros x y z Hxy Hyz. unfold flip, key_le in *. by eapply Qle_trans. Qed.

Lemma sort_desc_StronglySorted (l : list A) :
  StronglySorted (flip (key_le key)) (sort_desc key l).
Proof. apply Sorted_StronglySorted; [apply _ | apply sort_desc_Sorted]. Qed.

End SortDesc.

Lemma sublist_Forall {A} (P : A → Prop) (l1 l2 : list A) :
  l1 `sublist_of` l2 → Forall P l2 → Forall P l1.
Proof.
  induction 1 as [|x l1 l2 _ IH|x l1 l2 _ IH]; intros HF; [done| |];
    inversion HF; subst; [constructor|]; auto.
Qed.

Lemma sublist_StronglySorted {A} (R : relation A) (l1 l2 : list A) :
  l1 `sublist_of` l2 → StronglySorted R l2 → StronglySorted R l1.
Proof.
  induction 1 as [|x l1 l2 Hsub IH|x l1 l2 Hsub IH]; intros HS; [done| |];
    inversion HS; subst.
  - constructor; [by apply IH | by eapply sublist_Forall].
  - by apply IH.
Qed.

Lemma score_pool_players pool fixtures gw sp :
  score_pool pool fixtures gw = Some sp → sp_player <$> sp = pool.
Proof.
  unfold score_pool. rewrite mapM_Some.
  induction 1 as [|p x pool sp Hp _ IH]; [done|]. csimpl. rewrite IH. f_equal.
  destruct (calculate_player_score p _); simpl in Hp; [|done]. by injection Hp as <-.
Qed.

Lemma wc_loop_admits (l : list scored) (st st' : wc_state) :
  wc_loop st l = Some st' →
  ∃ admitted, wildcard_squad st' = wildcard_squad st ++ admitted ∧ admitted `sublist_of` l.
Proof.
  revert st. induction l as [|p l IH]; intros st; simpl.
  - intros [= <-]. exists []. by rewrite app_nil_r.
  - destruct (decide _).
    { intros [= <-]. exists []. split; [by rewrite app_nil_r | apply sublist_nil_l]. }
    destruct (wc_step st p) as [st1|] eqn:Hstep; simpl; [|done].
    intros (adm & Hsq & Hsub)%IH.
    apply wc_step_cases in Hstep as [-> | (? & ? & _ & _ & _ & _ & _ & ->)].
    + exists adm. split; [done | by constructor].
    + simpl in Hsq. rewrite <- app_assoc in Hsq.
      exists (p :: adm). split; [done | by constructor].
Qed.

Lemma wildcard_squad_ranked_aux pool fixtures gw st :
  build_wildcard_squad pool fixtures gw = Some st →
  ∃ ranking, sp_player <$> ranking ≡ₚ pool ∧ wildcard_squad st `sublist_of` ranking.
Proof.
  unfold build_wildcard_squad, wildcard_ranking.
  destruct (score_pool pool fixtures gw) as [sp|] eqn:Hsp; simpl; [|done].
  intros (adm & Hsq & Hsub)%wc_loop_admits. simpl in Hsq. subst adm.
  eexists. split; [|done].
  unfold sort_desc. rewrite sort_stable_Permutation.
  by rewrite (score_pool_players _ _ _ _ Hsp).
Qed.

(** X10: the wildcard squad is a subsequence of the score ranking of the
    pool: every member is a pool player, and the members stand in descending
    score order. *)
Theorem wildcard_squad_ranked pool fixtures gw st :
  build_wildcard_squad pool fixtures gw = Some st →
  ∃ ranking,
    wildcard_ranking pool fixtures gw = Some ranking ∧
    sp_player <$> ranking ≡ₚ pool ∧
    wildcard_squad st `sublist_of` ranking ∧
    StronglySorted (flip (key_le sp_score)) (wildcard_squad st).
Proof.
  unfold build_wildcard_squad, wildcard_ranking.
  destruct (score_pool pool fixtures gw) as [sp|] eqn:Hsp; simpl; [|done].
  intros (adm & Hsq & Hsub)%wc_loop_admits. simpl in Hsq. subst adm.
  eexists. split; [done|]. split; [|split; [done|]].
  - unfold sort_desc. rewrite sort_stable_Permutation.
    by rewrite (score_pool_players _ _ _ _ Hsp).
  - eapply sublist_StronglySorted; [exact Hsub | apply sort_desc_StronglySorted].
Qed.

Lemma wildcard_squad_ranked_witness :
  ∃ st ranking,
    build_wildcard_squad small_pool [] None = Some st ∧
    wildcard_ranking small_pool [] None = Some ranking ∧
    sp_player <$> ranking ≡ₚ small_pool ∧
    wildcard_squad st `sublist_of` ranking ∧
    StronglySorted (flip (key_le sp_score)) (wildcard_squad st).
Proof.
  destruct (build_wildcard_squad small_pool [] None) as [st|] eqn:H;
    [|vm_compute in H; discriminate H].
  destruct (wildcard_squad_ranked small_pool [] None st H) as (ranking & Hr).
  by exists st, ranking.
Defined.

(** ** The lineups: who is in them, and in which role *)

Lemma wildcard_lineup_split (squad : list scored) :
  wildcard_lineup squad = assign_roles (wildcard_starting_xi squad) (wildcard_bench squad).
Proof. reflexivity. Qed.

Lemma ft_lineup_split (squad : list scored) :
  ft_lineup squad = assign_roles (ft_starting_xi squad) (ft_bench squad).
Proof. reflexivity. Qed.

Lemma assign_roles_players (starting_xi bench : list scored) :
  (assign_roles starting_xi bench).*1 = sp_player <$> (sort_desc sp_score starting_xi ++ bench).
Proof.
  unfold assign_roles. rewrite !fmap_app, fmap_imap, <- list_fmap_compose.
  f_equal. apply imap_const.
Qed.

Lemma by_position_Permutation (pos : Z) (squad : list scored) :
  by_position pos squad ≡ₚ filter (λ p, element_type (sp_player p) = pos) squad.
Proof. apply sort_stable_Permutation. Qed.

Lemma perm_swap {A} (x y z : list A) : x ++ y ++ z ≡ₚ y ++ x ++ z.
Proof. rewrite !app_assoc. apply Permutation_app_tail, Permutation_app_comm. Qed.

Lemma wildcard_members (squad : list scored) :
  wildcard_starting_xi squad ++ wildcard_bench squad
  ≡ₚ take 2 (by_position 1 squad) ++ wildcard_outfield_pool squad.
Proof.
  unfold wildcard_starting_xi, wildcard_bench. cbv zeta.
  generalize (wildcard_outfield_pool squad) (by_position 1 squad). intros out gkp.
  generalize (11 - length (take 1 gkp ++ take 3 out))%nat. intros n.
  assert (Hg : take 2 gkp = take 1 gkp ++ take 1 (drop 1 gkp))
    by (by destruct gkp as [|a [|b rest]]).
  assert (Ho : out = take 3 out ++ take n (drop 3 out) ++ drop (3 + n) out).
  { by rewrite <- drop_drop, (take_drop n (drop 3 out)), take_drop. }
  rewrite Hg. rewrite Ho at 4.
  generalize (take 1 gkp) (take 3 out) (take n (drop 3 out))
             (take 1 (drop 1 gkp)) (drop (3 + n) out).
  intros a b c d e. rewrite <- !app_assoc.
  by rewrite (perm_swap c d e), (perm_swap b d (c ++ e)).
Qed.

Lemma ft_members (squad : list scored) :
  ft_starting_xi squad ++ ft_bench squad
  ≡ₚ by_position 1 squad ++ by_position 2 squad ++ by_position 3 squad ++ by_position 4 squad.
Proof.
  unfold ft_starting_xi, ft_bench.
  set (pool := ft_outfield_pool squad).
  assert (Hpool : take 4 pool ++ sort_desc sp_score (drop 4 pool)
                  ≡ₚ drop 3 (by_position 2 squad) ++ drop 2 (by_position 3 squad)
                     ++ drop 1 (by_position 4 squad)).
  { unfold sort_desc at 1. rewrite sort_stable_Permutation, take_drop.
    unfold pool, ft_outfield_pool, sort_desc. by rewrite sort_stable_Permutation. }
  revert Hpool. generalize (take 4 pool) (sort_desc sp_score (drop 4 pool)).
  generalize (by_position 1 squad) (by_position 2 squad)
             (by_position 3 squad) (by_position 4 squad).
  intros g d m f t4 rest Hpool.
  pose proof (take_drop 1 g) as Hg. pose proof (take_drop 3 d) as Hd.
  pose proof (take_drop 2 m) as Hm. pose proof (take_drop 1 f) as Hf.
  revert Hpool Hg Hd Hm Hf.
  generalize (take 1 g) (drop 1 g) (take 3 d) (drop 3 d)
             (take 2 m) (drop 2 m) (take 1 f) (drop 1 f).
  intros tg dg td dd tm dm tf df Hpool <- <- <- <-. rewrite <- !app_assoc.
  rewrite (perm_swap t4 dg rest), Hpool.
  rewrite (perm_swap tf dg _), (perm_swap tm dg _), (perm_swap td dg _).
  rewrite (perm_swap tf dd _), (perm_swap tm dd _).
  by rewrite (perm_swap tf dm _).
Qed.

Lemma by_position_partition (squad : list scored) :
  by_position 1 squad ++ by_position 2 squad ++ by_position 3 squad ++ by_position 4 squad
  ≡ₚ filter (λ p, element_type (sp_player p) ∈ [1; 2; 3; 4]) squad.
Proof.
  rewrite !by_position_Permutation.
  induction squad as [|x squad IH]; [done|].
  rewrite !filter_cons.
  destruct (decide (element_type (sp_player x) ∈ [1; 2; 3; 4])) as [Hin|Hout].
  - rewrite !elem_of_cons, elem_of_nil in Hin.
    destruct Hin as [H|[H|[H|[H|[]]]]]; rewrite H; simpl.
    + by constructor.
    + rewrite <- Permutation_middle. by constructor.
    + rewrite app_assoc, <- Permutation_middle, <- app_assoc. by constructor.
    + rewrite !app_assoc, <- Permutation_middle, <- !app_assoc. by constructor.
  - rewrite !elem_of_cons, elem_of_nil in Hout.
    rewrite !decide_False by tauto. done.
Qed.

(** X12: the post-transfer formatter loses nobody: its lineup lists every
    squad member whose position is one of the four exactly once (members of
    any other position type are left out). *)
Theorem ft_lineup_members (squad : list scored) :
  (ft_lineup squad).*1
  ≡ₚ sp_player <$> filter (λ p, element_type (sp_player p) ∈ [1; 2; 3; 4]) squad.
Proof.
  rewrite ft_lineup_split, assign_roles_players.
  apply fmap_Permutation.
  unfold sort_desc at 1. rewrite sort_stable_Permutation.
  rewrite ft_members. apply by_position_partition.
Qed.

Lemma wildcard_lineup_players (squad : list scored) :
  (wildcard_lineup squad).*1
  ≡ₚ sp_player <$> (take 2 (by_position 1 squad) ++ by_position 2 squad
                    ++ by_position 3 squad ++ by_position 4 squad).
Proof.
  rewrite wildcard_lineup_split, assign_roles_players.
  apply fmap_Permutation.
  unfold sort_desc at 1. rewrite sort_stable_Permutation.
  rewrite wildcard_members. apply Permutation_app_head.
  unfold wildcard_outfield_pool, sort_desc. apply sort_stable_Permutation.
Qed.

(** X13: the wildcard formatter lists the two best keepers and every
    defender, midfielder and forward of the squad exactly once; a third or
    further keeper is left out. *)
Theorem wildcard_lineup_members (squad : list scored) :
  (wildcard_lineup squad).*1
  ≡ₚ sp_player <$> (take 2 (by_position 1 squad) ++ by_position 2 squad
                    ++ by_position 3 squad ++ by_position 4 squad).
Proof. apply wildcard_lineup_players. Qed.

(** The member of the sorted XI at a given rank gets the role of that rank. *)
Lemma assign_roles_lookup (starting_xi bench : list scored) (p : player) (r : role) :
  r ≠ Sub →
  (p, r) ∈ assign_roles starting_xi bench →
  ∃ i x, sort_desc sp_score starting_xi !! i = Some x ∧ sp_player x = p ∧ starter_role i = r.
Proof.
  intros Hr. unfold assign_roles. rewrite elem_of_app. intros [Hin | Hin].
  - apply list_elem_of_lookup in Hin as [i Hi].
    rewrite list_lookup_imap in Hi.
    destruct (sort_desc sp_score starting_xi !! i) as [x|] eqn:Hx; simpl in Hi; [|done].
    injection Hi as <- <-. by exists i, x.
  - apply list_elem_of_fmap in Hin as (x & [= _ ->] & _). done.
Qed.

(** X14: in both formatters the Captain is a highest-scoring member of the
    starting XI, and the Vice-Captain is a highest-scoring member of the rest
    of the XI. *)
Theorem captain_is_top_scorer (starting_xi bench : list scored) :
  (∀ p, (p, Captain) ∈ assign_roles starting_xi bench →
        ∃ c, c ∈ starting_xi ∧ sp_player c = p ∧
             Forall (λ x, sp_score x <= sp_score c)%Q starting_xi) ∧
  (∀ p, (p, ViceCaptain) ∈ assign_roles starting_xi bench →
        ∃ c v rest, starting_xi ≡ₚ c :: v :: rest ∧ sp_player v = p ∧
                    (sp_score v <= sp_score c)%Q ∧
                    Forall (λ x, sp_score x <= sp_score v)%Q rest).
Proof.
  pose proof (sort_desc_StronglySorted sp_score starting_xi) as Hsorted.
  assert (Hperm : sort_desc sp_score starting_xi ≡ₚ starting_xi)
    by apply sort_stable_Permutation.
  split; intros p Hin; apply assign_roles_lookup in Hin as (i & x & Hi & <- & Hrole); try done.
  - assert (i = 0%nat) as ->.
    { unfold starter_role in Hrole. repeat case_decide; congruence. }
    destruct (sort_desc sp_score starting_xi) as [|c rest]; [done|].
    injection Hi as ->. exists x. split; [rewrite <- Hperm; apply list_elem_of_here|].
    split; [done|]. rewrite <- Hperm. constructor; [apply Qle_refl|].
    by inversion Hsorted.
  - assert (i = 1%nat) as ->.
    { unfold starter_role in Hrole. repeat case_decide; congruence. }
    destruct (sort_desc sp_score starting_xi) as [|c [|v rest]]; [done|done|].
    injection Hi as ->. exists c, x, rest. split; [done|]. split; [done|].
    inversion Hsorted as [|? ? Hs Hc]; subst. inversion Hc; subst.
    inversion Hs; subst. done.
Qed.

Lemma outfield_pool_positions (squad : list scored) (x : scored) :
  x ∈ wildcard_outfield_pool squad → element_type (sp_player x) ≠ 1.
Proof.
  unfold wildcard_outfield_pool, sort_desc. rewrite sort_stable_Permutation.
  rewrite !elem_of_app, !by_position_Permutation, !list_elem_of_filter.
  intros [[-> _] | [[-> _] | [-> _]]]; done.
Qed.

Lemma keeper_positions (squad : list scored) (x : scored) :
  x ∈ by_position 1 squad → element_type (sp_player x) = 1.
Proof. rewrite by_position_Permutation, list_elem_of_filter. by intros [? _]. Qed.

(** X15: the wildcard formatter never benches an outfield player who
    outscores an outfield starter. *)
Theorem wildcard_bench_not_better (squad : list scored) (s b : scored) :
  s ∈ wildcard_starting_xi squad → b ∈ wildcard_bench squad →
  element_type (sp_player s) ≠ 1 → element_type (sp_player b) ≠ 1 →
  (sp_score b <= sp_score s)%Q.
Proof.
  unfold wildcard_starting_xi, wildcard_bench. cbv zeta.
  set (n := (11 - length (take 1 (by_position 1 squad)
                          ++ take 3 (wildcard_outfield_pool squad)))%nat).
  pose proof (sort_desc_StronglySorted sp_score
    (by_position 2 squad ++ by_position 3 squad ++ by_position 4 squad)) as Hsorted.
  fold (wildcard_outfield_pool squad) in Hsorted.
  pose proof (keeper_positions squad) as Hgk.
  revert Hsorted Hgk. generalize (wildcard_outfield_pool squad) (by_position 1 squad).
  intros out gkp Hsorted Hgk Hs Hb Hs1 Hb1.
  assert (Hs' : s ∈ take (3 + n) out).
  { rewrite <- take_take_drop. rewrite !elem_of_app in Hs.
    destruct Hs as [[Hs | Hs] | Hs]; [|apply elem_of_app; by left|apply elem_of_app; by right].
    exfalso. apply Hs1, Hgk. by apply (subseteq_take 1). }
  assert (Hb' : b ∈ drop (3 + n) out).
  { rewrite elem_of_app in Hb. destruct Hb as [Hb | Hb]; [|done].
    exfalso. apply Hb1, Hgk. by apply (subseteq_drop 1), (subseteq_take 1). }
  rewrite <- (take_drop (3 + n) out) in Hsorted.
  by apply (StronglySorted_app_1_elem_of _ _ _ s b Hsorted).
Qed.

Lemma captain_is_top_scorer_witness :
  ∃ c, c ∈ wildcard_starting_xi full_squad ∧
       Forall (λ x, sp_score x <= sp_score c)%Q (wildcard_starting_xi full_squad).
Proof.
  destruct (captain_is_top_scorer (wildcard_starting_xi full_squad)
              (wildcard_bench full_squad)) as [Hcap _].
  destruct (Hcap (mk_player 300 "F" 1 1 50 5 5)) as (c & Hc & _ & Hmax).
  - rewrite <- wildcard_lineup_split. apply list_elem_of_lookup. exists 0%nat.
    vm_compute. reflexivity.
  - by exists c.
Defined.

Lemma wildcard_bench_not_better_witness :
  ∃ s b, wildcard_starting_xi full_squad !! 1%nat = Some s ∧
         wildcard_bench full_squad !! 3%nat = Some b ∧
         (sp_score b <= sp_score s)%Q.
Proof.
  eexists _, _. split; [vm_compute; reflexivity|]. split; [vm_compute; reflexivity|].
  apply (wildcard_bench_not_better full_squad).
  - apply list_elem_of_lookup. exists 1%nat. vm_compute. reflexivity.
  - apply list_elem_of_lookup. exists 3%nat. vm_compute. reflexivity.
  - simpl. lia.
  - simpl. lia.
Defined.

(** ** suggest_wildcard_team as a whole *)

Lemma sublist_elem_of {A} (l1 l2 : list A) (x : A) :
  l1 `sublist_of` l2 → x ∈ l1 → x ∈ l2.
Proof.
  intros Hsub Hx.
  assert (HF : Forall (λ y, y ∈ l2) l1).
  { eapply sublist_Forall; [exact Hsub|]. by apply Forall_forall. }
  rewrite Forall_forall in HF. by apply HF.
Qed.

(** X16: the wildcard lineup never has more than 15 entries, and every
    entry is a player of the pool. *)
Theorem suggest_wildcard_team_from_pool pool fixtures gw lineup :
  suggest_wildcard_team pool fixtures gw = Some lineup →
  (length lineup ≤ 15)%nat ∧ ∀ p r, (p, r) ∈ lineup → p ∈ pool.
Proof.
  unfold suggest_wildcard_team.
  destruct (build_wildcard_squad pool fixtures gw) as [st|] eqn:Hbuild; simpl; [|done].
  intros [= <-].
  pose proof (wildcard_lineup_players (wildcard_squad st)) as Hmem.
  split.
  - rewrite <- (length_fmap fst), Hmem, length_fmap, !length_app, length_take.
    rewrite !by_position_length.
    destruct (wc_inv_limits st (build_wildcard_squad_inv _ _ _ _ Hbuild))
      as (_ & _ & H1 & H2 & H3 & H4). lia.
  - intros p r Hin.
    assert (Hp : p ∈ (wildcard_lineup (wildcard_squad st)).*1).
    { apply list_elem_of_fmap. by exists (p, r). }
    rewrite Hmem in Hp. apply list_elem_of_fmap in Hp as (x & -> & Hx).
    assert (Hsq : x ∈ wildcard_squad st).
    { rewrite !elem_of_app in Hx.
      destruct Hx as [Hx%(subseteq_take 2) | Hx];
        [|destruct Hx as [Hx | [Hx | Hx]]];
        rewrite by_position_Permutation, list_elem_of_filter in Hx; tauto. }
    destruct (wildcard_squad_ranked_aux _ _ _ _ Hbuild) as (ranking & Hperm & Hsub).
    rewrite <- Hperm. apply list_elem_of_fmap_2. by eapply sublist_elem_of.
Qed.

Lemma suggest_wildcard_team_from_pool_witness :
  ∃ lineup, suggest_wildcard_team small_pool [] None = Some lineup ∧
            (length lineup ≤ 15)%nat ∧ ∀ p r, (p, r) ∈ lineup → p ∈ small_pool.
Proof.
  destruct (suggest_wildcard_team small_pool [] None) as [lineup|] eqn:H;
    [|vm_compute in H; discriminate H].
  exists lineup. split; [reflexivity|].
  apply (suggest_wildcard_team_from_pool small_pool [] None lineup H).
Defined.

(** ** analyze_team: validation and ranking *)

Lemma foldl_player_map (elements : list player) (m : gmap Z player) (i : Z) :
  (is_Some (foldl (λ m p, <[ player_id p := p ]> m) m elements !! i)
   ↔ i ∈ player_id <$> elements ∨ is_Some (m !! i)) ∧
  (∀ p, foldl (λ m p, <[ player_id p := p ]> m) m elements !! i = Some p →
        (p ∈ elements ∧ player_id p = i) ∨ m !! i = Some p).
Proof.
  revert m. induction elements as [|x elements IH]; intros m; csimpl.
  - split; [|auto]. rewrite elem_of_nil. tauto.
  - destruct (IH (<[ player_id x := x ]> m)) as [IH1 IH2]. split.
    + rewrite IH1, elem_of_cons.
      destruct (decide (player_id x = i)) as [<-|Hne].
      * rewrite lookup_insert_eq. split; [auto | intros _; right; eauto].
      * rewrite lookup_insert_ne by done. split; intros [?|?]; auto.
        destruct H as [?|?]; [congruence | auto].
    + intros p [[Hin Hid] | Hm]%IH2.
      * left. split; [apply elem_of_cons; by right | done].
      * destruct (decide (player_id x = i)) as [<-|Hne].
        -- rewrite lookup_insert_eq in Hm. injection Hm as <-.
           left. split; [apply list_elem_of_here | done].
        -- rewrite lookup_insert_ne in Hm by done. by right.
Qed.

Lemma build_player_map_known (elements : list player) (i : Z) :
  is_Some (build_player_map elements !! i) ↔ i ∈ player_id <$> elements.
Proof.
  unfold build_player_map. destruct (foldl_player_map elements ∅ i) as [H _].
  rewrite H, lookup_empty. split; [intros [?|[? ?]]; done | auto].
Qed.


Lemma resolve_ids_length (elements : list player) (ids : list Z) :
  length (resolve_ids (build_player_map elements) ids) = known_ids elements ids.
Proof.
  unfold resolve_ids, known_ids. induction ids as [|i ids IH]; [done|].
  rewrite filter_cons. csimpl.
  pose proof (build_player_map_known elements i) as Hk.
  destruct (build_player_map elements !! i) as [p|] eqn:Hp.
  - rewrite decide_True by (apply Hk; eauto). simpl. by rewrite IH.
  - rewrite decide_False; [done|]. intros Hin. apply Hk in Hin as [? ?]. done.
Qed.

(** X17: the squad is validated before anything is scored.  Unless exactly
    15 of the submitted ids (starting and bench together, repetitions
    counted) and exactly 11 of the starting ids belong to pool players, the
    answer is the corresponding 400 error, whatever the players' data; and no
    such error is answered otherwise. *)
Theorem analyze_team_validation starting_ids bench_ids captain_id used_chips
    elements events fixtures :
  let all_known := known_ids elements (starting_ids ++ bench_ids) in
  let starting_known := known_ids elements starting_ids in
  let answer := analyze_team starting_ids bench_ids captain_id used_chips
                  elements events fixtures in
  (all_known ≠ 15%nat → answer = Some (inl (SquadSizeError all_known))) ∧
  (all_known = 15%nat → starting_known ≠ 11%nat →
   answer = Some (inl (StartingSizeError starting_known))) ∧
  (all_known = 15%nat → starting_known = 11%nat → ∀ e, answer ≠ Some (inl e)).
Proof.
  cbv zeta. unfold analyze_team. cbv zeta. rewrite !resolve_ids_length.
  split; [|split].
  - intros H. by rewrite decide_True.
  - intros H1 H2. rewrite decide_False by (by intros ?). by rewrite decide_True.
  - intros H1 H2 e. rewrite decide_False by (by intros ?).
    rewrite decide_False by (by intros ?).
    destruct (rate_team _ _); simpl; [|done].
    destruct (suggest_replacements _ _ _ _); simpl; [|done].
    destruct (suggest_chips _ _ _ _); simpl; [|done].
    destruct (suggested_lineup_after_transfer _ _ _ _); simpl; [|done].
    destruct (if decide _ then _ else _); simpl; done.
Qed.

Lemma sort_desc_head_max {A} (key : A → Q) (l : list A) (c : A) (rest : list A) :
  sort_desc key l = c :: rest → Forall (λ x, key x <= key c)%Q rest.
Proof.
  intros H. pose proof (sort_desc_StronglySorted key l) as Hs.
  rewrite H in Hs. by inversion Hs.
Qed.

(** X18: ranking the suggestions keeps all of them; the free transfer is
    the single suggestion with the greatest score gain (the earliest one among
    equals), and the other suggestions follow in descending order of gain. *)
Theorem rank_suggestions_spec (suggestions : list suggestion) :
  let free := (rank_suggestions suggestions).1 in
  let other := (rank_suggestions suggestions).2 in
  free ++ other ≡ₚ suggestions ∧
  (length free = Nat.min 1 (length suggestions)) ∧
  (∀ f o, f ∈ free → o ∈ other → (score_gain o <= score_gain f)%Q) ∧
  (∀ f, f ∈ free →
     ∃ l1 l2, suggestions = l1 ++ f :: l2 ∧
              Forall (λ x, score_gain x < score_gain f)%Q l1 ∧
              Forall (λ x, score_gain x <= score_gain f)%Q l2) ∧
  StronglySorted (flip (key_le score_gain)) other.
Proof.
  cbv zeta. unfold rank_suggestions. cbv zeta. simpl.
  pose proof (sort_desc_StronglySorted score_gain suggestions) as Hs.
  assert (Hperm : sort_desc score_gain suggestions ≡ₚ suggestions)
    by apply sort_stable_Permutation.
  split; [by rewrite take_drop|]. split.
  { rewrite length_take, sort_desc_length. done. }
  destruct (sort_desc score_gain suggestions) as [|c rest] eqn:Hsort; simpl.
  { split; [by intros f o ?%elem_of_nil|]. split; [by intros f ?%elem_of_nil|].
    constructor. }
  rewrite take_0, drop_0. split; [|split].
  - intros f o ->%list_elem_of_singleton Ho.
    pose proof (sort_desc_head_max _ _ _ _ Hsort) as Hmax.
    rewrite Forall_forall in Hmax. by apply Hmax.
  - intros f ->%list_elem_of_singleton. by eapply sort_desc_head.
  - by inversion Hs.
Qed.

Lemma analyze_team_validation_witness :
  analyze_team [1] [2; 3] 1 ∅ [keeper_A; idle_player] [] []
  = Some (inl (SquadSizeError 2)).
Proof.
  destruct (analyze_team_validation [1] [2; 3] 1 ∅ [keeper_A; idle_player] [] [])
    as [H _].
  apply H. vm_compute. lia.
Defined.

(** ** analyze_team: the squad after the free transfer *)

(** What the engine guarantees about a suggestion, in terms of the list it
    leaves behind. *)
Lemma suggestion_provenance team pool fixtures gw sorted suggestions (s : suggestion) :
  suggest_replacements team pool fixtures gw = Some (sorted, suggestions) →
  s ∈ suggestions →
  ∃ P d, (P, d) ∈ sorted ∧ sg_out s = web_name P ∧
         element_type (in_player_object s) = element_type P ∧
         (player_id (in_player_object s) ∉ (λ x : player * Z, player_id x.1) <$> sorted) ∧
         in_player_object s ∈ pool.
Proof.
  intros [(_ & _ & ->) | (Hsort & Hloop)]%suggest_replacements_inv Hin;
    [by apply elem_of_nil in Hin|].
  destruct (replacements_loop_elem _ _ _ _ _ _ _ Hloop Hin) as ([P d] & Hpd & Hr).
  destruct (replacement_for_Some _ _ _ _ _ _ Hr)
    as (sP & C & sC & l1 & l2 & _ & Ho & Hi & _ & _ & Hp & HC & _).
  simpl in *. destruct HC as (Hpos & Hid & _).
  exists P, d. rewrite Hi. split; [done|]. split; [done|]. split; [done|].
  split; [by rewrite elem_of_list_to_set in Hid|].
  rewrite Hp, elem_of_app, elem_of_cons. auto.
Qed.

Lemma free_transfer_is_suggestion (suggestions : list suggestion) (t : suggestion) :
  t ∈ (rank_suggestions suggestions).1 → t ∈ suggestions.
Proof.
  unfold rank_suggestions. simpl. intros Hin%(subseteq_take 1).
  unfold sort_desc in Hin. by rewrite sort_stable_Permutation in Hin.
Qed.

Lemma rank_suggestions_free (suggestions : list suggestion) :
  (rank_suggestions suggestions).1 = [] ∨ ∃ t, (rank_suggestions suggestions).1 = [t].
Proof.
  unfold rank_suggestions. simpl.
  destruct (sort_desc score_gain suggestions) as [|t rest]; [by left|].
  right. by exists t.
Qed.

Lemma post_transfer_squad_nil (team : list (player * Z)) :
  post_transfer_squad [] team = team.*1.
Proof.
  unfold post_transfer_squad. cbv zeta.
  change (in_player_object <$> []) with (@nil player). rewrite app_nil_r.
  change (sg_out <$> []) with (@nil string).
  induction (team.*1) as [|p l IH]; [done|].
  rewrite filter_cons_True; [by rewrite IH|].
  unfold not. rewrite elem_of_list_to_set, elem_of_nil. tauto.
Qed.

Lemma post_transfer_squad_one (t : suggestion) (team : list (player * Z)) :
  post_transfer_squad [t] team
  = filter (λ p, web_name p ≠ sg_out t) team.*1 ++ [in_player_object t].
Proof.
  unfold post_transfer_squad. cbv zeta. f_equal.
  apply list_filter_iff. intros p.
  change (sg_out <$> [t]) with [sg_out t].
  unfold not. rewrite elem_of_list_to_set, list_elem_of_singleton. tauto.
Qed.

(** Removing by a key that occurs once removes exactly one entry. *)
Lemma filter_unique_name (l : list player) (P : player) :
  NoDup (web_name <$> l) → P ∈ l →
  l ≡ₚ P :: filter (λ p, web_name p ≠ web_name P) l.
Proof.
  induction l as [|x l IH]; intros Hnd HP; [by apply elem_of_nil in HP|].
  rewrite fmap_cons, NoDup_cons in Hnd. destruct Hnd as [Hx Hnd].
  apply elem_of_cons in HP as [-> | HP].
  - rewrite filter_cons_False by (intros H; by apply H). constructor.
    clear IH. induction l as [|y l IH]; [done|].
    rewrite fmap_cons, not_elem_of_cons in Hx. destruct Hx as [Hxy Hx].
    rewrite fmap_cons, NoDup_cons in Hnd. destruct Hnd as [_ Hnd].
    rewrite filter_cons_True by congruence. constructor. by apply IH.
  - assert (Hne : web_name x ≠ web_name P).
    { intros Heq. apply Hx. rewrite Heq. by apply list_elem_of_fmap_2. }
    rewrite filter_cons_True by done.
    rewrite (IH Hnd HP) at 1. apply Permutation_swap.
Qed.

Lemma count_position_Permutation (pos : Z) (l1 l2 : list player) :
  l1 ≡ₚ l2 → count_position pos l1 = count_position pos l2.
Proof. intros H. unfold count_position. by rewrite H. Qed.

Lemma post_transfer_shape_aux team pool fixtures gw sorted suggestions (pos : Z) :
  suggest_replacements team pool fixtures gw = Some (sorted, suggestions) →
  NoDup ((λ pd : player * Z, web_name pd.1) <$> team) →
  count_position pos (post_transfer_squad (rank_suggestions suggestions).1 sorted)
  = count_position pos team.*1.
Proof.
  intros Hsug Hnd.
  assert (Hperm : sorted ≡ₚ team).
  { by destruct (suggest_replacements_inv _ _ _ _ _ _ Hsug)
      as [(-> & -> & _) | (Hs%sort_team_by_score_spec & _)]; [|destruct Hs]. }
  destruct (rank_suggestions_free suggestions) as [-> | [t Ht]].
  { rewrite post_transfer_squad_nil. apply count_position_Permutation.
    by apply fmap_Permutation. }
  assert (Hin : t ∈ suggestions).
  { apply free_transfer_is_suggestion. rewrite Ht. apply list_elem_of_here. }
  destruct (suggestion_provenance _ _ _ _ _ _ _ Hsug Hin)
    as (P & d & HP & Hout & Hpos & _).
  rewrite Ht, post_transfer_squad_one, Hout.
  assert (Hnd' : NoDup (web_name <$> sorted.*1)).
  { rewrite <- list_fmap_compose. by rewrite Hperm. }
  assert (HP' : P ∈ sorted.*1) by (apply list_elem_of_fmap; by exists (P, d)).
  rewrite <- (count_position_Permutation pos sorted.*1 team.*1)
    by (by apply fmap_Permutation).
  rewrite (count_position_Permutation pos sorted.*1 _ (filter_unique_name _ _ Hnd' HP')).
  unfold count_position. rewrite filter_app, length_app, !filter_cons, filter_nil.
  rewrite Hpos. destruct (decide (element_type P = pos)); simpl; lia.
Qed.

(** X19: when the web names of the squad are pairwise distinct, the squad
    after the free transfer has the same number of players in every position
    as the submitted squad. *)
Theorem post_transfer_squad_shape team pool fixtures gw sorted suggestions (pos : Z) :
  suggest_replacements team pool fixtures gw = Some (sorted, suggestions) →
  NoDup ((λ pd : player * Z, web_name pd.1) <$> team) →
  count_position pos (post_transfer_squad (rank_suggestions suggestions).1 sorted)
  = count_position pos team.*1.
Proof. apply post_transfer_shape_aux. Qed.

Lemma post_transfer_squad_shape_witness :
  count_position 2
    (post_transfer_squad
       (rank_suggestions
          [{| sg_out := "Idle"; sg_in := "B";
              score_gain := (5 * (6 # 10) + 5 * (4 # 10)) * 1 - (0 * (6 # 10) + 0 * (4 # 10)) * 1;
              in_player_object := defender_B |}]).1
       [(idle_player, 3); (keeper_A, 3)])
  = count_position 2 [(keeper_A, 3); (idle_player, 3)].*1.
Proof.
  apply (post_transfer_squad_shape [(keeper_A, 3); (idle_player, 3)] small_pool [] None).
  - reflexivity.
  - repeat constructor; rewrite ?elem_of_cons, ?elem_of_nil; simpl; intuition congruence.
Defined.

(** X20: the player moved out is removed by web name.  When two or more
    squad members carry the outgoing name, all of them are dropped and the
    squad after the free transfer is smaller than the submitted one. *)
Theorem post_transfer_squad_shrinks (t : suggestion) (sorted : list (player * Z)) :
  (2 ≤ length (filter (λ p, web_name p = sg_out t) sorted.*1))%nat →
  (length (post_transfer_squad [t] sorted) < length sorted)%nat.
Proof.
  rewrite post_transfer_squad_one, length_app. simpl.
  rewrite <- (length_fmap fst sorted).
  pose proof (filter_app_complement (λ p, web_name p = sg_out t) sorted.*1) as H.
  apply Permutation_length in H. rewrite length_app in H.
  change (λ x, ¬ web_name x = sg_out t) with (λ x, web_name x ≠ sg_out t) in H.
  lia.
Qed.

Lemma post_transfer_squad_shrinks_witness :
  (length (post_transfer_squad
             [{| sg_out := "P"; sg_in := "B"; score_gain := 1;
                 in_player_object := defender_B |}]
             ((λ p : player, (p, 3%Z)) <$> full_pool))
   < length ((λ p : player, (p, 3%Z)) <$> full_pool))%nat.
Proof. apply post_transfer_squad_shrinks. vm_compute. lia. Defined.

(** ** analyze_team: the answer as a whole *)

Lemma analyze_team_ok starting_ids bench_ids captain_id used_chips
    elements events fixtures (a : analysis) :
  analyze_team starting_ids bench_ids captain_id used_chips elements events fixtures
  = Some (inr a) →
  let squad := resolve_ids (build_player_map elements) (starting_ids ++ bench_ids) in
  let gw := find_next_gameweek events in
  ∃ sorted suggestions starters bench,
    suggest_replacements
      ((λ p, (p, get_player_fixture_difficulty (team p) gw fixtures)) <$> squad)
      elements fixtures gw = Some (sorted, suggestions) ∧
    free_transfers a = (rank_suggestions suggestions).1 ∧
    other_suggestions a = (rank_suggestions suggestions).2 ∧
    suggest_chips starters bench (other_suggestions a) used_chips
      = Some (chip_suggestions a) ∧
    suggested_lineup_after_transfer (free_transfers a) sorted fixtures gw
      = Some (suggested_lineup_ft a) ∧
    (if decide (Wildcard ∈ chip_suggestions a)
     then suggest_wildcard_team elements fixtures gw else Some [])
      = Some (suggested_lineup_wc a).
Proof.
  unfold analyze_team. cbv zeta.
  destruct (decide (length _ ≠ 15%nat)); [done|].
  destruct (decide (length _ ≠ 11%nat)); [done|].
  destruct (rate_team _ _) as [rating|]; simpl; [|done].
  destruct (suggest_replacements _ _ _ _) as [[sorted suggestions]|] eqn:Hsug; simpl; [|done].
  destruct (suggest_chips _ _ _ _) as [chips|] eqn:Hchips; simpl; [|done].
  destruct (suggested_lineup_after_transfer _ _ _ _) as [lft|] eqn:Hft; simpl; [|done].
  destruct (if decide (Wildcard ∈ chips) then _ else _) as [lwc|] eqn:Hwc; simpl; [|done].
  intros [= <-]. simpl. eexists sorted, suggestions, _, _.
  split; [done|]. split; [done|]. split; [done|]. split; [exact Hchips|]. by split.
Qed.

Lemma count_pos_players (pos : Z) (squad : list scored) :
  count_pos pos squad = count_position pos (sp_player <$> squad).
Proof.
  unfold count_pos, count_position. induction squad as [|x squad IH]; [done|].
  rewrite fmap_cons, !filter_cons. destruct (decide _); simpl; by rewrite IH.
Qed.

(** X21: for a squad of 15 with pairwise distinct web names and a legal
    shape (1 to 5 keepers, at least 3 defenders, 2 midfielders and 1 forward,
    all 15 in the four positions), a successful analysis either suggests no
    free transfer and no post-transfer lineup, or exactly one free transfer
    together with a well-formed lineup: 11 starters, 4 bench entries, one
    Captain and one Vice-Captain. *)
Theorem analyze_team_lineup_ft starting_ids bench_ids captain_id used_chips
    elements events fixtures (a : analysis) :
  let squad := resolve_ids (build_player_map elements) (starting_ids ++ bench_ids) in
  analyze_team starting_ids bench_ids captain_id used_chips elements events fixtures
  = Some (inr a) →
  NoDup (web_name <$> squad) →
  (1 ≤ count_position 1 squad ≤ 5)%nat →
  (3 ≤ count_position 2 squad)%nat →
  (2 ≤ count_position 3 squad)%nat →
  (1 ≤ count_position 4 squad)%nat →
  (count_position 1 squad + count_position 2 squad
   + count_position 3 squad + count_position 4 squad = 15)%nat →
  (free_transfers a = [] ∧ suggested_lineup_ft a = []) ∨
  ((∃ t, free_transfers a = [t]) ∧ well_formed_lineup (suggested_lineup_ft a)).
Proof.
  cbv zeta. intros Hok Hnd Hg Hd Hm Hf Hsum.
  destruct (analyze_team_ok _ _ _ _ _ _ _ _ Hok)
    as (sorted & suggestions & _ & _ & Hsug & Hfree & _ & _ & Hft & _).
  set (squad := resolve_ids (build_player_map elements) (starting_ids ++ bench_ids)) in *.
  set (gw := find_next_gameweek events) in *.
  set (team := (λ p, (p, get_player_fixture_difficulty (team p) gw fixtures)) <$> squad) in *.
  assert (Hteam : team.*1 = squad).
  { unfold team. rewrite <- list_fmap_compose. apply list_fmap_id. }
  assert (Hnd' : NoDup ((λ pd : player * Z, web_name pd.1) <$> team)).
  { unfold team. by rewrite <- list_fmap_compose. }
  destruct (rank_suggestions_free suggestions) as [Hnil | [t Ht]].
  - left. rewrite Hfree, Hnil in *. simpl in Hft. by injection Hft as <-.
  - right. split; [exists t; congruence|].
    rewrite Hfree, Ht in Hft. simpl in Hft.
    destruct (score_pool _ _ _) as [new|] eqn:Hnew; simpl in Hft; [|done].
    injection Hft as <-.
    pose proof (score_pool_players _ _ _ _ Hnew) as Hpl.
    assert (Hshape : ∀ pos, count_pos pos new = count_position pos squad).
    { intros pos. rewrite count_pos_players, Hpl, <- Ht, <- Hteam.
      by eapply post_transfer_shape_aux. }
    apply ft_lineup_counts; rewrite !Hshape; done.
Qed.

Lemma analyze_team_lineup_ft_witness :
  ∃ a, analyze_team demo_starting_ids demo_bench_ids 107 ∅ league [] [] = Some (inr a) ∧
       ((free_transfers a = [] ∧ suggested_lineup_ft a = []) ∨
        ((∃ t, free_transfers a = [t]) ∧ well_formed_lineup (suggested_lineup_ft a))).
Proof.
  destruct (analyze_team demo_starting_ids demo_bench_ids 107 ∅ league [] [])
    as [[e|a]|] eqn:H;
    [vm_compute in H; discriminate H | | vm_compute in H; discriminate H].
  exists a. split; [reflexivity|].
  apply (analyze_team_lineup_ft demo_starting_ids demo_bench_ids 107 ∅ league [] [] a H).
  - apply (bool_decide_unpack _). vm_compute. exact I.
  - vm_compute. lia.
  - vm_compute. lia.
  - vm_compute. lia.
  - vm_compute. lia.
  - vm_compute. lia.
Defined.

Lemma wildcard_in_chips starters bench other used_chips chips :
  suggest_chips starters bench other used_chips = Some chips →
  Wildcard ∈ chips →
  chip_used used_chips Wildcard = false ∧ (5 ≤ length other)%nat.
Proof.
  unfold suggest_chips.
  destruct (bench_boost_chip bench used_chips) as [c1|] eqn:H1; simpl; [|done].
  destruct (triple_captain_chip starters used_chips) as [c2|] eqn:H2; simpl; [|done].
  intros [= <-]. rewrite !elem_of_app. intros [Hin | [Hin | [Hin | Hin]]].
  - apply bench_boost_chip_shape in H1.
    apply (sublist_elem_of _ _ _ H1), list_elem_of_singleton in Hin. done.
  - apply triple_captain_chip_shape in H2.
    apply (sublist_elem_of _ _ _ H2), list_elem_of_singleton in Hin. done.
  - destruct (wildcard_chip_spec other used_chips) as (b & Hb & Hiff).
    rewrite Hb in Hin. destruct b; [by apply Hiff | by apply elem_of_nil in Hin].
  - unfold free_hit_chip in Hin.
    destruct (_ && _); [by apply list_elem_of_singleton in Hin | by apply elem_of_nil in Hin].
Qed.

(** X22: a wildcard lineup is part of the answer only when the Wildcard
    chip is recommended in the same answer, which needs an unused wildcard
    and at least five suggestions besides the free transfer; it is then the
    result of the wildcard builder on the whole pool. *)
Theorem analyze_team_wildcard_gate starting_ids bench_ids captain_id used_chips
    elements events fixtures (a : analysis) :
  analyze_team starting_ids bench_ids captain_id used_chips elements events fixtures
  = Some (inr a) →
  suggested_lineup_wc a ≠ [] →
  Wildcard ∈ chip_suggestions a ∧
  chip_used used_chips Wildcard = false ∧
  (5 ≤ length (other_suggestions a))%nat ∧
  suggest_wildcard_team elements fixtures (find_next_gameweek events)
  = Some (suggested_lineup_wc a).
Proof.
  intros Hok Hne.
  destruct (analyze_team_ok _ _ _ _ _ _ _ _ Hok)
    as (sorted & suggestions & st & bn & _ & _ & _ & Hchips & _ & Hwc).
  destruct (decide (Wildcard ∈ chip_suggestions a)) as [Hin|Hout].
  - split; [done|]. destruct (wildcard_in_chips _ _ _ _ _ Hchips Hin). done.
  - injection Hwc as Hwc. congruence.
Qed.

(** X23: the player proposed by the free transfer is new to the squad: when
    the ids of the submitted squad are pairwise distinct, so are the ids of
    the squad after the free transfer. *)
Theorem post_transfer_squad_distinct_ids team pool fixtures gw sorted suggestions :
  suggest_replacements team pool fixtures gw = Some (sorted, suggestions) →
  NoDup ((λ pd : player * Z, player_id pd.1) <$> team) →
  NoDup (player_id <$> post_transfer_squad (rank_suggestions suggestions).1 sorted).
Proof.
  intros Hsug Hnd.
  assert (Hperm : sorted ≡ₚ team).
  { by destruct (suggest_replacements_inv _ _ _ _ _ _ Hsug)
      as [(-> & -> & _) | (Hs%sort_team_by_score_spec & _)]; [|destruct Hs]. }
  assert (Hnd' : NoDup (player_id <$> sorted.*1)).
  { rewrite <- list_fmap_compose. by rewrite Hperm. }
  destruct (rank_suggestions_free suggestions) as [-> | [t Ht]].
  { by rewrite post_transfer_squad_nil. }
  assert (Hin : t ∈ suggestions).
  { apply free_transfer_is_suggestion. rewrite Ht. apply list_elem_of_here. }
  destruct (suggestion_provenance _ _ _ _ _ _ _ Hsug Hin)
    as (P & d & _ & _ & _ & Hid & _).
  rewrite Ht, post_transfer_squad_one, fmap_app. apply NoDup_app.
  assert (Hsub : (player_id <$> filter (λ p, web_name p ≠ sg_out t) sorted.*1)
                 `sublist_of` (player_id <$> sorted.*1))
    by apply fmap_sublist, sublist_filter.
  split; [by eapply sublist_NoDup|]. split; [|apply NoDup_singleton].
  intros i Hi ->%list_elem_of_singleton. apply Hid.
  assert (E : (λ x : player * Z, player_id x.1) <$> sorted = player_id <$> sorted.*1)
    by (by rewrite <- list_fmap_compose).
  rewrite E. by eapply sublist_elem_of.
Qed.

Lemma post_transfer_squad_distinct_ids_witness :
  NoDup (player_id <$>
         post_transfer_squad
           (rank_suggestions
              [{| sg_out := "Idle"; sg_in := "B";
                  score_gain := (5 * (6 # 10) + 5 * (4 # 10)) * 1 - (0 * (6 # 10) + 0 * (4 # 10)) * 1;
                  in_player_object := defender_B |}]).1
           [(idle_player, 3); (keeper_A, 3)]).
Proof.
  apply (post_transfer_squad_distinct_ids [(keeper_A, 3); (idle_player, 3)] small_pool [] None).
  - reflexivity.
  - apply (bool_decide_unpack _). vm_compute. exact I.
Defined.

Lemma analyze_team_wildcard_gate_witness :
  ∃ a, analyze_team demo_starting_ids demo_bench_ids 107 ∅ league_wc [] [] = Some (inr a) ∧
       Wildcard ∈ chip_suggestions a ∧
       chip_used ∅ Wildcard = false ∧
       (5 ≤ length (other_suggestions a))%nat ∧
       suggest_wildcard_team league_wc [] (find_next_gameweek [])
       = Some (suggested_lineup_wc a).
Proof.
  destruct (analyze_team demo_starting_ids demo_bench_ids 107 ∅ league_wc [] [])
    as [[e|a]|] eqn:H;
    [vm_compute in H; discriminate H | | vm_compute in H; discriminate H].
  exists a. split; [reflexivity|].
  apply (analyze_team_wildcard_gate demo_starting_ids demo_bench_ids 107 ∅
           league_wc [] [] a H).
  vm_compute in H. injection H as <-. discriminate.
Defined.

(** ** get_club_logo_url *)

Lemma badge_url_nonempty (c : Z) : badge_url c ≠ "".
Proof. unfold badge_url. simpl. discriminate. Qed.

(** X24: the logo URL is the empty string exactly when no team of the list
    has the requested id. *)
Theorem club_logo_empty_iff_unknown (team_id : Z) (teams_data : list club) :
  get_club_logo_url team_id teams_data = "" ↔ team_id ∉ club_id <$> teams_data.
Proof.
  induction teams_data as [|t teams IH]; csimpl.
  - split; [intros _; apply not_elem_of_nil | done].
  - rewrite not_elem_of_cons. destruct (decide (club_id t = team_id)) as [Heq|Hne].
    + split; [by intros ?%badge_url_nonempty | intros [? _]; congruence].
    + rewrite IH. split; [intros ?; split; [congruence | done] | by intros [_ ?]].
Qed.

Lemma string_length_app (s1 s2 : string) :
  String.length (s1 +:+ s2) = (String.length s1 + String.length s2)%nat.
Proof. induction s1 as [|c s1 IH]; simpl; [done | by rewrite IH]. Qed.

Lemma string_app_inv_tail (s1 s2 t : string) : s1 +:+ t = s2 +:+ t → s1 = s2.
Proof.
  revert s2. induction s1 as [|c s1 IH]; intros [|c2 s2] H; simpl in H; [done| | |].
  - apply (f_equal String.length) in H. simpl in H.
    rewrite !string_length_app in H. simpl in H. lia.
  - apply (f_equal String.length) in H. simpl in H.
    rewrite !string_length_app in H. simpl in H. lia.
  - injection H as -> H. f_equal. by apply IH.
Qed.

(** X25: for a known id the URL is the badge URL of the first team in the
    list with that id, and badge URLs of different team codes differ. *)
Theorem club_logo_first_match (team_id : Z) (l1 l2 : list club) (t : club) :
  (team_id ∉ club_id <$> l1) →
  club_id t = team_id →
  get_club_logo_url team_id (l1 ++ t :: l2) = badge_url (club_code t) ∧
  ∀ c, badge_url c = badge_url (club_code t) → c = club_code t.
Proof.
  intros Hl1 Ht. split.
  - induction l1 as [|x l1 IH]; simpl; [by rewrite decide_True|].
    rewrite fmap_cons, not_elem_of_cons in Hl1. destruct Hl1 as [Hx Hl1].
    rewrite decide_False by congruence. by apply IH.
  - intros c Hc. unfold badge_url in Hc.
    apply (inj (String.app _)) in Hc. apply string_app_inv_tail in Hc.
    by apply (inj pretty) in Hc.
Qed.

Lemma club_logo_first_match_witness :
  get_club_logo_url 3 ([{| club_id := 1; club_code := 3 |}]
                       ++ {| club_id := 3; club_code := 43 |}
                       :: [{| club_id := 3; club_code := 8 |}])
  = badge_url 43.
Proof.
  apply (club_logo_first_match 3 _ _ {| club_id := 3; club_code := 43 |}).
  - change (3 ∉ [1]). rewrite list_elem_of_singleton. lia.
  - reflexivity.
Defined.

(** ** get_player_face_url *)

Lemma remove_jpg_cons (c : ascii) (s : string) :
  c ≠ "."%char → remove_jpg (String c s) = String c (remove_jpg s).
Proof.
  intros Hc. destruct c as [[] [] [] [] [] [] [] []]; try reflexivity.
  by destruct Hc.
Qed.

Lemma is_digit_not_dot (c : ascii) : is_digit c = true → c ≠ "."%char.
Proof. intros H ->. discriminate H. Qed.

Lemma remove_jpg_digits (ds : string) :
  all_digits ds = true → remove_jpg (ds +:+ ".jpg") = ds.
Proof.
  induction ds as [|c ds IH]; [done|].
  intros H. simpl in H. apply andb_true_iff in H as [Hc Hds].
  change (String c ds +:+ ".jpg") with (String c (ds +:+ ".jpg")).
  rewrite remove_jpg_cons by (by apply is_digit_not_dot). by rewrite IH.
Qed.

(** X26: a photo entry made of one or more ASCII digits followed by
    [.jpg] is mapped to the 40x40 PNG URL of that photo id. *)
Theorem face_url_of_standard_photo (ds : string) :
  ds ≠ "" → all_digits ds = true →
  get_player_face_url (Some (ds +:+ ".jpg")) = face_url ds.
Proof.
  intros Hne Hds. unfold get_player_face_url.
  destruct (ds +:+ ".jpg") as [|c rest] eqn:E; [by destruct ds|].
  rewrite <- E, (remove_jpg_digits ds Hds). cbv zeta.
  unfold py_isdigit. destruct ds; [done|]. by rewrite Hds.
Qed.

Lemma face_url_of_standard_photo_witness :
  get_player_face_url (Some "223094.jpg") = face_url "223094".
Proof. apply (face_url_of_standard_photo "223094"); [discriminate | reflexivity]. Defined.

(** ** No exception on well-formed data *)

(** X27: the wildcard builder raises nothing when every pool player has
    numeric statistics and one of the four positions. *)
Theorem wildcard_builder_returns pool fixtures gw :
  Forall numeric_player pool → Forall known_position pool →
  ∃ st, build_wildcard_squad pool fixtures gw = Some st.
Proof. intros Hnum Hpos. by apply build_wildcard_squad_total. Qed.

Lemma wildcard_builder_returns_witness :
  ∃ st, build_wildcard_squad small_pool [] None = Some st.
Proof.
  apply wildcard_builder_returns.
  - repeat constructor.
  - repeat constructor; by eexists.
Defined.

(** X28: the transfer engine raises nothing when the statistics of the
    squad and of the pool are numeric. *)
Theorem transfer_engine_returns team pool fixtures gw :
  Forall (λ pd : player * Z, numeric_player pd.1) team → Forall numeric_player pool →
  ∃ r, suggest_replacements team pool fixtures gw = Some r.
Proof. intros Hteam Hpool. by apply suggest_replacements_total. Qed.

Lemma transfer_engine_returns_witness :
  ∃ r, suggest_replacements [(keeper_A, 3); (idle_player, 3)] small_pool [] None = Some r.
Proof. apply transfer_engine_returns; repeat constructor. Defined.








(** * Properties of the binary64 model *)

(** ** Binary64: the order of floats *)

Lemma SFcompare_key (x y : spec_float) :
  x ≠ S754_nan → y ≠ S754_nan → SFcompare x y = Some (lex_compare (sf_key x) (sf_key y)).
Proof.
  intros Hx Hy. destruct x as [s1|s1| |s1 m1 e1], y as [s2|s2| |s2 m2 e2]; try done;
    try (destruct s1, s2; reflexivity); try (destruct s1; reflexivity);
    try (destruct s2; reflexivity).
  destruct s1, s2; try reflexivity; unfold lex_compare; simpl.
  rewrite Z.compare_opp, (Z.compare_antisym e1 e2).
  destruct (e1 ?= e2); reflexivity.
Qed.

Lemma lex_compare_Lt (a b : Z * Z * Z) : lex_compare a b = Lt ↔ lex_lt a b.
Proof.
  unfold lex_compare, lex_lt.
  destruct (Z.compare_spec a.1.1 b.1.1), (Z.compare_spec a.1.2 b.1.2),
    (Z.compare_spec a.2 b.2); split; try done; try lia; intros; lia.
Qed.

Lemma lex_compare_Gt (a b : Z * Z * Z) : lex_compare a b = Gt ↔ lex_lt b a.
Proof.
  unfold lex_compare, lex_lt.
  destruct (Z.compare_spec a.1.1 b.1.1), (Z.compare_spec a.1.2 b.1.2),
    (Z.compare_spec a.2 b.2); split; try done; try lia; intros; lia.
Qed.

(** A float is not NaN exactly when it equals itself. *)
Lemma is_nan_spec (x : float) : is_nan x = false ↔ Prim2SF x ≠ S754_nan.
Proof.
  unfold is_nan. rewrite FloatAxioms.eqb_spec. unfold SFeqb. split.
  - intros H E. rewrite E in H. done.
  - intros H. rewrite (SFcompare_key _ _ H H).
    destruct (lex_compare _ _) eqn:E; [done| |].
    + apply lex_compare_Lt in E. unfold lex_lt in E. lia.
    + apply lex_compare_Gt in E. unfold lex_lt in E. lia.
Qed.

Lemma float_ltb_lex (x y : float) :
  (x <? y)%float = true ↔
  is_nan x = false ∧ is_nan y = false ∧ lex_lt (sf_key (Prim2SF x)) (sf_key (Prim2SF y)).
Proof.
  rewrite FloatAxioms.ltb_spec, !is_nan_spec. unfold SFltb. split.
  - intros H.
    assert (Hx : Prim2SF x ≠ S754_nan) by (intros E; rewrite E in H; done).
    assert (Hy : Prim2SF y ≠ S754_nan).
    { intros E; rewrite E in H. by destruct (Prim2SF x) as [| | |]. }
    split; [done|]. split; [done|]. rewrite (SFcompare_key _ _ Hx Hy) in H.
    apply lex_compare_Lt. by destruct (lex_compare _ _).
  - intros (Hx & Hy & H). rewrite (SFcompare_key _ _ Hx Hy).
    apply lex_compare_Lt in H. by rewrite H.
Qed.

Lemma float_leb_lex (x y : float) :
  (x <=? y)%float = true ↔
  is_nan x = false ∧ is_nan y = false ∧ ¬ lex_lt (sf_key (Prim2SF y)) (sf_key (Prim2SF x)).
Proof.
  rewrite FloatAxioms.leb_spec, !is_nan_spec. unfold SFleb. split.
  - intros H.
    assert (Hx : Prim2SF x ≠ S754_nan) by (intros E; rewrite E in H; done).
    assert (Hy : Prim2SF y ≠ S754_nan).
    { intros E; rewrite E in H. by destruct (Prim2SF x) as [| | |]. }
    split; [done|]. split; [done|]. rewrite (SFcompare_key _ _ Hx Hy) in H.
    rewrite <- lex_compare_Gt. by destruct (lex_compare _ _).
  - intros (Hx & Hy & H). rewrite (SFcompare_key _ _ Hx Hy).
    rewrite <- lex_compare_Gt in H. by destruct (lex_compare _ _).
Qed.

(** A comparison that holds has no NaN operand. *)
Lemma float_ltb_ordered (x y : float) :
  (x <? y)%float = true → is_nan x = false ∧ is_nan y = false.
Proof. rewrite float_ltb_lex. tauto. Qed.

Lemma float_leb_ordered (x y : float) :
  (x <=? y)%float = true → is_nan x = false ∧ is_nan y = false.
Proof. rewrite float_leb_lex. tauto. Qed.

Lemma float_ltb_trans (x y z : float) :
  (x <? y)%float = true → (y <? z)%float = true → (x <? z)%float = true.
Proof.
  rewrite !float_ltb_lex. unfold lex_lt. intros (? & ? & ?) (? & ? & ?).
  repeat split; try done. lia.
Qed.

(** Without NaN the order is total: [x <= y] is the negation of [y < x]. *)
Lemma float_leb_negb_ltb (x y : float) :
  is_nan x = false → is_nan y = false → (x <=? y)%float = negb (y <? x)%float.
Proof.
  intros Hx Hy. apply eq_true_iff_eq. rewrite negb_true_iff, <- not_true_iff_false.
  rewrite float_leb_lex, float_ltb_lex. tauto.
Qed.

Lemma float_leb_not_ltb (x y : float) : (x <=? y)%float = true → (y <? x)%float = false.
Proof.
  intros H. destruct (float_leb_ordered _ _ H) as [Hx Hy].
  rewrite (float_leb_negb_ltb _ _ Hx Hy) in H. by apply negb_true_iff.
Qed.

Lemma float_ltb_leb_trans (x y z : float) :
  (x <? y)%float = true → (y <=? z)%float = true → (x <? z)%float = true.
Proof.
  rewrite !float_ltb_lex, float_leb_lex. unfold lex_lt. intros (? & ? & ?) (? & ? & ?).
  repeat split; try done. lia.
Qed.

Lemma float_leb_ltb_trans (x y z : float) :
  (x <=? y)%float = true → (y <? z)%float = true → (x <? z)%float = true.
Proof.
  rewrite !float_ltb_lex, float_leb_lex. unfold lex_lt. intros (? & ? & ?) (? & ? & ?).
  repeat split; try done. lia.
Qed.

Lemma float_leb_trans (x y z : float) :
  (x <=? y)%float = true → (y <=? z)%float = true → (x <=? z)%float = true.
Proof.
  rewrite !float_leb_lex. unfold lex_lt. intros (? & ? & ?) (? & ? & ?).
  repeat split; try done. lia.
Qed.


Lemma float_ltb_leb (x y : float) : (x <? y)%float = true → (x <=? y)%float = true.
Proof.
  rewrite float_ltb_lex, float_leb_lex. unfold lex_lt. intros (? & ? & ?).
  repeat split; try done. lia.
Qed.

(** ** Binary64: calculate_player_score and round *)

(** Two scores that are equal in exact arithmetic and different in binary64. *)
Example b64_scores_differ :
  Binary64.calculate_player_score Binary64.level_B 3 = Some 0.16%float ∧
  Binary64.calculate_player_score Binary64.level_A 3 = Some 0.16000000000000003%float ∧
  (0.16 <? 0.16000000000000003)%float = true.
Proof. repeat split; reflexivity. Qed.

Example b64_py_round_ties :
  Binary64.py_round 0.5 = Some 0 ∧ Binary64.py_round 1.5 = Some 2 ∧
  Binary64.py_round 2.5 = Some 2 ∧ Binary64.py_round (-2.5) = Some (-2) ∧
  Binary64.py_round 4.5000000000000009 = Some 5 ∧
  Binary64.py_round 16.666666666666664 = Some 17 ∧
  Binary64.py_round infinity = None ∧ Binary64.py_round nan = None.
Proof. repeat split; reflexivity. Qed.

(** ** Binary64: rate_team *)

(** A lone starter with form 0.0 and 6.0 points per game scores
    2.4000000000000004; the rating [2.5000000000000004] rounds to 3, where
    the exact value 2.5 would round to 2. *)
Example b64_rate_team_rounding :
  Binary64.rate_team [(Binary64.mk_player 8 "Solo" 1 3 50 0.0 6.0, 3)] 0 = Some 3.
Proof. reflexivity. Qed.

(** The accumulating loop adds the captain-weighted scores to the
    accumulator from left to right, and raises exactly when one of the
    scores does. *)
Lemma b64_rate_loop_spec (captain_id : Z) (l : list (Binary64.player * Z)) (acc : float) :
  Binary64.rate_loop captain_id acc l
  = ws ← mapM (Binary64.weighted_score captain_id) l; Some (foldl PrimFloat.add acc ws).
Proof.
  revert acc. induction l as [|pd l IH]; intros acc; [done|].
  change (mapM (Binary64.weighted_score captain_id) (pd :: l))
    with (y ← Binary64.weighted_score captain_id pd;
          k ← mapM (Binary64.weighted_score captain_id) l; Some (y :: k)).
  simpl. unfold Binary64.rate_step, Binary64.weighted_score.
  destruct (Binary64.calculate_player_score pd.1 pd.2) as [s|]; simpl; [|done].
  destruct (decide (Binary64.player_id pd.1 = captain_id)); simpl;
    rewrite IH; by destruct (mapM _ l).
Qed.

Lemma b64_rate_team_eq_spec (l : list (Binary64.player * Z)) (captain_id : Z) :
  Binary64.rate_team l captain_id = Binary64.rate_team_spec l captain_id.
Proof.
  destruct l as [|pd l]; [done|].
  unfold Binary64.rate_team, Binary64.rate_team_spec, Binary64.sum_left.
  rewrite b64_rate_loop_spec.
  by destruct (mapM _ (pd :: l)) as [ws|].
Qed.

(** C3 (as stated, refuted): the specification writes the rating as
    [round(min(100, 100 * total / 96.0))].  For a captained starter with
    form 0.0 and 5.4 points per game the total is 4.32; the code computes
    [(4.32 / 96.0) * 100 = 4.500000000000001] and returns 5, the formula as
    written computes [432.0 / 96.0 = 4.5] and gives 4. *)
Lemma rate_team_operand_order :
  Binary64.rate_team [(Binary64.mid_player, 3)] 9 = Some 5 ∧
  Binary64.rate_team_as_written [(Binary64.mid_player, 3)] 9 = Some 4.
Proof. split; reflexivity. Qed.

(** C3 (amended): [rate_team] returns [round(min(100, (total / 96.0) * 100))]
    with the operations carried out in binary64 in this order, where [total]
    adds up, from 0 and from left to right, each starter's score with the
    entries whose id equals [captain_id] doubled, and [96.0 = 10 * 8.0 + 1 *
    8.0 * 2] is a constant; it returns [0] for an empty list; and one
    captained starter of score 8.0 is rated 17. *)
Theorem rate_team_formula :
  (∀ l captain_id, Binary64.rate_team l captain_id = Binary64.rate_team_spec l captain_id) ∧
  Binary64.max_possible_score = 96%float ∧
  (∀ captain_id, Binary64.rate_team [] captain_id = Some 0) ∧
  (∀ p d, Binary64.calculate_player_score p d = Some 8%float →
          Binary64.rate_team [(p, d)] (Binary64.player_id p) = Some 17).
Proof.
  split; [apply b64_rate_team_eq_spec|]. split; [reflexivity|]. split; [done|].
  intros p d Hs. rewrite b64_rate_team_eq_spec. unfold Binary64.rate_team_spec.
  change (mapM (Binary64.weighted_score (Binary64.player_id p)) [(p, d)])
    with (y ← Binary64.weighted_score (Binary64.player_id p) (p, d); Some [y]).
  unfold Binary64.weighted_score. simpl. rewrite Hs. simpl.
  rewrite decide_True by done. reflexivity.
Qed.

Lemma rate_team_formula_witness :
  Binary64.rate_team [(Binary64.star_player, 3)] 7 = Some 17.
Proof.
  destruct rate_team_formula as (_ & _ & _ & H).
  apply (H Binary64.star_player 3). reflexivity.
Defined.

(** ** Binary64: the stable sort on float keys *)

Section B64SortByKey.
Context {A : Type} (key : A → float).

Lemma b64_insert_asc_Sorted (x : A) (l : list A) :
  is_nan (key x) = false → Forall (λ y, is_nan (key y) = false) l →
  Sorted (Binary64.key_le key) l →
  Sorted (Binary64.key_le key) (insert_stable (λ y x, (key y <? key x)%float) x l).
Proof.
  intros Hx Hl Hs. revert Hl.
  induction Hs as [|y ys Hys IH Hhd]; intros Hl; simpl; [by repeat constructor|].
  inversion Hl as [|? ? Hy Hl']; subst.
  destruct (key y <? key x)%float eqn:E.
  - constructor; [by apply IH|].
    destruct Hhd as [|z zs Hz]; simpl.
    + constructor. by apply float_ltb_leb.
    + destruct (key z <? key x)%float; constructor; [done | by apply float_ltb_leb].
  - constructor; [by constructor|]. constructor.
    unfold Binary64.key_le. rewrite float_leb_negb_ltb by done. by rewrite E.
Qed.

Lemma b64_sort_asc_Sorted (l : list A) :
  Forall (λ y, is_nan (key y) = false) l →
  Sorted (Binary64.key_le key) (Binary64.sort_asc key l).
Proof.
  unfold Binary64.sort_asc. induction 1 as [|x l Hx Hl IH]; simpl; [constructor|].
  apply b64_insert_asc_Sorted; [done| |done].
  by rewrite sort_stable_Permutation.
Qed.

(** Stability on sorted input: an ascending list is left as it is. *)
Lemma b64_sort_asc_sorted_id (l : list A) :
  Sorted (Binary64.key_le key) l → Binary64.sort_asc key l = l.
Proof.
  unfold Binary64.sort_asc. induction 1 as [|x l Hl IH Hhd]; simpl; [done|].
  rewrite IH. destruct Hhd as [|y ys Hy]; simpl; [done|].
  unfold Binary64.key_le in Hy. by rewrite (float_leb_not_ltb _ _ Hy).
Qed.

(** The head of a descending stable sort is the first element of maximal
    key: everything in front of it is strictly smaller, everything behind it
    is at most as large. *)
Lemma b64_sort_desc_head (l : list A) (c : A) (rest : list A) :
  Forall (λ y, is_nan (key y) = false) l →
  Binary64.sort_desc key l = c :: rest →
  ∃ l1 l2, l = l1 ++ c :: l2 ∧
           Forall (λ x, (key x <? key c)%float = true) l1 ∧
           Forall (λ x, (key x <=? key c)%float = true) l2.
Proof.
  unfold Binary64.sort_desc. intros Hl. revert c rest.
  induction Hl as [|x l Hx Hl IH]; intros c rest; simpl; [done|].
  destruct (sort_stable _ l) as [|y ys] eqn:Hs; simpl.
  - apply sort_stable_nil_inv in Hs as ->. intros [= <- <-]. by exists [], [].
  - destruct (IH y ys eq_refl) as (l1 & l2 & -> & H1 & H2).
    assert (Hy : is_nan (key y) = false).
    { rewrite Forall_app, Forall_cons in Hl. tauto. }
    destruct (key x <? key y)%float eqn:E.
    + intros [= <- <-].
      exists (x :: l1), l2. split; [done|]. split; [by constructor | done].
    + intros [= <- <-].
      assert (Hyx : (key y <=? key x)%float = true).
      { rewrite float_leb_negb_ltb by done. by rewrite E. }
      exists [], (l1 ++ y :: l2). split; [done|]. split; [constructor|].
      apply Forall_app. split.
      * eapply Forall_impl; [exact H1|]. simpl. intros z Hz.
        apply float_ltb_leb. by eapply float_ltb_leb_trans.
      * constructor; [done|].
        eapply Forall_impl; [exact H2|]. simpl. intros z Hz. by eapply float_leb_trans.
Qed.

End B64SortByKey.

(** ** Binary64: sorting a list by a key that is computed first *)

Section B64Decorated.
Context {A K : Type} (f : A → option K).

Lemma b64_zip_keys (l : list A) (keys : list K) :
  mapM f l = Some keys →
  Forall (λ kx : K * A, f kx.2 = Some kx.1) (zip keys l) ∧
  (zip keys l).*2 = l ∧ (zip keys l).*1 = keys.
Proof.
  rewrite mapM_Some. induction 1 as [|x k l keys Hx _ (IH1 & IH2 & IH3)]; csimpl; [done|].
  split; [by constructor|]. by rewrite IH2, IH3.
Qed.

Lemma b64_mapM_decorated (dl : list (K * A)) :
  Forall (λ kx : K * A, f kx.2 = Some kx.1) dl → mapM f (dl.*2) = Some (dl.*1).
Proof.
  intros H. apply mapM_Some. induction H; simpl; by constructor.
Qed.

(** Entries decorated with the key of their second component are determined
    by those components. *)
Lemma b64_zip_unique (dl dl' : list (K * A)) :
  dl ≡ₚ dl' →
  Forall (λ kx : K * A, f kx.2 = Some kx.1) dl' →
  dl.*2 = dl'.*2 → dl = dl'.
Proof.
  intros HP HF'.
  assert (HF : Forall (λ kx : K * A, f kx.2 = Some kx.1) dl) by (by rewrite HP).
  clear HP. revert dl' HF'.
  induction dl as [|[k x] dl IH]; intros [|[k' x'] dl'] HF' Heq; try done.
  csimpl in *. injection Heq as <- Heq.
  inversion HF as [|? ? Hk HF1]; subst. inversion HF' as [|? ? Hk' HF1']; subst.
  simpl in *. rewrite Hk in Hk'. injection Hk' as <-. f_equal. by apply IH.
Qed.

End B64Decorated.

Lemma b64_Sorted_keys {A} (dl : list (float * A)) :
  Sorted (Binary64.key_le fst) dl ↔ Sorted (Binary64.key_le id) (dl.*1).
Proof.
  induction dl as [|x dl IH]; simpl; [split; constructor|].
  split; intros H; inversion H as [|? ? Hs Hhd]; subst; (constructor; [by apply IH|]);
    destruct dl; simpl in *; constructor; by inversion Hhd.
Qed.

(** ** Binary64: what suggest_replacements does to the argument list *)

Lemma b64_sort_team_by_score_spec (team team' : list (Binary64.player * Z)) :
  Binary64.sort_team_by_score team = Some team' →
  team' ≡ₚ team ∧
  ∀ keys, mapM Binary64.score_pair team = Some keys → Binary64.ordered keys →
    (∃ keys', mapM Binary64.score_pair team' = Some keys' ∧
              Sorted (Binary64.key_le id) keys') ∧
    (team' = team ↔ Sorted (Binary64.key_le id) keys).
Proof.
  unfold Binary64.sort_team_by_score.
  destruct (mapM Binary64.score_pair team) as [keys|] eqn:Hk; simpl; [|done].
  intros [= <-]. destruct (b64_zip_keys _ _ _ Hk) as (HF & H2 & H1).
  pose proof (sort_stable_Permutation
    (λ y x : float * (Binary64.player * Z), (y.1 <? x.1)%float) (zip keys team)) as HP.
  fold (Binary64.sort_asc fst (zip keys team)) in HP.
  split.
  { rewrite <- H2 at 2. by apply fmap_Permutation. }
  intros ? [= <-] Hord.
  assert (Hsorted : Sorted (Binary64.key_le fst) (Binary64.sort_asc fst (zip keys team))).
  { apply b64_sort_asc_Sorted. rewrite <- H1 in Hord.
    unfold Binary64.ordered in Hord. by rewrite Forall_fmap in Hord. }
  split.
  - exists ((Binary64.sort_asc fst (zip keys team)).*1). split.
    + apply b64_mapM_decorated. by rewrite HP.
    + by apply b64_Sorted_keys.
  - split.
    + intros Heq. rewrite <- H1. apply b64_Sorted_keys.
      rewrite <- H2 in Heq at 2.
      assert (Hz : Binary64.sort_asc fst (zip keys team) = zip keys team).
      { apply (b64_zip_unique Binary64.score_pair _ _ HP HF Heq). }
      by rewrite <- Hz.
    + intros Hs. rewrite b64_sort_asc_sorted_id; [done|].
      apply b64_Sorted_keys. by rewrite H1.
Qed.

Lemma b64_suggest_replacements_inv team pool teams fixtures gw team' suggestions :
  Binary64.suggest_replacements team pool teams fixtures gw = Some (team', suggestions) →
  (team = [] ∧ team' = [] ∧ suggestions = []) ∨
  (Binary64.sort_team_by_score team = Some team' ∧
   Binary64.replacements_loop
     (list_to_set ((λ x : Binary64.player * Z, Binary64.player_id x.1) <$> team'))
     pool teams fixtures gw team' = Some suggestions).
Proof.
  unfold Binary64.suggest_replacements. destruct team as [|pd team].
  - intros [= <- <-]. by left.
  - destruct (Binary64.sort_team_by_score (pd :: team)) as [ts|] eqn:Hs; simpl; [|done].
    destruct (Binary64.replacements_loop _ _ _ _ _ ts) as [ss|] eqn:Hl; simpl; [|done].
    intros [= <- <-]. by right.
Qed.

(** C9 (as stated, refuted): called on a squad listed best-first, the
    function leaves the argument list in a different order. *)
Lemma suggest_replacements_reorders_input :
  ∃ team' suggestions,
    Binary64.suggest_replacements
      [(Binary64.keeper_A, 3);
       (Binary64.idle_player, 3)] [] [] [] None
      = Some (team', suggestions) ∧
    team' = [(Binary64.idle_player, 3);
             (Binary64.keeper_A, 3)] ∧
    team' ≠ [(Binary64.keeper_A, 3);
             (Binary64.idle_player, 3)].
Proof. eexists _, _. split; [reflexivity|]. split; [reflexivity | discriminate]. Qed.

(** The order is that of the computed floats: form 0.0 with 0.4 points per
    game scores 0.16000000000000003, form 0.2 with 0.1 points per game
    scores 0.16, so the first is moved behind the second. *)
Example suggest_replacements_reorders_by_rounding :
  ∃ suggestions,
    Binary64.suggest_replacements
      [(Binary64.level_A, 3);
       (Binary64.level_B, 3)] [] [] [] None
      = Some ([(Binary64.level_B, 3);
               (Binary64.level_A, 3)], suggestions).
Proof. eexists. reflexivity. Qed.

(** C9 (amended): [suggest_replacements] depends on nothing but its
    arguments, and it sorts its argument list in place: when it returns, the
    list holds the same entries; when no score is NaN they stand in
    ascending order of the computed binary64 scores, and the list is
    unchanged exactly when it was already in that order. *)
Theorem suggest_replacements_sorts_input team pool teams fixtures gw team' suggestions :
  Binary64.suggest_replacements team pool teams fixtures gw = Some (team', suggestions) →
  team' ≡ₚ team ∧
  ∀ keys, mapM Binary64.score_pair team = Some keys → Binary64.ordered keys →
    (∃ keys', mapM Binary64.score_pair team' = Some keys' ∧
              Sorted (Binary64.key_le id) keys') ∧
    (team' = team ↔ Sorted (Binary64.key_le id) keys).
Proof.
  intros [(-> & -> & _) | (Hs & _)]%b64_suggest_replacements_inv.
  - split; [done|]. intros keys [= <-] _.
    split; [exists []; split; [done | constructor]|]. split; [constructor | done].
  - by apply b64_sort_team_by_score_spec.
Qed.

Lemma suggest_replacements_sorts_input_witness :
  [(Binary64.level_B, 3);
   (Binary64.level_A, 3)]
  ≡ₚ [(Binary64.level_A, 3);
      (Binary64.level_B, 3)] ∧
  ∃ keys', mapM Binary64.score_pair
             [(Binary64.level_B, 3);
              (Binary64.level_A, 3)] = Some keys' ∧
           Sorted (Binary64.key_le id) keys'.
Proof.
  destruct (suggest_replacements_sorts_input
              [(Binary64.level_A, 3);
               (Binary64.level_B, 3)] [] [] [] None
              [(Binary64.level_B, 3);
               (Binary64.level_A, 3)] [] eq_refl) as [HP H].
  split; [exact HP|].
  destruct (H [0.16000000000000003; 0.16]%float eq_refl) as [Hk _].
  - repeat constructor.
  - exact Hk.
Defined.

(** ** Binary64: the suggestions of suggest_replacements *)

Section B64Candidates.
Context (ids : gset Z) (fixtures : list fixture) (gw : option Z).
Context (price pos : Z) (sP : float).

Local Abbreviation is_cand := (Binary64.is_candidate ids fixtures gw price pos sP).
Local Abbreviation find_cands := (Binary64.find_candidates ids fixtures gw price pos sP).

Lemma b64_find_candidates_cons (p : Binary64.player) (rest : list Binary64.player)
    (cands : list (Binary64.player * float)) :
  find_cands (p :: rest) = Some cands →
  ∃ cands', find_cands rest = Some cands' ∧
    ((∃ sp, is_cand p sp ∧ cands = (p, sp) :: cands') ∨
     ((∀ sp, ¬ is_cand p sp) ∧ cands = cands')).
Proof.
  unfold Binary64.is_candidate, Binary64.candidate_score. simpl. intros H.
  destruct (decide (Binary64.element_type p = pos ∧ Binary64.player_id p ∉ ids))
    as [[Hpos Hid]|Hn].
  - destruct (Binary64.calculate_player_score p _) as [sp|] eqn:Hsp; simpl in H; [|done].
    destruct (Binary64.find_candidates _ _ _ _ _ _ rest) as [cands'|]; simpl in H; [|done].
    exists cands'. split; [done|].
    destruct (bool_decide (Binary64.now_cost p ≤ price)) eqn:Hc; simpl in H.
    + destruct (sP <? sp)%float eqn:Hlt; injection H as <-.
      * left. exists sp. apply bool_decide_eq_true in Hc. done.
      * right. split; [|done]. intros sp' (_ & _ & _ & [= <-] & Hlt'). congruence.
    + injection H as <-. right. split; [|done]. intros sp' (_ & _ & Hle & _).
      apply bool_decide_eq_false in Hc. done.
  - exists cands. split; [done|]. right. split; [|done].
    intros sp (? & ? & _). apply Hn. done.
Qed.

Lemma b64_find_candidates_sound (pool : list Binary64.player)
    (cands : list (Binary64.player * float)) :
  find_cands pool = Some cands → Forall (λ cs, is_cand cs.1 cs.2) cands.
Proof.
  revert cands. induction pool as [|p rest IH]; intros cands H.
  - injection H as <-. constructor.
  - apply b64_find_candidates_cons in H as (cands' & Hrest & Hp).
    destruct Hp as [(sp & Hsp & ->) | (_ & ->)]; [constructor; [done|]|]; by apply IH.
Qed.

Lemma b64_find_candidates_complete (pool : list Binary64.player)
    (cands : list (Binary64.player * float)) :
  find_cands pool = Some cands →
  ∀ c sc, c ∈ pool → is_cand c sc → (c, sc) ∈ cands.
Proof.
  revert cands. induction pool as [|p rest IH]; intros cands H c sc Hin Hc.
  - by apply elem_of_nil in Hin.
  - apply b64_find_candidates_cons in H as (cands' & Hrest & Hp).
    apply elem_of_cons in Hin as [-> | Hin].
    + destruct Hp as [(sp & Hsp & ->) | (Hno & _)]; [|by destruct (Hno sc)].
      destruct Hc as (_ & _ & _ & Hs & _), Hsp as (_ & _ & _ & Hs' & _).
      rewrite Hs in Hs'. injection Hs' as <-. apply elem_of_cons; by left.
    + specialize (IH _ Hrest c sc Hin Hc).
      destruct Hp as [(sp & _ & ->) | (_ & ->)]; [apply elem_of_cons; by right | done].
Qed.

(** A position in the candidate list corresponds to a position in the pool:
    qualifying players in front of it in the pool are in front of it in the
    list, and likewise behind it. *)
Lemma b64_find_candidates_split (pool : list Binary64.player)
    (cands k1 k2 : list (Binary64.player * float)) (C : Binary64.player) (sC : float) :
  find_cands pool = Some cands →
  cands = k1 ++ (C, sC) :: k2 →
  ∃ l1 l2, pool = l1 ++ C :: l2 ∧ is_cand C sC ∧
    (∀ c sc, c ∈ l1 → is_cand c sc → (c, sc) ∈ k1) ∧
    (∀ c sc, c ∈ l2 → is_cand c sc → (c, sc) ∈ k2).
Proof.
  revert cands k1. induction pool as [|p rest IH]; intros cands k1 H Hk.
  - injection H as <-. by destruct k1.
  - apply b64_find_candidates_cons in H as (cands' & Hrest & Hp).
    destruct Hp as [(sp & Hsp & ->) | (Hno & ->)].
    + destruct k1 as [|[p' sp'] k1']; simpl in Hk.
      * injection Hk as <- <- <-. exists [], rest. split; [done|]. split; [done|].
        split; [by intros c sc ?%elem_of_nil|].
        intros c sc Hin Hc. by eapply b64_find_candidates_complete.
      * injection Hk as <- <- ->.
        destruct (IH _ _ Hrest eq_refl) as (l1 & l2 & -> & HC & H1 & H2).
        exists (p :: l1), l2. split; [done|]. split; [done|]. split; [|done].
        intros c sc [-> | Hin]%elem_of_cons Hc.
        -- destruct Hc as (_ & _ & _ & Hs & _), Hsp as (_ & _ & _ & Hs' & _).
           rewrite Hs in Hs'. injection Hs' as <-. apply elem_of_cons; by left.
        -- apply elem_of_cons. right. by apply H1.
    + destruct (IH _ _ Hrest Hk) as (l1 & l2 & -> & HC & H1 & H2).
      exists (p :: l1), l2. split; [done|]. split; [done|]. split; [|done].
      intros c sc [-> | Hin]%elem_of_cons Hc; [by destruct (Hno sc) | by apply H1].
Qed.

(** The candidate picked for the owned player is the first best one of the
    pool.  Every candidate beats the owned player's score, so none of the
    keys that are sorted is NaN. *)
Lemma b64_best_candidate_spec (pool : list Binary64.player)
    (cands rest : list (Binary64.player * float)) (C : Binary64.player) (sC : float) :
  find_cands pool = Some cands →
  Binary64.sort_desc snd cands = (C, sC) :: rest →
  ∃ l1 l2, pool = l1 ++ C :: l2 ∧ is_cand C sC ∧
    (∀ c sc, c ∈ l1 → is_cand c sc → (sc <? sC)%float = true) ∧
    (∀ c sc, c ∈ l2 → is_cand c sc → (sc <=? sC)%float = true).
Proof.
  intros Hf Hs.
  assert (Hord : Forall (λ cs : Binary64.player * float, is_nan cs.2 = false) cands).
  { eapply Forall_impl; [by apply (b64_find_candidates_sound pool)|].
    intros cs (_ & _ & _ & _ & Hlt). by apply float_ltb_ordered in Hlt as [_ ?]. }
  destruct (b64_sort_desc_head snd _ _ _ Hord Hs) as (k1 & k2 & Hk & F1 & F2).
  destruct (b64_find_candidates_split _ _ _ _ _ _ Hf Hk) as (l1 & l2 & -> & HC & H1 & H2).
  exists l1, l2. split; [done|]. split; [done|]. split.
  - intros c sc Hin Hc. rewrite Forall_forall in F1. apply (F1 _ (H1 _ _ Hin Hc)).
  - intros c sc Hin Hc. rewrite Forall_forall in F2. apply (F2 _ (H2 _ _ Hin Hc)).
Qed.

End B64Candidates.

Lemma b64_replacement_for_Some ids pool teams fixtures gw (pd : Binary64.player * Z)
    (s : Binary64.suggestion) :
  Binary64.replacement_for ids pool teams fixtures gw pd = Some (Some s) →
  ∃ sP C sC l1 l2,
    Binary64.calculate_player_score pd.1 pd.2 = Some sP ∧
    Binary64.sg_out s = Binary64.web_name pd.1 ∧ Binary64.in_player_object s = C ∧
    Binary64.sg_in s = Binary64.web_name C ∧
    Binary64.score_gain s = (sC - sP)%float ∧
    pool = l1 ++ C :: l2 ∧
    Binary64.is_candidate ids fixtures gw (Binary64.now_cost pd.1)
      (Binary64.element_type pd.1) sP C sC ∧
    (∀ c sc, c ∈ l1 →
       Binary64.is_candidate ids fixtures gw (Binary64.now_cost pd.1)
         (Binary64.element_type pd.1) sP c sc → (sc <? sC)%float = true) ∧
    (∀ c sc, c ∈ l2 →
       Binary64.is_candidate ids fixtures gw (Binary64.now_cost pd.1)
         (Binary64.element_type pd.1) sP c sc → (sc <=? sC)%float = true).
Proof.
  unfold Binary64.replacement_for. cbv zeta.
  destruct (Binary64.calculate_player_score pd.1 pd.2) as [sP|]; simpl; [|done].
  destruct (Binary64.find_candidates _ _ _ _ _ _ pool) as [cands|] eqn:Hf; simpl; [|done].
  destruct cands as [|c0 cands0]; [done|].
  destruct (Binary64.sort_desc snd (c0 :: cands0)) as [|[C sC] rest] eqn:Hs; [done|].
  intros [= <-]. simpl.
  destruct (b64_best_candidate_spec _ _ _ _ _ _ _ _ _ _ _ Hf Hs)
    as (l1 & l2 & Hp & HC & H1 & H2).
  by exists sP, C, sC, l1, l2.
Qed.

Lemma b64_replacements_loop_elem ids pool teams fixtures gw team suggestions
    (s : Binary64.suggestion) :
  Binary64.replacements_loop ids pool teams fixtures gw team = Some suggestions →
  s ∈ suggestions →
  ∃ pd, pd ∈ team ∧ Binary64.replacement_for ids pool teams fixtures gw pd = Some (Some s).
Proof.
  revert suggestions. induction team as [|pd team IH]; intros suggestions; simpl.
  - intros [= <-] Hin. by apply elem_of_nil in Hin.
  - destruct (Binary64.replacement_for ids pool teams fixtures gw pd) as [o|] eqn:Hr;
      simpl; [|done].
    destruct (Binary64.replacements_loop ids pool teams fixtures gw team) as [ss|];
      simpl; [|done].
    intros [= <-] Hin.
    assert (Hcase : o = Some s ∨ s ∈ ss).
    { destruct o as [x|]; [|by right]. apply elem_of_cons in Hin as [->|]; auto. }
    destruct Hcase as [-> | Hss].
    + exists pd. split; [apply elem_of_cons; by left | done].
    + destruct (IH _ eq_refl Hss) as (pd' & Hin' & Hr').
      exists pd'. split; [apply elem_of_cons; by right | done].
Qed.

(** The transfer engine returns whenever the statistics of the squad and of
    the pool are numeric. *)
Lemma b64_calculate_player_score_numeric (p : Binary64.player) (d : Z) :
  Binary64.numeric_player p → is_Some (Binary64.calculate_player_score p d).
Proof.
  intros [Hf Hg]. unfold Binary64.calculate_player_score.
  destruct (Binary64.form p) as [[f| |]|], (Binary64.points_per_game p) as [[g| |]|];
    simpl in *; done.
Qed.

Lemma b64_find_candidates_total ids fixtures gw price pos sP pool :
  Forall Binary64.numeric_player pool →
  is_Some (Binary64.find_candidates ids fixtures gw price pos sP pool).
Proof.
  induction 1 as [|p pool Hp _ [cands IH]]; simpl; [done|].
  destruct (decide _); [|by rewrite IH].
  destruct (b64_calculate_player_score_numeric p
              (get_player_fixture_difficulty (Binary64.team p) gw fixtures) Hp) as [s ->].
  rewrite IH. simpl. by destruct (_ && _).
Qed.

Lemma b64_replacement_for_total ids pool teams fixtures gw (pd : Binary64.player * Z) :
  Binary64.numeric_player pd.1 → Forall Binary64.numeric_player pool →
  is_Some (Binary64.replacement_for ids pool teams fixtures gw pd).
Proof.
  intros Hp Hpool. unfold Binary64.replacement_for. cbv zeta.
  destruct (b64_calculate_player_score_numeric pd.1 pd.2 Hp) as [sP ->]. simpl.
  destruct (b64_find_candidates_total ids fixtures gw (Binary64.now_cost pd.1)
              (Binary64.element_type pd.1) sP pool Hpool) as [cands ->].
  simpl. destruct cands as [|c cands]; [done|].
  destruct (Binary64.sort_desc snd (c :: cands)) as [|[b sb] rest] eqn:Hs; [|done].
  by apply sort_stable_nil_inv in Hs.
Qed.

Lemma b64_replacements_loop_total ids pool teams fixtures gw
    (team : list (Binary64.player * Z)) :
  Forall (λ pd, Binary64.numeric_player pd.1) team → Forall Binary64.numeric_player pool →
  is_Some (Binary64.replacements_loop ids pool teams fixtures gw team).
Proof.
  intros Hteam Hpool. induction Hteam as [|pd team Hpd _ [ss IH]]; simpl; [done|].
  destruct (b64_replacement_for_total ids pool teams fixtures gw pd Hpd Hpool) as [o ->].
  rewrite IH. done.
Qed.

Lemma b64_suggest_replacements_total team pool teams fixtures gw :
  Forall (λ pd : Binary64.player * Z, Binary64.numeric_player pd.1) team →
  Forall Binary64.numeric_player pool →
  is_Some (Binary64.suggest_replacements team pool teams fixtures gw).
Proof.
  intros Hteam Hpool. unfold Binary64.suggest_replacements.
  destruct team as [|pd team]; [done|].
  assert (Hkeys : is_Some (mapM Binary64.score_pair (pd :: team))).
  { apply mapM_is_Some. eapply Forall_impl; [exact Hteam|].
    intros x Hx. by apply b64_calculate_player_score_numeric. }
  destruct (Binary64.sort_team_by_score (pd :: team)) as [ts|] eqn:Hs; simpl.
  - destruct (b64_sort_team_by_score_spec _ _ Hs) as (Hperm & _).
    rewrite <- Hperm in Hteam.
    destruct (b64_replacements_loop_total
                (list_to_set ((λ x : Binary64.player * Z, Binary64.player_id x.1) <$> ts))
                pool teams fixtures gw ts Hteam Hpool) as [ss ->].
    done.
  - unfold Binary64.sort_team_by_score in Hs.
    destruct Hkeys as [keys Hkeys]. by rewrite Hkeys in Hs.
Qed.

(** Rounding decides: [level_A] and [level_B] are level in exact
    arithmetic, yet [level_A] is suggested for an owned [level_B], and it is
    preferred to [level_B] as a replacement for [idle_player] although it
    comes later in the pool. *)
Example b64_suggest_replacements_rounding :
  (∃ team' s,
     Binary64.suggest_replacements [(Binary64.level_B, 3)]
       [Binary64.level_B; Binary64.level_A] [] [] None = Some (team', [s]) ∧
     Binary64.sg_out s = "LB" ∧ Binary64.sg_in s = "LA") ∧
  (∃ team' s,
     Binary64.suggest_replacements [(Binary64.idle_player, 3)]
       [Binary64.level_B; Binary64.level_A] [] [] None = Some (team', [s]) ∧
     Binary64.sg_out s = "Idle" ∧ Binary64.sg_in s = "LA").
Proof. split; eexists _, _; (split; [reflexivity|]); split; reflexivity. Qed.

(** Of two candidates with the same binary64 score the one met first in the
    pool is chosen, and a better but dearer one is passed over. *)
Example b64_suggest_replacements_tie_break :
  Binary64.suggest_replacements [(Binary64.idle_player, 3)] Binary64.small_pool [] [] None
  = Some ([(Binary64.idle_player, 3)], [Binary64.idle_for_B]).
Proof. reflexivity. Qed.

(** C2: every suggestion pairs an owned player [P] with a pool player [C] of
    the same position that is not owned, costs no more than [P] and whose
    score, as the code computes it in binary64, is strictly higher; [C] is
    the highest-scoring qualifying candidate, and among equally good ones
    the first in pool order: qualifying players in front of [C] in the pool
    score strictly less, those behind it at most as much. *)
Theorem suggest_replacements_sound team pool teams fixtures gw team' suggestions s :
  Binary64.suggest_replacements team pool teams fixtures gw = Some (team', suggestions) →
  s ∈ suggestions →
  ∃ P d sP C sC l1 l2,
    (P, d) ∈ team ∧ Binary64.calculate_player_score P d = Some sP ∧
    Binary64.sg_out s = Binary64.web_name P ∧ Binary64.in_player_object s = C ∧
    Binary64.sg_in s = Binary64.web_name C ∧
    Binary64.score_gain s = (sC - sP)%float ∧
    pool = l1 ++ C :: l2 ∧
    Binary64.qualifies team fixtures gw P sP C sC ∧
    (∀ c sc, c ∈ l1 → Binary64.qualifies team fixtures gw P sP c sc →
             (sc <? sC)%float = true) ∧
    (∀ c sc, c ∈ l2 → Binary64.qualifies team fixtures gw P sP c sc →
             (sc <=? sC)%float = true).
Proof.
  intros [(_ & _ & ->) | (Hsort & Hloop)]%b64_suggest_replacements_inv Hin;
    [by apply elem_of_nil in Hin|].
  destruct (b64_sort_team_by_score_spec _ _ Hsort) as (Hperm & _).
  destruct (b64_replacements_loop_elem _ _ _ _ _ _ _ _ Hloop Hin) as ([P d] & Hpd & Hr).
  destruct (b64_replacement_for_Some _ _ _ _ _ _ _ Hr)
    as (sP & C & sC & l1 & l2 & HsP & Ho & Hi & Hn & Hg & Hp & HC & H1 & H2).
  simpl in *.
  assert (Hq : ∀ c sc, Binary64.qualifies team fixtures gw P sP c sc ↔
     Binary64.is_candidate
       (list_to_set ((λ x : Binary64.player * Z, Binary64.player_id x.1) <$> team'))
       fixtures gw (Binary64.now_cost P) (Binary64.element_type P) sP c sc).
  { intros c sc. unfold Binary64.qualifies, Binary64.is_candidate.
    rewrite elem_of_list_to_set, Hperm. tauto. }
  exists P, d, sP, C, sC, l1, l2.
  split; [by rewrite <- Hperm|]. do 6 (split; [done|]).
  split; [by apply Hq|]. split.
  - intros c sc Hc Hqc. apply (H1 c sc Hc). by apply Hq.
  - intros c sc Hc Hqc. apply (H2 c sc Hc). by apply Hq.
Qed.

Lemma suggest_replacements_sound_witness :
  ∃ P d sP C sC l1 l2,
    (P, d) ∈ [(Binary64.idle_player, 3)] ∧ Binary64.calculate_player_score P d = Some sP ∧
    "Idle" = Binary64.web_name P ∧ Binary64.defender_B = C ∧ "B" = Binary64.web_name C ∧
    5.0%float = (sC - sP)%float ∧
    Binary64.small_pool = l1 ++ C :: l2 ∧
    Binary64.qualifies [(Binary64.idle_player, 3)] [] None P sP C sC ∧
    (∀ c sc, c ∈ l1 → Binary64.qualifies [(Binary64.idle_player, 3)] [] None P sP c sc →
             (sc <? sC)%float = true) ∧
    (∀ c sc, c ∈ l2 → Binary64.qualifies [(Binary64.idle_player, 3)] [] None P sP c sc →
             (sc <=? sC)%float = true).
Proof.
  apply (suggest_replacements_sound
           [(Binary64.idle_player, 3)] Binary64.small_pool [] [] None
           [(Binary64.idle_player, 3)] [Binary64.idle_for_B] Binary64.idle_for_B).
  - reflexivity.
  - apply list_elem_of_here.
Defined.

(** ** Binary64: suggest_chips *)


Section B64Chips.
Context (py_sum : list float → float).
Hypothesis py_sum_nil : py_sum [] = 0%float.





End B64Chips.




(** The specification's scenarios, with the plain left-to-right sum: a bench
    scoring 5.0 + 4.0 + 3.0 + 4.0 = 16.0 triggers the Bench Boost, and a used
    wildcard is not recommended although there are six other suggestions.
    A bench scoring 6.9 + 8.1 triggers the Bench Boost as well: the computed
    scores are 6.9 and 8.100000000000001 and their sum is
    15.000000000000002. *)
Example b64_suggest_chips_scenarios :
  Binary64.suggest_chips Binary64.sum_left [(Binary64.star_player, 3)] Binary64.bench4 [] ∅
    = Some [BenchBoost] ∧
  Binary64.suggest_chips Binary64.sum_left [(Binary64.star_player, 3)] []
    Binary64.six_suggestions {[ "wildcard" := true ]} = Some [] ∧
  Binary64.suggest_chips Binary64.sum_left [(Binary64.star_player, 3)] []
    Binary64.six_suggestions ∅ = Some [Wildcard] ∧
  mapM Binary64.score_pair Binary64.bench2 = Some [6.9; 8.100000000000001]%float ∧
  Binary64.suggest_chips Binary64.sum_left [(Binary64.star_player, 3)] Binary64.bench2 [] ∅
    = Some [BenchBoost].
Proof. repeat split; vm_compute; reflexivity. Qed.
